(** * Space Invaders: the simulation core, embedded and verified

    A shallow embedding of the game's simulation core:
    - [src/types/game.ts]            (records)
    - [src/config/gameConfig.ts]     (constants)
    - [src/utils/gameLogic.ts]       (collision, formation movement)
    - [src/utils/objectPool.ts]      (object pool)
    - [src/utils/gameStateManager.ts](state machine and events)
    - [src/hooks/useGameLoop.ts]     (fixed-timestep scheduler)
    - [src/utils/performance.ts]     (performance monitor)
    - the keyboard hook [useKeyboard]

    Conventions.  A TypeScript [number] that holds a coordinate, a speed, a
    score or a life count is an integer [Z] (every constant of the
    configuration is an integer and the operations used are +, -, * and
    comparisons).  Times of the scheduler are rationals [Q], since the tick is
    16.67 ms and the interpolation is a quotient; their arithmetic is exact
    here, where the code rounds to doubles.  Sizes and capacities of the
    pool are [nat].  A JavaScript array is a [list] in index order: [push]
    appends at the end, [pop] removes the last element. *)

From Stdlib Require Import ZArith QArith Lia Lqa Permutation Sorted.
From stdpp Require Import base list gmap strings.

(** ** Records of [types/game.ts] *)

Module CollisionBox.
Record t := mk {
  x : Z; y : Z; width : Z; height : Z
}.
End CollisionBox.

(** The interfaces that extend [Position] and [Size] are passed where a
    [CollisionBox] is expected (structural typing); the class makes that
    view explicit. *)
Class AsCollisionBox (T : Type) := collisionBox : T → CollisionBox.t.

Module Player.
Record t := mk {
  x : Z; y : Z; width : Z; height : Z;
  speed : Z; active : bool; lives : Z
}.
End Player.

Module Bullet.
Record t := mk {
  x : Z; y : Z; width : Z; height : Z;
  speed : Z; active : bool
}.
End Bullet.

Module Enemy.
Record t := mk {
  x : Z; y : Z; width : Z; height : Z;
  speed : Z; active : bool; direction : Z;
  animFrame : Z; row : Z; col : Z
}.
End Enemy.

Module Particle.
Record t := mk {
  x : Z; y : Z; vx : Z; vy : Z;
  life : Z; maxLife : Z; color : string
}.
End Particle.

#[export] Instance box_box : AsCollisionBox CollisionBox.t := λ b, b.
#[export] Instance player_box : AsCollisionBox Player.t :=
  λ p, CollisionBox.mk (Player.x p) (Player.y p) (Player.width p) (Player.height p).
#[export] Instance bullet_box : AsCollisionBox Bullet.t :=
  λ b, CollisionBox.mk (Bullet.x b) (Bullet.y b) (Bullet.width b) (Bullet.height b).
#[export] Instance enemy_box : AsCollisionBox Enemy.t :=
  λ e, CollisionBox.mk (Enemy.x e) (Enemy.y e) (Enemy.width e) (Enemy.height e).

Module GamePhase.
Inductive t := start | playing | paused | gameOver | levelComplete.
End GamePhase.

#[export] Instance GamePhase_eq_dec : EqDecision GamePhase.t.
Proof. solve_decision. Defined.

Module GameState.
Record t := mk {
  phase : GamePhase.t;
  score : Z;
  lives : Z;
  level : Z;
  enemies : list Enemy.t;
  bullets : list Bullet.t;
  particles : list Particle.t;
  player : Player.t;
  lastUpdateTime : Z;
  fps : Z
}.
End GameState.

(** [GameEvent]: [type] is a string (phase changes use the phase's name
    through [as any]); [data] is one of the four payloads the manager builds. *)
Inductive EventData :=
  | PhaseChange (previousPhase currentPhase : GamePhase.t)
  | FinalScore (finalScore : Z)
  | LevelData (level : Z)
  | LivesRemaining (livesRemaining : Z).

Module GameEvent.
Record t := mk { type : string; data : EventData }.
End GameEvent.

(** ** Constants of [config/gameConfig.ts] *)

Module GAME_CONFIG.
Module canvas.
Definition width : Z := 800.
Definition height : Z := 600.
End canvas.
Module player.
Definition width : Z := 50.
Definition height : Z := 30.
Definition speed : Z := 5.
Definition startX : Z := 400.
Definition startY : Z := 550.
End player.
Module enemies.
Definition width : Z := 40.
Definition height : Z := 30.
Definition speed : Z := 1.
Definition rows : nat := 5.
Definition cols : nat := 10.
Definition spacing_horizontal : Z := 20.
Definition spacing_vertical : Z := 15.
Definition startPosition_x : Z := 50.
Definition startPosition_y : Z := 50.
Definition dropDistance : Z := 20.
End enemies.
Module bullets.
Definition width : Z := 4.
Definition height : Z := 10.
Definition speed : Z := 7.
End bullets.
Module particles.
Definition maxLife : Z := 30.
End particles.
Module game.
Definition initialLives : Z := 3.
Definition pointsPerEnemy : Z := 10.
Definition targetFrameTime : Q := 1667 # 100.
End game.
End GAME_CONFIG.

(** ** [utils/gameLogic.ts] *)

Module GameLogic.
Local Open Scope Z_scope.

Definition checkCollision {A B} `{AsCollisionBox A, AsCollisionBox B}
    (obj1 : A) (obj2 : B) : bool :=
  let o1 := collisionBox obj1 in
  let o2 := collisionBox obj2 in
  (CollisionBox.x o1 <? CollisionBox.x o2 + CollisionBox.width o2) &&
  (CollisionBox.x o1 + CollisionBox.width o1 >? CollisionBox.x o2) &&
  (CollisionBox.y o1 <? CollisionBox.y o2 + CollisionBox.height o2) &&
  (CollisionBox.y o1 + CollisionBox.height o1 >? CollisionBox.y o2).

(** The object pushed by the inner loop of [createEnemyGrid]. *)
Definition gridEnemy (row col : nat) : Enemy.t :=
  Enemy.mk
    (Z.of_nat col * (GAME_CONFIG.enemies.width + GAME_CONFIG.enemies.spacing_horizontal)
       + GAME_CONFIG.enemies.startPosition_x)
    (Z.of_nat row * (GAME_CONFIG.enemies.height + GAME_CONFIG.enemies.spacing_vertical)
       + GAME_CONFIG.enemies.startPosition_y)
    GAME_CONFIG.enemies.width
    GAME_CONFIG.enemies.height
    GAME_CONFIG.enemies.speed
    true 1 0 (Z.of_nat row) (Z.of_nat col).

Definition createEnemyGrid : list Enemy.t :=
  foldl (λ enemies row,
           foldl (λ enemies col, enemies ++ [gridEnemy row col])
                 enemies (seq 0 GAME_CONFIG.enemies.cols))
        [] (seq 0 GAME_CONFIG.enemies.rows).

(** [newX] and the boundary test of the first pass. *)
Definition projectedX (enemy : Enemy.t) : Z :=
  Enemy.x enemy + Enemy.speed enemy * Enemy.direction enemy.

Definition crossesBoundary (enemy : Enemy.t) : bool :=
  let newX := projectedX enemy in
  (newX <=? 0) || (newX >=? GAME_CONFIG.canvas.width - Enemy.width enemy).

(** Body of the first [forEach]: the flag is only ever raised. *)
Definition boundaryPass (shouldMoveDown : bool) (enemy : Enemy.t) : bool :=
  if negb (Enemy.active enemy) then shouldMoveDown
  else if crossesBoundary enemy then true
  else shouldMoveDown.

(** Body of the [map]: the two object spreads. *)
Definition moveEnemy (shouldMoveDown : bool) (enemy : Enemy.t) : Enemy.t :=
  if negb (Enemy.active enemy) then enemy
  else if shouldMoveDown then
    Enemy.mk (Enemy.x enemy)
             (Enemy.y enemy + GAME_CONFIG.enemies.dropDistance)
             (Enemy.width enemy) (Enemy.height enemy) (Enemy.speed enemy)
             (Enemy.active enemy)
             (Enemy.direction enemy * -1)
             (Enemy.animFrame enemy) (Enemy.row enemy) (Enemy.col enemy)
  else
    Enemy.mk (Enemy.x enemy + Enemy.speed enemy * Enemy.direction enemy)
             (Enemy.y enemy)
             (Enemy.width enemy) (Enemy.height enemy) (Enemy.speed enemy)
             (Enemy.active enemy)
             (Enemy.direction enemy)
             (Enemy.animFrame enemy) (Enemy.row enemy) (Enemy.col enemy).

Definition updateEnemyPositions (enemies : list Enemy.t) : bool * list Enemy.t :=
  let shouldMoveDown := foldl boundaryPass false enemies in
  let updatedEnemies := map (moveEnemy shouldMoveDown) enemies in
  (shouldMoveDown, updatedEnemies).

(** [array.forEach((element, index) => ...)] threading a state. *)
Fixpoint forEachFrom {A St} (f : St → A → nat → St) (index : nat) (l : list A) (s : St) : St :=
  match l with
  | [] => s
  | a :: l' => forEachFrom f (S index) l' (f s a index)
  end.

Definition forEach {A St} (f : St → A → nat → St) (l : list A) (s : St) : St :=
  forEachFrom f 0 l s.

Record CollisionResult := mkResult {
  hitBullets : list nat;
  hitEnemies : list nat;
  score : Z
}.

(** Body of the inner [forEach] of [checkBulletEnemyCollisions]. *)
Definition enemyPass (bullet : Bullet.t) (bulletIndex : nat)
    (acc : CollisionResult) (enemy : Enemy.t) (enemyIndex : nat) : CollisionResult :=
  if negb (Enemy.active enemy) then acc
  else if checkCollision bullet enemy then
    mkResult (hitBullets acc ++ [bulletIndex])
             (hitEnemies acc ++ [enemyIndex])
             (score acc + GAME_CONFIG.game.pointsPerEnemy)
  else acc.

(** Body of the outer [forEach]. *)
Definition bulletPass (enemies : list Enemy.t)
    (acc : CollisionResult) (bullet : Bullet.t) (bulletIndex : nat) : CollisionResult :=
  if negb (Bullet.active bullet) then acc
  else forEach (enemyPass bullet bulletIndex) enemies acc.

Definition checkBulletEnemyCollisions
    (bullets : list Bullet.t) (enemies : list Enemy.t) : CollisionResult :=
  forEach (bulletPass enemies) bullets (mkResult [] [] 0).

(** The pairs the collision pass is specified to report: every
    (bullet index, enemy index) with both entities active and overlapping,
    bullets outermost, both in index order. *)
Definition hits (bullet : Bullet.t) (enemy : Enemy.t) : bool :=
  Bullet.active bullet && Enemy.active enemy && checkCollision bullet enemy.

Definition hitsOf (bullet : Bullet.t) (i : nat) (enemies : list Enemy.t) : list (nat * nat) :=
  omap (λ '(j, enemy), if hits bullet enemy then Some (i, j) else None)
       (imap (λ j enemy, (j, enemy)) enemies).

Definition collidingPairs
    (bullets : list Bullet.t) (enemies : list Enemy.t) : list (nat * nat) :=
  mjoin (imap (λ i bullet, hitsOf bullet i enemies) bullets).

(** The accumulator once the pairs [ps] have been pushed on top of [acc]. *)
Definition report (acc : CollisionResult) (ps : list (nat * nat)) : CollisionResult :=
  mkResult (hitBullets acc ++ ps.*1) (hitEnemies acc ++ ps.*2)
           (score acc + GAME_CONFIG.game.pointsPerEnemy * Z.of_nat (length ps)).

(** The rest of [gameLogic.ts]. *)

Definition isOutOfBounds {A} `{AsCollisionBox A}
    (obj : A) (canvasWidth canvasHeight : Z) : bool :=
  let o := collisionBox obj in
  (CollisionBox.x o + CollisionBox.width o <? 0) ||
  (CollisionBox.x o >? canvasWidth) ||
  (CollisionBox.y o + CollisionBox.height o <? 0) ||
  (CollisionBox.y o >? canvasHeight).

(** [clampToCanvas(obj: { x; width }, canvasWidth)]: the two fields read. *)
Definition clampToCanvas (x width canvasWidth : Z) : Z :=
  Z.max 0 (Z.min x (canvasWidth - width)).

Definition updateBullets (bullets : list Bullet.t) : list Bullet.t :=
  List.filter (λ bullet, Bullet.y bullet >? - Bullet.height bullet)
    (map (λ bullet, Bullet.mk (Bullet.x bullet) (Bullet.y bullet - Bullet.speed bullet)
                              (Bullet.width bullet) (Bullet.height bullet)
                              (Bullet.speed bullet) (Bullet.active bullet))
         bullets).

Definition updateParticles (particles : list Particle.t) : list Particle.t :=
  List.filter (λ particle, Particle.life particle >? 0)
    (map (λ particle, Particle.mk (Particle.x particle + Particle.vx particle)
                                  (Particle.y particle + Particle.vy particle)
                                  (Particle.vx particle) (Particle.vy particle)
                                  (Particle.life particle - 1)
                                  (Particle.maxLife particle) (Particle.color particle))
         particles).

Definition getActiveEnemies (enemies : list Enemy.t) : list Enemy.t :=
  List.filter Enemy.active enemies.

Definition checkEnemyPlayerCollision (enemies : list Enemy.t) (player : Player.t) : bool :=
  existsb (λ enemy,
             Enemy.active enemy &&
             (Enemy.y enemy + Enemy.height enemy >=? Player.y player) &&
             checkCollision enemy player)
          enemies.

Record GameStatsCounts := mkCounts {
  activeEnemies : nat;
  activeBullets : nat;
  activeParticles : nat;
  totalEntities : nat
}.

Definition calculateGameStats (enemies : list Enemy.t) (bullets : list Bullet.t)
    (particles : list Particle.t) : GameStatsCounts :=
  mkCounts (length (List.filter Enemy.active enemies))
           (length (List.filter Bullet.active bullets))
           (length (List.filter (λ p, Particle.life p >? 0) particles))
           (length enemies + length bullets + length particles).

Definition isLevelComplete (enemies : list Enemy.t) : bool :=
  forallb (λ enemy, negb (Enemy.active enemy)) enemies.

Definition allowedKeys : list string :=
  ["ArrowLeft"; "ArrowRight"; "ArrowUp"; "ArrowDown";
   " "; "Enter"; "Escape"; "p"; "P";
   "Pause"; "Space"]%string.

Definition validateInput (key : string) : bool := bool_decide (key ∈ allowedKeys).

End GameLogic.

(** ** JavaScript arrays *)

(** [array.indexOf(x)], by identity; [None] stands for -1. *)
Fixpoint indexOf (x : nat) (l : list nat) : option nat :=
  match l with
  | [] => None
  | o :: l' => if decide (o = x) then Some 0%nat else S <$> indexOf x l'
  end.

(** [const index = array.indexOf(x); if (index > -1) array.splice(index, 1)]. *)
Definition removeFirst (x : nat) (l : list nat) : list nat :=
  match indexOf x l with
  | Some index => delete index l
  | None => l
  end.

(** ** [utils/objectPool.ts] *)

(** [interface Poolable]: the two methods, acting on the fields of an instance. *)
Class Poolable (T : Type) := {
  reset : T → T;
  isActive : T → bool
}.

(** [class PooledBullet implements Bullet, Poolable]. *)
#[export] Instance PooledBullet : Poolable Bullet.t := {
  reset b := Bullet.mk 0 0 (Bullet.width b) (Bullet.height b) (Bullet.speed b) false;
  isActive b := Bullet.active b && (Bullet.y b >? - Bullet.height b)%Z
}.

(** [class PooledParticle implements Particle, Poolable]. *)
#[export] Instance PooledParticle : Poolable Particle.t := {
  reset p := Particle.mk 0 0 0 0 0 (Particle.maxLife p) "#ffffff";
  isActive p := (Particle.life p >? 0)%Z
}.

Definition newPooledBullet : Bullet.t :=
  Bullet.mk 0 0 GAME_CONFIG.bullets.width GAME_CONFIG.bullets.height
            GAME_CONFIG.bullets.speed false.

Definition newPooledParticle : Particle.t :=
  Particle.mk 0 0 0 0 0 GAME_CONFIG.particles.maxLife "#ffffff".

Module ObjectPool.

(** Instances are objects compared by identity ([indexOf]) and mutated in
    place ([reset], and the game's own [init]/[update]): an instance is a
    reference into a store of instance states.  [createFn] is the state of the
    instance a call of the factory returns; every call allocates a new
    reference, as [() => new PooledBullet()] does. *)
Definition ref := nat.

Record t (T : Type) := mk {
  pool : list ref;
  active : list ref;
  createFn : T;
  maxSize : nat;
  store : list T
}.
Arguments mk {T}.
Arguments pool {T}.
Arguments active {T}.
Arguments createFn {T}.
Arguments maxSize {T}.
Arguments store {T}.

Section Methods.
Context {T : Type} `{Poolable T}.

Definition withPool (p : t T) (l : list ref) : t T :=
  mk l (active p) (createFn p) (maxSize p) (store p).
Definition withActive (p : t T) (l : list ref) : t T :=
  mk (pool p) l (createFn p) (maxSize p) (store p).
Definition withStore (p : t T) (s : list T) : t T :=
  mk (pool p) (active p) (createFn p) (maxSize p) s.

(** [this.createFn()]: a new instance and the store that holds it. *)
Definition create (p : t T) : ref * t T :=
  (length (store p), withStore p (store p ++ [createFn p])).

(** [obj.reset()] and an outside mutation of an instance. *)
Definition mutate (obj : ref) (f : T → T) (p : t T) : t T :=
  withStore p (alter f obj (store p)).

(** [obj.isActive()]. *)
Definition objIsActive (p : t T) (obj : ref) : bool :=
  match store p !! obj with
  | Some v => isActive v
  | None => false
  end.

(** [this.pool.push(obj)]. *)
Definition pushPool (obj : ref) (p : t T) : t T := withPool p (pool p ++ [obj]).

(** The constructor: [for (let i = 0; i < initialSize; i++) this.pool.push(this.createFn())]. *)
Definition new (createFn : T) (initialSize maxSize : nat) : t T :=
  Nat.iter initialSize
           (λ p, let '(obj, p') := create p in pushPool obj p')
           (mk [] [] createFn maxSize []).

Definition get (p : t T) : option ref * t T :=
  let popped := last (pool p) in
  let p := withPool p (removelast (pool p)) in
  let '(obj, p) :=
    match popped with
    | Some o => (Some o, p)
    | None =>
        if length (active p) + length (pool p) <? maxSize p
        then let '(o, p') := create p in (Some o, p')
        else (None, p)
    end in
  match obj with
  | Some o => (Some o, withActive p (active p ++ [o]))
  | None => (None, p)
  end.

(** The three statements guarded by [index > -1] in [release], also the body
    of the conditional in [update]. *)
Definition reclaim (index : nat) (obj : ref) (p : t T) : t T :=
  pushPool obj (mutate obj reset (withActive p (delete index (active p)))).

Definition release (obj : ref) (p : t T) : t T :=
  match indexOf obj (active p) with
  | Some index => reclaim index obj p
  | None => p
  end.

Definition releaseAll (p : t T) : t T :=
  let p := foldl (λ p obj, pushPool obj (mutate obj reset p)) p (active p) in
  withActive p [].

Definition getActive (p : t T) : list ref :=
  filter (λ obj, objIsActive p obj = true) (active p).

(** [for (let i = this.active.length - 1; i >= 0; i--)]: [updateFrom n] runs
    the iterations i = n-1, ..., 0.  Index i is always in range there (a
    splice at i only shifts indices above i, which were visited before). *)
Fixpoint updateFrom (n : nat) (p : t T) : t T :=
  match n with
  | 0 => p
  | S i =>
      let p :=
        match active p !! i with
        | Some obj => if negb (objIsActive p obj) then reclaim i obj p else p
        | None => p
        end in
      updateFrom i p
  end.

Definition update (p : t T) : t T := updateFrom (length (active p)) p.

Record Stats := mkStats { poolSize : nat; activeSize : nat; totalSize : nat }.

Definition getStats (p : t T) : Stats :=
  mkStats (length (pool p)) (length (active p)) (length (pool p) + length (active p)).

(** A client's calls on a pool, for statements about every sequence of them. *)
Inductive Call :=
  | CallGet
  | CallRelease (obj : ref)
  | CallReleaseAll
  | CallUpdate
  | CallMutate (obj : ref) (f : T → T).

Definition call (c : Call) (p : t T) : t T :=
  match c with
  | CallGet => (get p).2
  | CallRelease obj => release obj p
  | CallReleaseAll => releaseAll p
  | CallUpdate => update p
  | CallMutate obj f => mutate obj f p
  end.

Definition calls (cs : list Call) (p : t T) : t T := foldl (λ p c, call c p) p cs.

(** [n] successive calls of [get], with the results in call order. *)
Fixpoint getMany (n : nat) (p : t T) : list (option ref) * t T :=
  match n with
  | 0 => ([], p)
  | S n' => let '(r, p') := get p in
            let '(rs, p'') := getMany n' p' in (r :: rs, p'')
  end.

(** Representation invariant: no instance is tracked twice, and every
    tracked instance lives in the store. *)
Definition wellFormed (p : t T) : Prop :=
  NoDup (pool p ++ active p) ∧ ∀ obj, obj ∈ pool p ++ active p → obj < length (store p).

End Methods.

(** [export const bulletPool] and [export const particlePool]. *)
Definition bulletPool : t Bullet.t := new newPooledBullet 20 50.
Definition particlePool : t Particle.t := new newPooledParticle 50 200.

End ObjectPool.

(** ** [utils/gameStateManager.ts] *)

(** [Partial<GameState>]: the fields an update carries. *)
Module Partial.
Record t := mk {
  phase : option GamePhase.t;
  score : option Z;
  lives : option Z;
  level : option Z;
  enemies : option (list Enemy.t);
  bullets : option (list Bullet.t);
  particles : option (list Particle.t);
  player : option Player.t;
  lastUpdateTime : option Z;
  fps : option Z
}.
Definition none : t := mk None None None None None None None None None None.
End Partial.

Module GameStateManager.
Local Open Scope Z_scope.

(** Listeners and event handlers are functions of the client, compared by
    identity when they unsubscribe; the model names them by a number and
    records every invocation, in order, in [log].  The callbacks are observers:
    they do not call back into the manager. *)
Inductive Invocation :=
  | Handler (handler : nat) (event : GameEvent.t)
  | Listener (listener : nat) (state : GameState.t).

Record t := mk {
  state : GameState.t;
  listeners : list nat;
  eventHandlers : gmap string (list nat);
  log : list Invocation
}.

Definition withState (m : t) (s : GameState.t) : t :=
  mk s (listeners m) (eventHandlers m) (log m).
Definition withLog (m : t) (l : list Invocation) : t :=
  mk (state m) (listeners m) (eventHandlers m) l.

(** The string of a phase, as the union type spells it. *)
Definition phaseName (p : GamePhase.t) : string :=
  match p with
  | GamePhase.start => "start"
  | GamePhase.playing => "playing"
  | GamePhase.paused => "paused"
  | GamePhase.gameOver => "gameOver"
  | GamePhase.levelComplete => "levelComplete"
  end.

Definition startPlayerX : Z :=
  GAME_CONFIG.player.startX - GAME_CONFIG.player.width / 2.

Definition createPlayer : Player.t :=
  Player.mk startPlayerX GAME_CONFIG.player.startY
            GAME_CONFIG.player.width GAME_CONFIG.player.height
            GAME_CONFIG.player.speed true GAME_CONFIG.game.initialLives.

Definition createInitialState : GameState.t :=
  GameState.mk GamePhase.start 0 GAME_CONFIG.game.initialLives 1 [] [] [] createPlayer 0 0.

Definition new : t := mk createInitialState [] ∅ [].

Definition getState (m : t) : GameState.t := state m.

(** [{ ...this.state, ...updates }]. *)
Definition merge (s : GameState.t) (u : Partial.t) : GameState.t :=
  GameState.mk
    (default (GameState.phase s) (Partial.phase u))
    (default (GameState.score s) (Partial.score u))
    (default (GameState.lives s) (Partial.lives u))
    (default (GameState.level s) (Partial.level u))
    (default (GameState.enemies s) (Partial.enemies u))
    (default (GameState.bullets s) (Partial.bullets u))
    (default (GameState.particles s) (Partial.particles u))
    (default (GameState.player s) (Partial.player u))
    (default (GameState.lastUpdateTime s) (Partial.lastUpdateTime u))
    (default (GameState.fps s) (Partial.fps u)).

Definition emitEvent (event : GameEvent.t) (m : t) : t :=
  match eventHandlers m !! GameEvent.type event with
  | Some handlers => withLog m (log m ++ map (λ handler, Handler handler event) handlers)
  | None => m
  end.

Definition notifyListeners (m : t) : t :=
  withLog m (log m ++ map (λ listener, Listener listener (state m)) (listeners m)).

Definition updateState (updates : Partial.t) (m : t) : t :=
  let previousPhase := GameState.phase (state m) in
  let m := withState m (merge (state m) updates) in
  let m :=
    if decide (previousPhase ≠ GameState.phase (state m))
    then emitEvent (GameEvent.mk (phaseName (GameState.phase (state m)))
                                 (PhaseChange previousPhase (GameState.phase (state m)))) m
    else m in
  notifyListeners m.

Definition startGame (m : t) : t :=
  let i := createInitialState in
  let m := withState m
    (GameState.mk GamePhase.playing (GameState.score i) (GameState.lives i) (GameState.level i)
                  GameLogic.createEnemyGrid (GameState.bullets i) (GameState.particles i)
                  (GameState.player i) (GameState.lastUpdateTime i) (GameState.fps i)) in
  notifyListeners m.

Definition pauseGame (m : t) : t :=
  if decide (GameState.phase (state m) = GamePhase.playing)
  then updateState (Partial.mk (Some GamePhase.paused) None None None None None None None None None) m
  else m.

Definition resumeGame (m : t) : t :=
  if decide (GameState.phase (state m) = GamePhase.paused)
  then updateState (Partial.mk (Some GamePhase.playing) None None None None None None None None None) m
  else m.

Definition gameOver (m : t) : t :=
  let m := updateState (Partial.mk (Some GamePhase.gameOver) None None None None None None None None None) m in
  emitEvent (GameEvent.mk "gameOver" (FinalScore (GameState.score (state m)))) m.

(** [{ ...this.state.player, x: ..., y: ... }]. *)
Definition repositioned (p : Player.t) : Player.t :=
  Player.mk startPlayerX GAME_CONFIG.player.startY
            (Player.width p) (Player.height p) (Player.speed p)
            (Player.active p) (Player.lives p).

Definition nextLevel (m : t) : t :=
  let newLevel := GameState.level (state m) + 1 in
  let m := updateState
    (Partial.mk None None None (Some newLevel) (Some GameLogic.createEnemyGrid)
                (Some []) (Some []) (Some (repositioned (GameState.player (state m))))
                None None) m in
  emitEvent (GameEvent.mk "levelComplete" (LevelData newLevel)) m.

Definition loseLife (m : t) : t :=
  let newLives := Z.max 0 (GameState.lives (state m) - 1) in
  let m := updateState (Partial.mk None None (Some newLives) None None None None None None None) m in
  let m :=
    if newLives <=? 0 then gameOver m
    else updateState
      (Partial.mk None None None None (Some GameLogic.createEnemyGrid)
                  (Some []) (Some []) (Some (repositioned (GameState.player (state m))))
                  None None) m in
  emitEvent (GameEvent.mk "playerHit" (LivesRemaining newLives)) m.

Definition addScore (points : Z) (m : t) : t :=
  updateState (Partial.mk None (Some (GameState.score (state m) + points))
                          None None None None None None None None) m.

Definition updateFPS (fps : Z) (m : t) : t :=
  updateState (Partial.mk None None None None None None None None None (Some fps)) m.

Definition updateLastUpdateTime (time : Z) (m : t) : t :=
  updateState (Partial.mk None None None None None None None None (Some time) None) m.

Definition addEventListener (eventType : string) (handler : nat) (m : t) : t :=
  let handlers := default [] (eventHandlers m !! eventType) in
  mk (state m) (listeners m)
     (<[eventType := handlers ++ [handler]]> (eventHandlers m)) (log m).

Definition subscribe (listener : nat) (m : t) : t :=
  mk (state m) (listeners m ++ [listener]) (eventHandlers m) (log m).

(** The unsubscribe functions that [addEventListener] and [subscribe] return. *)
Definition removeEventListener (eventType : string) (handler : nat) (m : t) : t :=
  mk (state m) (listeners m)
     (alter (removeFirst handler) eventType (eventHandlers m)) (log m).

Definition unsubscribe (listener : nat) (m : t) : t :=
  mk (state m) (removeFirst listener (listeners m)) (eventHandlers m) (log m).

Definition reset (m : t) : t :=
  notifyListeners (withState m createInitialState).

Definition isPlaying (m : t) : bool := bool_decide (GameState.phase (state m) = GamePhase.playing).
Definition isPaused (m : t) : bool := bool_decide (GameState.phase (state m) = GamePhase.paused).
Definition isGameOver (m : t) : bool :=
  bool_decide (GameState.phase (state m) = GamePhase.gameOver).

Definition canShoot (m : t) : bool :=
  isPlaying m && bool_decide (length (GameState.bullets (state m)) < 5)%nat.

(** The operations a client can apply to a manager. *)
Inductive Op :=
  | OpUpdateState (updates : Partial.t)
  | OpStartGame
  | OpPauseGame
  | OpResumeGame
  | OpGameOver
  | OpNextLevel
  | OpLoseLife
  | OpAddScore (points : Z)
  | OpUpdateFPS (fps : Z)
  | OpUpdateLastUpdateTime (time : Z)
  | OpAddEventListener (eventType : string) (handler : nat)
  | OpSubscribe (listener : nat)
  | OpRemoveEventListener (eventType : string) (handler : nat)
  | OpUnsubscribe (listener : nat)
  | OpReset.

Definition apply (o : Op) (m : t) : t :=
  match o with
  | OpUpdateState updates => updateState updates m
  | OpStartGame => startGame m
  | OpPauseGame => pauseGame m
  | OpResumeGame => resumeGame m
  | OpGameOver => gameOver m
  | OpNextLevel => nextLevel m
  | OpLoseLife => loseLife m
  | OpAddScore points => addScore points m
  | OpUpdateFPS fps => updateFPS fps m
  | OpUpdateLastUpdateTime time => updateLastUpdateTime time m
  | OpAddEventListener eventType handler => addEventListener eventType handler m
  | OpSubscribe listener => subscribe listener m
  | OpRemoveEventListener eventType handler => removeEventListener eventType handler m
  | OpUnsubscribe listener => unsubscribe listener m
  | OpReset => reset m
  end.

Definition run (os : list Op) (m : t) : t := foldl (λ m o, apply o m) m os.

(** The handlers [emitEvent] finds for an event type. *)
Definition handlersOf (eventType : string) (m : t) : list nat :=
  default [] (eventHandlers m !! eventType).

(** Invocations that deliver a phase-change event. *)
Definition isPhaseChange (i : Invocation) : bool :=
  match i with
  | Handler _ (GameEvent.mk _ (PhaseChange _ _)) => true
  | _ => false
  end.

(** Operations that cannot lower the score: neither a restart nor a reset,
    no raw update of the score field, no negative points. *)
Definition keepsScore (o : Op) : bool :=
  match o with
  | OpStartGame | OpReset => false
  | OpUpdateState updates => bool_decide (Partial.score updates = None)
  | OpAddScore points => bool_decide (0 <= points)
  | _ => true
  end.

(** The operations named by the game-over rule. *)
Definition afterGameOver (o : Op) : bool :=
  match o with
  | OpPauseGame | OpResumeGame | OpLoseLife | OpNextLevel => true
  | _ => false
  end.

(** Operations that do not write the [lives] or [phase] field directly. *)
Definition keepsLives (o : Op) : bool :=
  match o with
  | OpUpdateState updates =>
      bool_decide (Partial.lives updates = None) && bool_decide (Partial.phase updates = None)
  | _ => true
  end.

(** Operations that do not write the [bullets] field directly. *)
Definition keepsBullets (o : Op) : bool :=
  match o with
  | OpUpdateState updates => bool_decide (Partial.bullets updates = None)
  | _ => true
  end.

(** Operations that cannot lower the level. *)
Definition keepsLevel (o : Op) : bool :=
  match o with
  | OpStartGame | OpReset => false
  | OpUpdateState updates => bool_decide (Partial.level updates = None)
  | _ => true
  end.

Definition isNextLevel (o : Op) : bool :=
  match o with OpNextLevel => true | _ => false end.

(** *** Listeners that change the subscriptions while they are notified

    [notifyListeners] above is the dispatch to observers.  A listener may
    also call [subscribe], or an unsubscribe function it holds, while it is
    being called; [forEach] reads the length of [this.listeners] once and then
    visits each index below it that is still in the array, taking the element
    found there at that moment.  A listener's reactions are the calls it
    makes on the subscriptions, in order. *)
Inductive Reaction :=
  | Subscribes (listener : nat)
  | Unsubscribes (listener : nat).

Definition react (r : Reaction) (m : t) : t :=
  match r with
  | Subscribes listener => subscribe listener m
  | Unsubscribes listener => unsubscribe listener m
  end.

(** The walk of [forEach] from index [k], with [n] indices left below the
    length read at the start. *)
Fixpoint forEachListener (reactions : nat → list Reaction) (n k : nat) (m : t) : t :=
  match n with
  | O => m
  | S n' =>
      let m :=
        match listeners m !! k with
        | Some listener =>
            foldl (λ m r, react r m)
                  (withLog m (log m ++ [Listener listener (state m)]))
                  (reactions listener)
        | None => m
        end in
      forEachListener reactions n' (S k) m
  end.

(** [notifyListeners] for listeners with the given reactions. *)
Definition notifyListenersLive (reactions : nat → list Reaction) (m : t) : t :=
  forEachListener reactions (length (listeners m)) 0 m.

End GameStateManager.

(** ** [hooks/useGameLoop.ts] *)

Module GameLoop.
Local Open Scope Q_scope.

(** A callback of the client acts on the client's world [W]; it returns or
    throws, and in both cases leaves a world behind. *)
Inductive Outcome (W : Type) :=
  | Returns (w : W)
  | Throws (w : W).
Arguments Returns {W}.
Arguments Throws {W}.

Record GameLoopCallbacks (W : Type) := mkCallbacks {
  onUpdate : Q → Q → W → Outcome W;
  onRender : Q → W → Outcome W
}.
Arguments mkCallbacks {W}.
Arguments onUpdate {W}.
Arguments onRender {W}.

Definition world {W} (o : Outcome W) : W :=
  match o with Returns w => w | Throws w => w end.

Record FpsCounter := mkFps { frames : nat; lastTime : Q; fps : nat }.

(** The refs of the hook that [gameLoop] reads and writes.  [requestRef] only
    holds the handle of the pending frame and is left out: one call of
    [gameLoop] is one display callback. *)
Record Refs := mkRefs {
  previousTimeRef : option Q;
  lagRef : Q;
  fpsCounterRef : FpsCounter
}.

Definition initialRefs : Refs := mkRefs None 0 (mkFps 0 0 0).

(** The calls of the client's callbacks made by one display callback. *)
Inductive Call :=
  | Update (deltaTime currentTime : Q)
  | Render (interpolation : Q).

Definition targetFrameTime : Q := GAME_CONFIG.game.targetFrameTime.
Definition maxUpdates : nat := 5.

Section Loop.
Context {W : Type} (callbacks : GameLoopCallbacks W).

(** [while (lagRef.current >= targetFrameTime && updateCount < maxUpdates)],
    with [remaining = maxUpdates - updateCount]: the second conjunct is
    [0 < remaining], and every iteration that does not break decrements it. *)
Fixpoint updateLoop (remaining : nat) (currentTime lag : Q) (w : W) : Q * W * list Call :=
  match remaining with
  | O => (lag, w, [])
  | S remaining' =>
      if Qle_bool targetFrameTime lag then
        match onUpdate callbacks targetFrameTime currentTime w with
        | Returns w' =>
            let '(lag', w'', trace) :=
              updateLoop remaining' currentTime (lag - targetFrameTime) w' in
            (lag', w'', Update targetFrameTime currentTime :: trace)
        | Throws w' => (0, w', [Update targetFrameTime currentTime])
        end
      else (lag, w, [])
  end.

Definition tickFps (currentTime : Q) (c : FpsCounter) : FpsCounter :=
  let frames' := S (frames c) in
  if Qle_bool 1000 (currentTime - lastTime c)
  then mkFps 0 currentTime frames'
  else mkFps frames' (lastTime c) (fps c).

Definition gameLoop (isActive : bool) (currentTime : Q) (refs : Refs) (w : W)
    : Refs * W * list Call :=
  if negb isActive then (refs, w, [])
  else
    let previousTime := default currentTime (previousTimeRef refs) in
    let deltaTime := currentTime - previousTime in
    let lag := lagRef refs + deltaTime in
    let '(lag, w, updates) := updateLoop maxUpdates currentTime lag w in
    let interpolation := lag / targetFrameTime in
    let w := world (onRender callbacks interpolation w) in
    (mkRefs (Some currentTime) lag (tickFps currentTime (fpsCounterRef refs)),
     w, updates ++ [Render interpolation]).

(** The lag accumulated by a callback before its update loop runs. *)
Definition accumulated (currentTime : Q) (refs : Refs) : Q :=
  lagRef refs + (currentTime - default currentTime (previousTimeRef refs)).

End Loop.

Definition reset (refs : Refs) : Refs := initialRefs.

Definition isUpdate (c : Call) : bool :=
  match c with Update _ _ => true | Render _ => false end.

Definition updateCount (trace : list Call) : nat :=
  length (List.filter isUpdate trace).

Definition renderCount (trace : list Call) : nat :=
  length (List.filter (λ c, negb (isUpdate c)) trace).

(** Callbacks that never throw and a world that counts the updates. *)
Definition counting : GameLoopCallbacks nat :=
  mkCallbacks (λ _ _ n, Returns (S n)) (λ _ n, Returns n).

(** Callbacks whose update always throws. *)
Definition failing : GameLoopCallbacks nat :=
  mkCallbacks (λ _ _ n, Throws n) (λ _ n, Returns n).

(** The display callbacks the host makes at the given times, the loop being
    active, with the calls of all of them in order. *)
Definition runFrames {W} (callbacks : GameLoopCallbacks W) (times : list Q)
    (refs : Refs) (w : W) : Refs * W * list Call :=
  foldl (λ acc currentTime,
           let r := gameLoop callbacks true currentTime acc.1.1 acc.1.2 in
           (r.1.1, r.1.2, acc.2 ++ r.2))
        (refs, w, []) times.

End GameLoop.

(** ** The methods of [PooledBullet] and [PooledParticle] outside [Poolable] *)

Module PooledBullet.
Local Open Scope Z_scope.

Definition init (x y : Z) (b : Bullet.t) : Bullet.t :=
  Bullet.mk x y (Bullet.width b) (Bullet.height b) (Bullet.speed b) true.

Definition update (b : Bullet.t) : Bullet.t :=
  if Bullet.active b then
    let y := Bullet.y b - Bullet.speed b in
    Bullet.mk (Bullet.x b) y (Bullet.width b) (Bullet.height b) (Bullet.speed b)
              (if y <? - Bullet.height b then false else Bullet.active b)
  else b.

End PooledBullet.

Module PooledParticle.
Local Open Scope Z_scope.

(** [init(x, y, color)]; [vx] and [vy] stand for the two values
    [(Math.random() - 0.5) * speedRange] drawn by the call. *)
Definition init (x y : Z) (color : string) (vx vy : Z) (p : Particle.t) : Particle.t :=
  Particle.mk x y vx vy (Particle.maxLife p) (Particle.maxLife p) color.

Definition update (p : Particle.t) : Particle.t :=
  if Particle.life p >? 0 then
    Particle.mk (Particle.x p + Particle.vx p) (Particle.y p + Particle.vy p)
                (Particle.vx p) (Particle.vy p) (Particle.life p - 1)
                (Particle.maxLife p) (Particle.color p)
  else p.

End PooledParticle.

(** ** [utils/performance.ts] *)

Module PerformanceMonitor.
Local Open Scope Q_scope.

(** The two [console.warn] calls of [update], with the number each reports. *)
Inductive Warning :=
  | LowFps (fps : nat)
  | HighFrameTime (avgFrameTime : Q).

Record t := mk {
  frameCount : nat;
  lastTime : Q;
  fps : nat;
  frameTime : Q;
  frameTimes : list Q;
  entityCount : Z;
  particleCount : Z
}.

Definition maxFrameTimeHistory : nat := 60.

Definition new : t := mk 0 0 0 0 [] 0 0.

(** [frameTimes.reduce((acc, time) => acc + time, 0)]. *)
Definition sum (frameTimes : list Q) : Q := foldl Qplus 0 frameTimes.

Definition getAverageFrameTime (p : t) : Q :=
  if (length (frameTimes p) =? 0)%nat then 0
  else sum (frameTimes p) / inject_Z (Z.of_nat (length (frameTimes p))).

Definition withFrameTimes (p : t) (frameTime : Q) (frameTimes : list Q) : t :=
  mk (frameCount p) (lastTime p) (fps p) frameTime frameTimes
     (entityCount p) (particleCount p).

Definition update (currentTime : Q) (p : t) : t * list Warning :=
  let p := mk (S (frameCount p)) (lastTime p) (fps p) (frameTime p) (frameTimes p)
              (entityCount p) (particleCount p) in
  let p :=
    if negb (Qle_bool (lastTime p) 0) then
      let frameTime := currentTime - lastTime p in
      let pushed := frameTimes p ++ [frameTime] in
      withFrameTimes p frameTime
        (if (maxFrameTimeHistory <? length pushed)%nat then tail pushed else pushed)
    else p in
  let '(p, warnings) :=
    if Qle_bool 1000 (currentTime - lastTime p) then
      let p := mk 0 (lastTime p) (frameCount p) (frameTime p) (frameTimes p)
                  (entityCount p) (particleCount p) in
      let low := if (fps p <? 30)%nat then [LowFps (fps p)] else [] in
      let avgFrameTime := getAverageFrameTime p in
      let high := if negb (Qle_bool avgFrameTime 33)
                  then [HighFrameTime avgFrameTime] else [] in
      (p, low ++ high)
    else (p, []) in
  (mk (frameCount p) currentTime (fps p) (frameTime p) (frameTimes p)
      (entityCount p) (particleCount p), warnings).

Definition updateEntityCounts (entities particles : Z) (p : t) : t :=
  mk (frameCount p) (lastTime p) (fps p) (frameTime p) (frameTimes p) entities particles.

Definition getFPS (p : t) : nat := fps p.
Definition getFrameTime (p : t) : Q := frameTime p.

Definition isPerformanceGood (p : t) : bool :=
  (30 <=? fps p)%nat && Qle_bool (getAverageFrameTime p) 33.

Definition reset (p : t) : t := new.

(** The calls a client makes on a monitor. *)
Inductive Call :=
  | CallUpdate (currentTime : Q)
  | CallUpdateEntityCounts (entities particles : Z)
  | CallReset.

Definition call (c : Call) (p : t) : t :=
  match c with
  | CallUpdate currentTime => (update currentTime p).1
  | CallUpdateEntityCounts entities particles => updateEntityCounts entities particles p
  | CallReset => reset p
  end.

Definition calls (cs : list Call) (p : t) : t := foldl (λ p c, call c p) p cs.

Definition isUpdateCall (c : Call) : bool :=
  match c with CallUpdate _ => true | _ => false end.

End PerformanceMonitor.

(** ** The keyboard hook ([useKeyboard]) *)

Module useKeyboard.

(** The four refs that hold sets of keys. *)
Record t := mk {
  keys : gset string;
  justPressed : gset string;
  justReleased : gset string;
  previousKeys : gset string
}.

Definition new : t := mk ∅ ∅ ∅ ∅.

(** [e.key === ' ' ? 'Space' : e.key]. *)
Definition normalize (eKey : string) : string :=
  if decide (eKey = " "%string) then "Space"%string else eKey.

(** The keys for which [handleKeyDown] prevents the browser's default. *)
Definition gameKeys : list string :=
  ["ArrowLeft"; "ArrowRight"; "Space"; " "; "Enter"; "Escape"; "p"; "P"]%string.

Definition validated (eKey : string) : bool :=
  GameLogic.validateInput (normalize eKey) || GameLogic.validateInput eKey.

(** Whether [handleKeyDown] calls [e.preventDefault()]. *)
Definition preventsDefault (eKey : string) : bool :=
  validated eKey &&
  (bool_decide (normalize eKey ∈ gameKeys) || bool_decide (eKey ∈ gameKeys)).

Definition handleKeyDown (eKey : string) (s : t) : t :=
  let key := normalize eKey in
  if negb (GameLogic.validateInput key) && negb (GameLogic.validateInput eKey) then s
  else
    let keys1 := keys s ∪ {[key]} in
    let keys2 := if decide (key ≠ eKey) then keys1 ∪ {[eKey]} else keys1 in
    mk keys2 (justPressed s) (justReleased s) (previousKeys s).

Definition handleKeyUp (eKey : string) (s : t) : t :=
  let key := normalize eKey in
  if negb (GameLogic.validateInput key) && negb (GameLogic.validateInput eKey) then s
  else mk (keys s ∖ {[key]} ∖ {[eKey]}) (justPressed s) (justReleased s) (previousKeys s).

Definition handleBlur (s : t) : t := mk ∅ ∅ ∅ ∅.

Definition handleVisibilityChange (hidden : bool) (s : t) : t :=
  if hidden then handleBlur s else s.

(** [updateKeyStates], once per animation frame. *)
Definition updateKeyStates (s : t) : t :=
  mk (keys s)
     (filter (λ key, key ∉ previousKeys s) (keys s))
     (filter (λ key, key ∉ keys s) (previousKeys s))
     (keys s).

(** [key === 'Space' ? ' ' : key]. *)
Definition alias (key : string) : string :=
  if decide (key = "Space"%string) then " "%string else key.

Definition isPressed (key : string) (s : t) : bool :=
  bool_decide (key ∈ keys s) || bool_decide (alias key ∈ keys s).

Definition wasJustPressed (key : string) (s : t) : bool :=
  bool_decide (key ∈ justPressed s) || bool_decide (alias key ∈ justPressed s).

Definition wasJustReleased (key : string) (s : t) : bool :=
  bool_decide (key ∈ justReleased s) || bool_decide (alias key ∈ justReleased s).

Definition reset (s : t) : t := mk ∅ ∅ ∅ ∅.

(** What reaches the hook: key events, focus events, animation frames. *)
Inductive Event :=
  | KeyDown (eKey : string)
  | KeyUp (eKey : string)
  | Blur
  | VisibilityChange (hidden : bool)
  | Frame
  | Reset.

Definition step (e : Event) (s : t) : t :=
  match e with
  | KeyDown eKey => handleKeyDown eKey s
  | KeyUp eKey => handleKeyUp eKey s
  | Blur => handleBlur s
  | VisibilityChange hidden => handleVisibilityChange hidden s
  | Frame => updateKeyStates s
  | Reset => reset s
  end.

Definition run (es : list Event) (s : t) : t := foldl (λ s e, step e s) s es.

(** Every key of the four sets is on the allow-list. *)
Definition onlyAllowed (s : t) : Prop :=
  ∀ key, key ∈ keys s ∪ justPressed s ∪ justReleased s ∪ previousKeys s →
         GameLogic.validateInput key = true.

End useKeyboard.

(** ** Decidable equality of the records *)

#[export] Instance Enemy_eq_dec : EqDecision Enemy.t.
Proof. solve_decision. Defined.

#[export] Instance Bullet_eq_dec : EqDecision Bullet.t.
Proof. solve_decision. Defined.

(** * Properties *)

(** ** Collision test *)

Section CollisionFacts.
Local Open Scope Z_scope.
Context {A B : Type} `{AsCollisionBox A, AsCollisionBox B}.

Lemma checkCollision_true (a : A) (b : B) :
  GameLogic.checkCollision a b = true ↔
    CollisionBox.x (collisionBox a) < CollisionBox.x (collisionBox b) + CollisionBox.width (collisionBox b) ∧
    CollisionBox.x (collisionBox a) + CollisionBox.width (collisionBox a) > CollisionBox.x (collisionBox b) ∧
    CollisionBox.y (collisionBox a) < CollisionBox.y (collisionBox b) + CollisionBox.height (collisionBox b) ∧
    CollisionBox.y (collisionBox a) + CollisionBox.height (collisionBox a) > CollisionBox.y (collisionBox b).
Proof.
  unfold GameLogic.checkCollision. cbv zeta.
  rewrite !andb_true_iff, !Z.ltb_lt, !Z.gtb_gt. tauto.
Qed.

End CollisionFacts.

Lemma checkCollision_sym {A B} `{AsCollisionBox A, AsCollisionBox B} (a : A) (b : B) :
  GameLogic.checkCollision a b = GameLogic.checkCollision b a.
Proof.
  apply eq_true_iff_eq. rewrite !checkCollision_true. lia.
Qed.

(** C7.  [checkCollision a b] holds exactly when the four strict
    inequalities [a.x < b.x + b.width], [a.x + a.width > b.x],
    [a.y < b.y + b.height], [a.y + a.height > b.y] hold; it is symmetric;
    rectangles that only share an edge do not collide, in particular
    {0,0,20,20} and {20,0,20,20}. *)
Theorem checkCollision_overlap_sym_edge :
  (∀ a b : CollisionBox.t,
     GameLogic.checkCollision a b = true ↔
       (CollisionBox.x a < CollisionBox.x b + CollisionBox.width b ∧
        CollisionBox.x a + CollisionBox.width a > CollisionBox.x b ∧
        CollisionBox.y a < CollisionBox.y b + CollisionBox.height b ∧
        CollisionBox.y a + CollisionBox.height a > CollisionBox.y b)%Z) ∧
  (∀ a b : CollisionBox.t,
     GameLogic.checkCollision a b = GameLogic.checkCollision b a) ∧
  (∀ a b : CollisionBox.t,
     (CollisionBox.x a + CollisionBox.width a = CollisionBox.x b ∨
      CollisionBox.x b + CollisionBox.width b = CollisionBox.x a ∨
      CollisionBox.y a + CollisionBox.height a = CollisionBox.y b ∨
      CollisionBox.y b + CollisionBox.height b = CollisionBox.y a)%Z →
     GameLogic.checkCollision a b = false) ∧
  GameLogic.checkCollision (CollisionBox.mk 0 0 20 20) (CollisionBox.mk 20 0 20 20) = false.
Proof.
  split; [|split; [|split]].
  - intros a b. exact (checkCollision_true a b).
  - intros a b. apply checkCollision_sym.
  - intros a b Hedge. apply not_true_is_false.
    rewrite (checkCollision_true a b). unfold collisionBox, box_box. lia.
  - reflexivity.
Qed.

(** ** Formation movement *)

Section FormationFacts.
Local Open Scope Z_scope.

(** The first pass computes a disjunction over the active enemies. *)
Lemma boundaryPass_foldl (enemies : list Enemy.t) (flag : bool) :
  foldl GameLogic.boundaryPass flag enemies =
    flag || existsb (λ e, Enemy.active e && GameLogic.crossesBoundary e) enemies.
Proof.
  revert flag. induction enemies as [|e enemies IH]; intros flag; simpl.
  - by rewrite orb_false_r.
  - rewrite IH. unfold GameLogic.boundaryPass.
    destruct (Enemy.active e), (GameLogic.crossesBoundary e), flag; reflexivity.
Qed.

Lemma crossesBoundary_true (e : Enemy.t) :
  GameLogic.crossesBoundary e = true ↔
    Enemy.x e + Enemy.speed e * Enemy.direction e <= 0 ∨
    Enemy.x e + Enemy.speed e * Enemy.direction e >= GAME_CONFIG.canvas.width - Enemy.width e.
Proof.
  unfold GameLogic.crossesBoundary, GameLogic.projectedX. cbv zeta.
  rewrite orb_true_iff, Z.leb_le, Z.geb_le. lia.
Qed.

Lemma shouldMoveDown_true (enemies : list Enemy.t) :
  (GameLogic.updateEnemyPositions enemies).1 = true ↔
    ∃ e, e ∈ enemies ∧ Enemy.active e = true ∧
         (Enemy.x e + Enemy.speed e * Enemy.direction e <= 0 ∨
          Enemy.x e + Enemy.speed e * Enemy.direction e >=
            GAME_CONFIG.canvas.width - Enemy.width e).
Proof.
  unfold GameLogic.updateEnemyPositions. cbn [fst].
  rewrite boundaryPass_foldl, orb_false_l, existsb_exists.
  split.
  - intros (e & Hin & Hc). apply andb_true_iff in Hc as [Ha Hc].
    exists e. rewrite list_elem_of_In. by rewrite <- crossesBoundary_true.
  - intros (e & Hin & Ha & Hc). exists e. rewrite <- list_elem_of_In.
    split; [done|]. apply andb_true_iff. by rewrite crossesBoundary_true.
Qed.

End FormationFacts.

(** C1.  [updateEnemyPositions] is a formation-wide flip-and-drop.  The flag
    it returns is raised exactly when some active enemy's projected x
    ([x + speed * direction]) is [<= 0] or [>= canvasWidth - width].  The
    returned list has the enemies in the same order, and at every index: an
    inactive enemy is returned unchanged; on a raised flag an active enemy has
    its direction negated and its y increased by the drop distance, x and all
    else unchanged; otherwise an active enemy's x grows by exactly
    [speed * direction], all else unchanged. *)
Theorem updateEnemyPositions_flip_and_drop (enemies : list Enemy.t) :
  let shouldMoveDown := (GameLogic.updateEnemyPositions enemies).1 in
  let updated := (GameLogic.updateEnemyPositions enemies).2 in
  (shouldMoveDown = true ↔
     ∃ e, e ∈ enemies ∧ Enemy.active e = true ∧
          (Enemy.x e + Enemy.speed e * Enemy.direction e <= 0 ∨
           Enemy.x e + Enemy.speed e * Enemy.direction e >=
             GAME_CONFIG.canvas.width - Enemy.width e)%Z) ∧
  length updated = length enemies ∧
  ∀ (i : nat) (e : Enemy.t), enemies !! i = Some e →
    ∃ e', updated !! i = Some e' ∧
      (Enemy.active e = false → e' = e) ∧
      (Enemy.active e = true → shouldMoveDown = true →
         e' = Enemy.mk (Enemy.x e) (Enemy.y e + GAME_CONFIG.enemies.dropDistance)
                       (Enemy.width e) (Enemy.height e) (Enemy.speed e) true
                       (- Enemy.direction e)
                       (Enemy.animFrame e) (Enemy.row e) (Enemy.col e)) ∧
      (Enemy.active e = true → shouldMoveDown = false →
         e' = Enemy.mk (Enemy.x e + Enemy.speed e * Enemy.direction e) (Enemy.y e)
                       (Enemy.width e) (Enemy.height e) (Enemy.speed e) true
                       (Enemy.direction e)
                       (Enemy.animFrame e) (Enemy.row e) (Enemy.col e)).
Proof.
  intros shouldMoveDown updated. split; [apply shouldMoveDown_true|].
  assert (updated = map (GameLogic.moveEnemy shouldMoveDown) enemies) as ->
    by reflexivity.
  split; [apply length_map|].
  intros i e Hi. exists (GameLogic.moveEnemy shouldMoveDown e). split.
  { by rewrite list_lookup_fmap, Hi. }
  unfold GameLogic.moveEnemy.
  repeat split.
  - by intros ->.
  - intros Ha Hs. rewrite Ha, Hs. cbn [negb]. f_equal. lia.
  - intros Ha Hs. rewrite Ha, Hs. cbn [negb]. by f_equal.
Qed.

(** The formation of the first level steps right by one pixel (no enemy is at
    a boundary), and an enemy placed at the right boundary makes an inactive
    neighbour stay and an active neighbour drop. *)
Lemma updateEnemyPositions_flip_and_drop_witness :
  (GameLogic.updateEnemyPositions GameLogic.createEnemyGrid).1 = false ∧
  (∃ e', (GameLogic.updateEnemyPositions GameLogic.createEnemyGrid).2 !! 0%nat = Some e' ∧
         Enemy.x e' = 51%Z) ∧
  (GameLogic.updateEnemyPositions
     [Enemy.mk 760 50 40 30 1 true 1 0 0 0; Enemy.mk 10 50 40 30 1 false 1 0 0 1;
      Enemy.mk 100 50 40 30 1 true 1 0 0 2]).1 = true.
Proof.
  split; [reflexivity|]. split.
  - destruct (updateEnemyPositions_flip_and_drop GameLogic.createEnemyGrid)
      as (_ & _ & Hall).
    destruct (Hall 0%nat (GameLogic.gridEnemy 0 0) eq_refl) as (e' & He' & _ & _ & Hstep).
    exists e'. split; [exact He'|]. rewrite (Hstep eq_refl eq_refl). reflexivity.
  - apply (updateEnemyPositions_flip_and_drop
             [Enemy.mk 760 50 40 30 1 true 1 0 0 0; Enemy.mk 10 50 40 30 1 false 1 0 0 1;
              Enemy.mk 100 50 40 30 1 true 1 0 0 2]).
    exists (Enemy.mk 760 50 40 30 1 true 1 0 0 0).
    split; [apply list_elem_of_here|]. split; [reflexivity|]. right.
    unfold GAME_CONFIG.canvas.width. cbn. lia.
Defined.

(** ** Bullet-enemy collision pass *)

Section CollisionPassFacts.
Local Open Scope Z_scope.
Import GameLogic.

Lemma report_nil (acc : CollisionResult) : report acc [] = acc.
Proof.
  destruct acc as [hb he sc]. unfold report. cbn.
  rewrite !app_nil_r. f_equal. lia.
Qed.

Lemma report_app (acc : CollisionResult) (ps qs : list (nat * nat)) :
  report (report acc ps) qs = report acc (ps ++ qs).
Proof.
  unfold report. cbn. rewrite !fmap_app, !app_assoc, length_app. f_equal. lia.
Qed.

(** The pairs of one bullet, with the enemy indices shifted by [j]. *)
Lemma hitsOf_shift_cons (b : Bullet.t) (i j : nat) (e : Enemy.t) (es : list Enemy.t) :
  omap (λ '(k, enemy), if hits b enemy then Some (i, k) else None)
       (imap (λ k enemy, (j + k, enemy)%nat) (e :: es)) =
  (if hits b e then [(i, j)] else []) ++
  omap (λ '(k, enemy), if hits b enemy then Some (i, k) else None)
       (imap (λ k enemy, (S j + k, enemy)%nat) es).
Proof.
  rewrite imap_cons. cbn [omap list_omap]. rewrite Nat.add_0_r.
  rewrite (imap_ext _ (λ k enemy, (S j + k, enemy)%nat)).
  - by destruct (hits b e).
  - intros k x _. cbn. f_equal; lia.
Qed.

Lemma enemyPass_forEachFrom (b : Bullet.t) (i : nat) (es : list Enemy.t) :
  Bullet.active b = true →
  ∀ (j : nat) (acc : CollisionResult),
    forEachFrom (enemyPass b i) j es acc =
    report acc (omap (λ '(k, enemy), if hits b enemy then Some (i, k) else None)
                     (imap (λ k enemy, (j + k, enemy)%nat) es)).
Proof.
  intros Hb. induction es as [|e es IH]; intros j acc.
  - cbn. by rewrite report_nil.
  - rewrite hitsOf_shift_cons, <- report_app, <- IH. cbn [forEachFrom].
    f_equal. unfold enemyPass, hits. rewrite Hb. cbn [andb].
    destruct (Enemy.active e); cbn [negb andb]; [|by rewrite report_nil].
    destruct (checkCollision b e); [|by rewrite report_nil].
    unfold report. cbn. f_equal; lia.
Qed.

Lemma hitsOf_inactive (b : Bullet.t) (i : nat) (es : list Enemy.t) :
  Bullet.active b = false → hitsOf b i es = [].
Proof.
  intros Hb. unfold hitsOf. generalize (imap (λ j enemy, (j, enemy)) es).
  intros l. induction l as [|[k e] l IH]; [done|].
  cbn [omap list_omap]. unfold hits at 1. by rewrite Hb.
Qed.

Lemma bulletPass_report (es : list Enemy.t) (acc : CollisionResult) (b : Bullet.t) (i : nat) :
  bulletPass es acc b i = report acc (hitsOf b i es).
Proof.
  unfold bulletPass. destruct (Bullet.active b) eqn:Hb; cbn [negb].
  - unfold forEach. by rewrite enemyPass_forEachFrom.
  - by rewrite hitsOf_inactive, report_nil.
Qed.

Lemma bulletPass_forEachFrom (es : list Enemy.t) (bs : list Bullet.t) :
  ∀ (i : nat) (acc : CollisionResult),
    forEachFrom (bulletPass es) i bs acc =
    report acc (mjoin (imap (λ k b, hitsOf b (i + k) es) bs)).
Proof.
  induction bs as [|b bs IH]; intros i acc.
  - cbn. by rewrite report_nil.
  - cbn [forEachFrom]. rewrite IH, bulletPass_report, report_app.
    rewrite imap_cons. cbn [mjoin list_join]. rewrite Nat.add_0_r.
    do 3 f_equal. apply imap_ext. intros k x _. cbn. f_equal; lia.
Qed.

(** The pass reports exactly the colliding pairs. *)
Lemma checkBulletEnemyCollisions_report (bs : list Bullet.t) (es : list Enemy.t) :
  checkBulletEnemyCollisions bs es = report (mkResult [] [] 0) (collidingPairs bs es).
Proof.
  unfold checkBulletEnemyCollisions, forEach. by rewrite bulletPass_forEachFrom.
Qed.

(** Membership in the pairs of one bullet (enemy indices shifted by [j]). *)
Lemma hitsOf_shift_elem (b : Bullet.t) (i j : nat) (es : list Enemy.t) (p : nat * nat) :
  p ∈ omap (λ '(k, enemy), if hits b enemy then Some (i, k) else None)
           (imap (λ k enemy, (j + k, enemy)%nat) es) ↔
  ∃ k e, p = (i, (j + k)%nat) ∧ es !! k = Some e ∧ hits b e = true.
Proof.
  rewrite list_elem_of_omap. split.
  - intros ([k' e] & Hin & Hsel).
    apply elem_of_lookup_imap in Hin as (k & e0 & Heq & Hk).
    injection Heq as -> ->. destruct (hits b e0) eqn:Hh; [|done].
    injection Hsel as <-. by exists k, e0.
  - intros (k & e & -> & Hk & Hh). exists ((j + k)%nat, e). split.
    + apply elem_of_lookup_imap. by exists k, e.
    + by rewrite Hh.
Qed.

Lemma hitsOf_elem (b : Bullet.t) (i : nat) (es : list Enemy.t) (p : nat * nat) :
  p ∈ hitsOf b i es ↔ ∃ j e, p = (i, j) ∧ es !! j = Some e ∧ hits b e = true.
Proof. exact (hitsOf_shift_elem b i 0 es p). Qed.

Lemma hitsOf_shift_NoDup (b : Bullet.t) (i : nat) (es : list Enemy.t) :
  ∀ j, NoDup (omap (λ '(k, enemy), if hits b enemy then Some (i, k) else None)
                   (imap (λ k enemy, (j + k, enemy)%nat) es)).
Proof.
  induction es as [|e es IH]; intros j; [by apply NoDup_nil|].
  rewrite hitsOf_shift_cons. apply NoDup_app. split; [|split; [|apply IH]].
  - destruct (hits b e); [apply NoDup_singleton|by apply NoDup_nil].
  - intros p Hp Hin. apply hitsOf_shift_elem in Hin as (k & e' & -> & _ & _).
    destruct (hits b e); [|by apply not_elem_of_nil in Hp].
    apply list_elem_of_singleton in Hp. injection Hp as Hp. lia.
Qed.

Lemma hitsOf_NoDup (b : Bullet.t) (i : nat) (es : list Enemy.t) : NoDup (hitsOf b i es).
Proof. exact (hitsOf_shift_NoDup b i es 0). Qed.

Lemma hitsOf_length (b : Bullet.t) (i : nat) (es : list Enemy.t) :
  length (hitsOf b i es) = length (filter (λ e, hits b e = true) es).
Proof.
  enough (Hgen : ∀ f : nat → nat,
            length (omap (λ '(j, enemy), if hits b enemy then Some (i, j) else None)
                         (imap (λ j enemy, (f j, enemy)) es)) =
            length (filter (λ e, hits b e = true) es))
    by exact (Hgen (λ j, j)).
  induction es as [|e es IH]; intros f; [done|].
  rewrite imap_cons, filter_cons. cbn [omap list_omap].
  specialize (IH (f ∘ S)). unfold compose in *.
  destruct (hits b e); case_decide; try done; cbn; by rewrite IH.
Qed.

(** Membership in, and absence of duplicates from, the pairs of all bullets
    (bullet indices shifted by [o]). *)
Lemma pairs_shift_elem (es : list Enemy.t) (bs : list Bullet.t) (o : nat) (p : nat * nat) :
  p ∈ mjoin (imap (λ k b, hitsOf b (o + k) es) bs) ↔
  ∃ k b j e, p = ((o + k)%nat, j) ∧ bs !! k = Some b ∧ es !! j = Some e ∧ hits b e = true.
Proof.
  rewrite list_elem_of_join. split.
  - intros (l & Hp & Hl). apply elem_of_lookup_imap in Hl as (k & b & -> & Hk).
    apply hitsOf_elem in Hp as (j & e & -> & Hj & Hh). by exists k, b, j, e.
  - intros (k & b & j & e & -> & Hk & Hj & Hh). exists (hitsOf b (o + k) es). split.
    + apply hitsOf_elem. by exists j, e.
    + apply elem_of_lookup_imap. by exists k, b.
Qed.

Lemma pairs_shift_cons (es : list Enemy.t) (b : Bullet.t) (bs : list Bullet.t) (o : nat) :
  mjoin (imap (λ k b, hitsOf b (o + k) es) (b :: bs)) =
  hitsOf b o es ++ mjoin (imap (λ k b, hitsOf b (S o + k) es) bs).
Proof.
  rewrite imap_cons. cbn [mjoin list_join]. rewrite Nat.add_0_r.
  do 2 f_equal. apply imap_ext. intros k x _. cbn. f_equal; lia.
Qed.

Lemma pairs_shift_NoDup (es : list Enemy.t) (bs : list Bullet.t) :
  ∀ o, NoDup (mjoin (imap (λ k b, hitsOf b (o + k) es) bs)).
Proof.
  induction bs as [|b bs IH]; intros o; [by apply NoDup_nil|].
  rewrite pairs_shift_cons. apply NoDup_app.
  split; [apply hitsOf_NoDup|split; [|apply IH]].
  intros p Hp Hin. apply hitsOf_elem in Hp as (j & e & -> & _ & _).
  apply pairs_shift_elem in Hin as (k & b' & j' & e' & Heq & _). injection Heq. lia.
Qed.

(** The pairs whose bullet index is [o + i] are the pairs of bullet [i]. *)
Lemma pairs_shift_of_bullet (es : list Enemy.t) (bs : list Bullet.t) :
  ∀ (o i : nat) (b : Bullet.t), bs !! i = Some b →
    filter (λ p, p.1 = (o + i)%nat) (mjoin (imap (λ k b, hitsOf b (o + k) es) bs)) =
    hitsOf b (o + i) es.
Proof.
  assert (Hall : ∀ (P : nat * nat → Prop) `{∀ p, Decision (P p)} (l : list (nat * nat)),
             (∀ p, p ∈ l → P p) → filter P l = l).
  { intros P ? l. induction l as [|p l IH]; intros Hl; [done|].
    rewrite filter_cons_True by (apply Hl; left).
    f_equal. apply IH. intros q Hq. apply Hl. by right. }
  assert (Hnone : ∀ (P : nat * nat → Prop) `{∀ p, Decision (P p)} (l : list (nat * nat)),
             (∀ p, p ∈ l → ¬ P p) → filter P l = []).
  { intros P ? l. induction l as [|p l IH]; intros Hl; [done|].
    rewrite filter_cons_False by (apply Hl; left).
    apply IH. intros q Hq. apply Hl. by right. }
  induction bs as [|b0 bs IH]; intros o i b Hi; [done|].
  rewrite pairs_shift_cons, filter_app. destruct i as [|i]; cbn in Hi.
  - injection Hi as ->. rewrite Nat.add_0_r.
    rewrite Hall, Hnone; [by rewrite app_nil_r| |].
    + intros p Hin. apply pairs_shift_elem in Hin as (k & ? & ? & ? & -> & _). cbn. lia.
    + intros p Hin. by apply hitsOf_elem in Hin as (? & ? & -> & _).
  - rewrite Hnone.
    + replace (o + S i)%nat with (S o + i)%nat by lia. by apply IH.
    + intros p Hin. apply hitsOf_elem in Hin as (? & ? & -> & _). cbn. lia.
Qed.

Lemma collidingPairs_elem (bs : list Bullet.t) (es : list Enemy.t) (i j : nat) :
  (i, j) ∈ collidingPairs bs es ↔
  ∃ b e, bs !! i = Some b ∧ es !! j = Some e ∧ hits b e = true.
Proof.
  unfold collidingPairs. rewrite (pairs_shift_elem es bs 0). split.
  - intros (k & b & j' & e & Heq & ?). injection Heq as -> ->. by exists b, e.
  - intros (b & e & ?). by exists i, b, j, e.
Qed.

Lemma collidingPairs_NoDup (bs : list Bullet.t) (es : list Enemy.t) :
  NoDup (collidingPairs bs es).
Proof. exact (pairs_shift_NoDup es bs 0). Qed.

Lemma collidingPairs_of_bullet (bs : list Bullet.t) (es : list Enemy.t)
    (i : nat) (b : Bullet.t) :
  bs !! i = Some b → filter (λ p, p.1 = i) (collidingPairs bs es) = hitsOf b i es.
Proof. exact (pairs_shift_of_bullet es bs 0 i b). Qed.

Lemma filter_fst_length (ps : list (nat * nat)) (i : nat) :
  length (filter (λ k, k = i) (ps.*1)) = length (filter (λ p, p.1 = i) ps).
Proof.
  induction ps as [|p ps IH]; [done|].
  rewrite fmap_cons, !filter_cons. repeat case_decide; cbn; congruence.
Qed.

End CollisionPassFacts.

(** C10.  [checkBulletEnemyCollisions] reports one entry for every pair of an
    active bullet and an active enemy that collide, and nothing else: the two
    index lists, read side by side, list exactly those pairs, each once; the
    score is [pointsPerEnemy] times their number.  In particular the index of
    an active bullet occurs in [hitBullets] as many times as there are active
    enemies overlapping it, an inactive bullet's index does not occur, and an
    inactive enemy's index does not occur in [hitEnemies]. *)
Theorem checkBulletEnemyCollisions_one_entry_per_pair
    (bullets : list Bullet.t) (enemies : list Enemy.t) :
  let r := GameLogic.checkBulletEnemyCollisions bullets enemies in
  let pairs := zip (GameLogic.hitBullets r) (GameLogic.hitEnemies r) in
  length (GameLogic.hitBullets r) = length pairs ∧
  length (GameLogic.hitEnemies r) = length pairs ∧
  GameLogic.score r = (GAME_CONFIG.game.pointsPerEnemy * Z.of_nat (length pairs))%Z ∧
  pairs = GameLogic.collidingPairs bullets enemies ∧
  NoDup pairs ∧
  (∀ i j : nat,
     (i, j) ∈ pairs ↔
     ∃ b e, bullets !! i = Some b ∧ enemies !! j = Some e ∧
            Bullet.active b = true ∧ Enemy.active e = true ∧
            GameLogic.checkCollision b e = true) ∧
  (∀ (i : nat) (b : Bullet.t), bullets !! i = Some b →
     length (filter (λ k, k = i) (GameLogic.hitBullets r)) =
       if Bullet.active b
       then length (filter (λ e, Enemy.active e = true ∧
                                 GameLogic.checkCollision b e = true) enemies)
       else 0%nat) ∧
  (∀ (j : nat) (e : Enemy.t), enemies !! j = Some e →
     Enemy.active e = false → j ∉ GameLogic.hitEnemies r).
Proof.
  intros r pairs.
  assert (Hr : r = GameLogic.report (GameLogic.mkResult [] [] 0)
                                    (GameLogic.collidingPairs bullets enemies))
    by apply checkBulletEnemyCollisions_report.
  assert (Hb : GameLogic.hitBullets r = (GameLogic.collidingPairs bullets enemies).*1)
    by (by rewrite Hr).
  assert (He : GameLogic.hitEnemies r = (GameLogic.collidingPairs bullets enemies).*2)
    by (by rewrite Hr).
  assert (Hp : pairs = GameLogic.collidingPairs bullets enemies).
  { unfold pairs. rewrite Hb, He. apply zip_fst_snd. }
  rewrite Hp. repeat split.
  - by rewrite Hb, length_fmap.
  - by rewrite He, length_fmap.
  - rewrite Hr. cbn. lia.
  - apply collidingPairs_NoDup.
  - intros (b & e & ? & ? & Hh)%collidingPairs_elem.
    unfold GameLogic.hits in Hh. apply andb_true_iff in Hh as [Hh ?].
    apply andb_true_iff in Hh as [? ?]. by exists b, e.
  - intros (b & e & ? & ? & Hab & Hae & Hc). apply collidingPairs_elem.
    exists b, e. unfold GameLogic.hits. by rewrite Hab, Hae, Hc.
  - intros i b Hi. rewrite Hb, filter_fst_length.
    rewrite (collidingPairs_of_bullet _ _ _ _ Hi).
    destruct (Bullet.active b) eqn:Hact.
    + rewrite hitsOf_length. f_equal. apply list_filter_iff. intros e.
      unfold GameLogic.hits. rewrite Hact, andb_true_l, andb_true_iff. tauto.
    + by rewrite hitsOf_inactive.
  - intros j e Hj Hact Hin. rewrite He in Hin.
    apply list_elem_of_fmap in Hin as ([i j'] & Heq & Hin). cbn in Heq. subst j'.
    apply collidingPairs_elem in Hin as (b & e' & _ & Hj' & Hh).
    assert (e' = e) as -> by congruence.
    unfold GameLogic.hits in Hh. rewrite Hact, andb_false_r in Hh. done.
Qed.

(** One active bullet over three enemies, of which it overlaps the first and
    the third (the second overlapping enemy is inactive): two entries with the
    bullet's index and twice the points. *)
Lemma checkBulletEnemyCollisions_one_entry_per_pair_witness :
  let bullets := [Bullet.mk 10 10 4 10 7 true; Bullet.mk 10 10 4 10 7 false] in
  let enemies := [Enemy.mk 0 0 40 30 1 true 1 0 0 0; Enemy.mk 5 5 40 30 1 false 1 0 0 1;
                  Enemy.mk 12 15 40 30 1 true 1 0 0 2] in
  bullets !! 0%nat = Some (Bullet.mk 10 10 4 10 7 true) ∧
  length (filter (λ k, k = 0%nat)
                 (GameLogic.hitBullets (GameLogic.checkBulletEnemyCollisions bullets enemies))) =
    2%nat ∧
  GameLogic.score (GameLogic.checkBulletEnemyCollisions bullets enemies) = 20%Z.
Proof.
  intros bullets enemies. split; [reflexivity|].
  destruct (checkBulletEnemyCollisions_one_entry_per_pair bullets enemies)
    as (_ & _ & Hscore & _ & _ & _ & Hcount & _).
  split.
  - rewrite (Hcount 0%nat (Bullet.mk 10 10 4 10 7 true) eq_refl). reflexivity.
  - rewrite Hscore. reflexivity.
Defined.

(** ** Object pool *)

Section PoolFacts.
Context {T : Type} `{Poolable T}.
Import ObjectPool.

Implicit Types (p q : ObjectPool.t T) (obj : ref).
Local Arguments Nat.ltb : simpl never.

(** The instances a pool tracks, free ones first. *)
Local Abbreviation tracked p := (pool p ++ active p).

(** The capacity invariant. *)
Local Abbreviation within p := (length (pool p) + length (active p) ≤ maxSize p).

Lemma last_Some_snoc {X} (l : list X) (a : X) :
  last l = Some a → l = removelast l ++ [a].
Proof.
  induction l as [|b l _] using rev_ind; [done|].
  rewrite last_snoc, removelast_last. by intros [= ->].
Qed.

Lemma indexOf_None obj (l : list ref) : indexOf obj l = None ↔ obj ∉ l.
Proof.
  induction l as [|o l IHl]; cbn.
  - split; [intros _; apply not_elem_of_nil|done].
  - rewrite not_elem_of_cons. case_decide as Ho.
    + split; [done|]. intros [Hne _]. by destruct Hne.
    + rewrite <- IHl. destruct (indexOf obj l); cbn; split; try done.
      by intros [_ ?].
Qed.

Lemma indexOf_Some obj (l : list ref) (i : nat) :
  indexOf obj l = Some i → l !! i = Some obj.
Proof.
  revert i. induction l as [|o l IH]; intros i; cbn; [done|].
  case_decide as Ho.
  - by intros [= <-]; subst.
  - destruct (indexOf obj l) as [k|]; cbn; [|done].
    intros [= <-]. by apply IH.
Qed.

(** *** The constructor *)

Lemma new_shape (c : T) (n m : nat) :
  pool (new c n m) = seq 0 n ∧ active (new c n m) = [] ∧
  maxSize (new c n m) = m ∧ createFn (new c n m) = c ∧ store (new c n m) = replicate n c.
Proof.
  unfold new. induction n as [|n IH]; [done|].
  rewrite Nat.iter_succ. destruct (Nat.iter n _ _) as [pl ac cf ms st].
  cbn in IH. destruct IH as (-> & -> & -> & -> & ->).
  unfold create, pushPool, withPool, withStore.
  cbn [pool active createFn maxSize store].
  rewrite length_replicate.
  repeat split; [by rewrite seq_S|].
  by rewrite <- replicate_cons_app.
Qed.

(** *** [get] *)

Lemma get_from_free p o :
  last (pool p) = Some o →
  get p = (Some o, mk (removelast (pool p)) (active p ++ [o])
                      (createFn p) (maxSize p) (store p)).
Proof. intros Hl. unfold get. by rewrite Hl. Qed.

Lemma get_fresh p :
  pool p = [] → length (active p) < maxSize p →
  get p = (Some (length (store p)),
           mk [] (active p ++ [length (store p)]) (createFn p) (maxSize p)
              (store p ++ [createFn p])).
Proof.
  intros Hp Hlt. unfold get. rewrite Hp. cbn.
  destruct (Nat.ltb_spec (length (active p) + 0) (maxSize p)); [done|lia].
Qed.

Lemma get_exhausted p :
  pool p = [] → maxSize p ≤ length (active p) →
  get p = (None, mk [] (active p) (createFn p) (maxSize p) (store p)).
Proof.
  intros Hp Hge. unfold get. rewrite Hp. cbn.
  destruct (Nat.ltb_spec (length (active p) + 0) (maxSize p)); [lia|done].
Qed.

Lemma get_None p :
  (get p).1 = None ↔ pool p = [] ∧ maxSize p ≤ length (active p) + length (pool p).
Proof.
  destruct (last (pool p)) as [o|] eqn:Hl.
  - rewrite (get_from_free p o Hl). cbn. split; [done|].
    intros [Hp _]. by rewrite Hp in Hl.
  - apply last_None in Hl. rewrite Hl, Nat.add_0_r.
    destruct (Nat.lt_ge_cases (length (active p)) (maxSize p)) as [Hlt|Hge].
    + rewrite (get_fresh p Hl Hlt). cbn. split; [done|lia].
    + by rewrite (get_exhausted p Hl Hge).
Qed.

Lemma get_maxSize p : maxSize (get p).2 = maxSize p.
Proof.
  destruct (last (pool p)) as [o|] eqn:Hl.
  - by rewrite (get_from_free p o Hl).
  - apply last_None in Hl.
    destruct (Nat.lt_ge_cases (length (active p)) (maxSize p)) as [Hlt|Hge].
    + by rewrite (get_fresh p Hl Hlt).
    + by rewrite (get_exhausted p Hl Hge).
Qed.

Lemma get_within p : within p → within (get p).2.
Proof.
  intros Hw. destruct (last (pool p)) as [o|] eqn:Hl.
  - rewrite (get_from_free p o Hl). cbn.
    rewrite (last_Some_snoc _ _ Hl), !length_app in Hw. rewrite length_app. cbn in *. lia.
  - apply last_None in Hl.
    destruct (Nat.lt_ge_cases (length (active p)) (maxSize p)) as [Hlt|Hge].
    + rewrite (get_fresh p Hl Hlt). cbn. rewrite length_app. cbn. lia.
    + rewrite (get_exhausted p Hl Hge). cbn. rewrite Hl in Hw. cbn in Hw. lia.
Qed.

(** From an empty free list, [n] calls of [get] that fit under the capacity all
    succeed and leave the free list empty. *)
Lemma getMany_fresh (n : nat) p :
  pool p = [] → length (active p) + n ≤ maxSize p →
  Forall is_Some (getMany n p).1 ∧ length (getMany n p).1 = n ∧
  pool (getMany n p).2 = [] ∧
  length (active (getMany n p).2) = length (active p) + n ∧
  maxSize (getMany n p).2 = maxSize p.
Proof.
  revert p. induction n as [|n IH]; intros p Hp Hle.
  - cbn. rewrite Nat.add_0_r. by repeat split.
  - cbn [getMany]. rewrite (get_fresh p Hp) by lia.
    match goal with |- context [getMany n ?q] => specialize (IH q) end.
    destruct (getMany n _) as [rs q] eqn:Hq. cbn in *.
    rewrite length_app in IH. cbn in IH.
    destruct IH as (Hall & Hlen & Hpool & Hact & Hmax); [done|lia|].
    repeat split; [by constructor|lia|done|lia|done].
Qed.

(** *** [release], [releaseAll], [update]: instances only move *)

Lemma reclaim_moves p (i : nat) obj :
  active p !! i = Some obj →
  tracked (reclaim i obj p) ≡ₚ tracked p ∧
  length (store (reclaim i obj p)) = length (store p) ∧
  maxSize (reclaim i obj p) = maxSize p.
Proof.
  intros Hi. unfold reclaim, pushPool, mutate, withActive, withPool, withStore. cbn.
  rewrite length_alter. repeat split.
  rewrite (delete_Permutation (active p) i obj Hi) at 2.
  rewrite <- app_assoc. cbn. done.
Qed.

Lemma release_moves p obj :
  tracked (release obj p) ≡ₚ tracked p ∧
  length (store (release obj p)) = length (store p) ∧
  maxSize (release obj p) = maxSize p.
Proof.
  unfold release. destruct (indexOf obj (active p)) as [i|] eqn:Hi; [|done].
  by apply reclaim_moves, indexOf_Some.
Qed.

Lemma releaseAll_shape p :
  pool (releaseAll p) = pool p ++ active p ∧ active (releaseAll p) = [] ∧
  length (store (releaseAll p)) = length (store p) ∧
  maxSize (releaseAll p) = maxSize p.
Proof.
  unfold releaseAll.
  enough (Hgen : ∀ (l : list ref) q,
            let q' := foldl (λ p obj, pushPool obj (mutate obj reset p)) q l in
            pool q' = pool q ++ l ∧ length (store q') = length (store q) ∧
            maxSize q' = maxSize q).
  { destruct (Hgen (active p) p) as (? & ? & ?). by repeat split. }
  induction l as [|o l IH]; intros q; cbn.
  - by rewrite app_nil_r.
  - destruct (IH (pushPool o (mutate o reset q))) as (Hp & Hs & Hm).
    rewrite Hp, Hs, Hm. cbn. rewrite length_alter, <- app_assoc. done.
Qed.

Lemma releaseAll_moves p :
  tracked (releaseAll p) ≡ₚ tracked p ∧
  length (store (releaseAll p)) = length (store p) ∧
  maxSize (releaseAll p) = maxSize p.
Proof.
  destruct (releaseAll_shape p) as (Hp & Ha & Hs & Hm).
  by rewrite Hp, Ha, app_nil_r.
Qed.

Lemma updateFrom_moves (n : nat) p :
  tracked (updateFrom n p) ≡ₚ tracked p ∧
  length (store (updateFrom n p)) = length (store p) ∧
  maxSize (updateFrom n p) = maxSize p.
Proof.
  revert p. induction n as [|i IH]; intros p; [done|].
  cbn [updateFrom]. destruct (active p !! i) as [obj|] eqn:Hi; [|apply IH].
  destruct (negb (objIsActive p obj)); [|apply IH].
  destruct (reclaim_moves p i obj Hi) as (Ht & Hs & Hm).
  destruct (IH (reclaim i obj p)) as (Ht' & Hs' & Hm').
  by rewrite Ht', Hs', Hm'.
Qed.

Lemma update_moves p :
  tracked (update p) ≡ₚ tracked p ∧
  length (store (update p)) = length (store p) ∧
  maxSize (update p) = maxSize p.
Proof. apply updateFrom_moves. Qed.

(** A call of [get] takes a free instance or adds one new instance. *)
Lemma get_tracked p :
  tracked (get p).2 ≡ₚ tracked p ∧ length (store (get p).2) = length (store p) ∨
  tracked (get p).2 = tracked p ++ [length (store p)] ∧
    length (store (get p).2) = S (length (store p)).
Proof.
  destruct (last (pool p)) as [o|] eqn:Hl.
  - left. rewrite (get_from_free p o Hl). cbn. split; [|done].
    rewrite (last_Some_snoc _ _ Hl) at 2.
    rewrite <- !app_assoc. apply Permutation_app_head, Permutation_app_comm.
  - apply last_None in Hl.
    destruct (Nat.lt_ge_cases (length (active p)) (maxSize p)) as [Hlt|Hge].
    + right. rewrite (get_fresh p Hl Hlt). cbn. by rewrite Hl, length_app, Nat.add_1_r.
    + left. rewrite (get_exhausted p Hl Hge). cbn. by rewrite Hl.
Qed.

(** *** Invariants under every call *)

Lemma call_maxSize (c : Call) p : maxSize (call c p) = maxSize p.
Proof.
  destruct c; cbn [call].
  - apply get_maxSize.
  - apply release_moves.
  - apply releaseAll_moves.
  - apply update_moves.
  - done.
Qed.

Lemma moves_within p q :
  tracked q ≡ₚ tracked p → maxSize q = maxSize p → within p → within q.
Proof.
  intros Ht Hm Hw. apply Permutation_length in Ht.
  rewrite !length_app in Ht. lia.
Qed.

Lemma call_within (c : Call) p : within p → within (call c p).
Proof.
  intros Hw. destruct c; cbn [call].
  - by apply get_within.
  - by apply (moves_within p); [apply release_moves..|].
  - by apply (moves_within p); [apply releaseAll_moves..|].
  - by apply (moves_within p); [apply update_moves..|].
  - done.
Qed.

Lemma moves_wellFormed p q :
  tracked q ≡ₚ tracked p → length (store q) = length (store p) →
  wellFormed p → wellFormed q.
Proof.
  intros Ht Hs [Hnd Hb]. split.
  - by rewrite Ht.
  - intros obj Hin. rewrite Hs. apply Hb. by rewrite <- Ht.
Qed.

Lemma call_wellFormed (c : Call) p : wellFormed p → wellFormed (call c p).
Proof.
  intros Hwf. destruct c; cbn [call].
  - destruct (get_tracked p) as [[Ht Hs]|[Ht Hs]].
    + by apply (moves_wellFormed p).
    + destruct Hwf as [Hnd Hb]. split.
      * rewrite Ht. apply NoDup_app. split; [done|]. split; [|apply NoDup_singleton].
        intros obj Hin ->%list_elem_of_singleton. apply Hb in Hin. lia.
      * intros obj. rewrite Ht, Hs, elem_of_app, list_elem_of_singleton.
        intros [Hin| ->]; [apply Hb in Hin|]; lia.
  - by apply (moves_wellFormed p); [apply release_moves..|].
  - by apply (moves_wellFormed p); [apply releaseAll_moves..|].
  - by apply (moves_wellFormed p); [apply update_moves..|].
  - destruct Hwf as [Hnd Hb]. split; [done|]. cbn. by rewrite length_alter.
Qed.

Lemma new_wellFormed (c : T) (n m : nat) : wellFormed (new c n m).
Proof.
  destruct (new_shape c n m) as (Hp & Ha & _ & _ & Hs). split.
  - rewrite Hp, Ha, app_nil_r. apply NoDup_seq.
  - intros obj. rewrite Hp, Ha, Hs, app_nil_r, length_replicate, elem_of_seq. lia.
Qed.

Lemma calls_snoc (cs : list Call) (c : Call) p :
  calls (cs ++ [c]) p = call c (calls cs p).
Proof. unfold calls. by rewrite foldl_app. Qed.

Lemma calls_wellFormed (cs : list Call) (c : T) (n m : nat) :
  wellFormed (calls cs (new c n m)).
Proof.
  induction cs as [|c' cs IH] using rev_ind; [apply new_wellFormed|].
  rewrite calls_snoc. by apply call_wellFormed.
Qed.

(** *** Releasing twice *)

Lemma release_untracked p obj : obj ∉ active p → release obj p = p.
Proof. intros Hn. unfold release. by apply indexOf_None in Hn as ->. Qed.

Lemma release_twice p obj :
  NoDup (active p) → release obj (release obj p) = release obj p.
Proof.
  intros Hnd. unfold release at 2 3.
  destruct (indexOf obj (active p)) as [i|] eqn:Hi.
  - apply release_untracked. apply indexOf_Some in Hi.
    unfold reclaim, pushPool, mutate, withActive, withPool, withStore. cbn.
    rewrite (delete_Permutation _ _ _ Hi) in Hnd. by apply NoDup_cons in Hnd as [? _].
  - apply release_untracked. by apply indexOf_None.
Qed.

End PoolFacts.

(** C5.  From a pool constructed with no free instance and capacity [N], the
    first [N] calls of [get] each return an instance and the next call returns
    null.  In every pool state, [get] returns null exactly when the free list
    is empty and the number of active plus free instances has reached
    [maxSize]. *)
Theorem get_null_exactly_at_capacity {T : Type} `{Poolable T} :
  (∀ (createFn : T) (N : nat),
     let firstN := ObjectPool.getMany N (ObjectPool.new createFn 0 N) in
     length firstN.1 = N ∧ Forall is_Some firstN.1 ∧
     (ObjectPool.get firstN.2).1 = None) ∧
  (∀ p : ObjectPool.t T,
     (ObjectPool.get p).1 = None ↔
       ObjectPool.pool p = [] ∧
       ObjectPool.maxSize p ≤
         length (ObjectPool.active p) + length (ObjectPool.pool p)).
Proof.
  split; [|apply get_None].
  intros c N firstN.
  destruct (new_shape c 0 N) as (Hp & Ha & Hm & _ & _).
  destruct (getMany_fresh N (ObjectPool.new c 0 N)) as (Hall & Hlen & Hpool & Hact & Hmax).
  { done. }
  { rewrite Ha, Hm. cbn. lia. }
  fold firstN in Hall, Hlen, Hpool, Hact, Hmax.
  repeat split; [done..|].
  apply get_None. rewrite Hpool, Hact, Hmax, Ha, Hm. cbn. split; [done|lia].
Qed.

(** The pool of the test suite (five free instances, capacity ten): ten calls
    of [get] succeed, the eleventh returns null. *)
Example get_respects_max_size_limit :
  let p := ObjectPool.new newPooledBullet 5 10 in
  Forall is_Some (ObjectPool.getMany 10 p).1 ∧
  (ObjectPool.get (ObjectPool.getMany 10 p).2).1 = None.
Proof.
  split; [|by vm_compute].
  assert (Hres : (ObjectPool.getMany 10 (ObjectPool.new newPooledBullet 5 10)).1 =
                 Some <$> [4; 3; 2; 1; 0; 5; 6; 7; 8; 9]) by (by vm_compute).
  rewrite Hres. apply Forall_fmap, Forall_forall. by eexists.
Qed.

(** C8.  Releasing an object that is not in the active list changes nothing:
    the pool, and so its active list and its free list, is as before.  When
    the active list holds no instance twice, the released object is no longer
    active, so a second release of the same handle changes nothing more; the
    active list of a pool reached from its constructor holds no instance
    twice. *)
Theorem release_untracked_is_noop {T : Type} `{Poolable T}
    (p : ObjectPool.t T) (obj : ObjectPool.ref) :
  (obj ∉ ObjectPool.active p →
     ObjectPool.release obj p = p ∧
     ObjectPool.active (ObjectPool.release obj p) = ObjectPool.active p ∧
     ObjectPool.pool (ObjectPool.release obj p) = ObjectPool.pool p) ∧
  (NoDup (ObjectPool.active p) →
     (obj ∉ ObjectPool.active (ObjectPool.release obj p)) ∧
     ObjectPool.release obj (ObjectPool.release obj p) = ObjectPool.release obj p) ∧
  (∀ (createFn : T) (initialSize maxSize : nat) (cs : list ObjectPool.Call),
     let q := ObjectPool.calls cs (ObjectPool.new createFn initialSize maxSize) in
     NoDup (ObjectPool.active q) ∧
     ObjectPool.release obj (ObjectPool.release obj q) = ObjectPool.release obj q).
Proof.
  split; [|split].
  - intros Hn. by rewrite (release_untracked p obj Hn).
  - intros Hnd. split; [|by apply release_twice].
    unfold ObjectPool.release.
    destruct (indexOf obj (ObjectPool.active p)) as [i|] eqn:Hi.
    + apply indexOf_Some in Hi. cbn.
      rewrite (delete_Permutation _ _ _ Hi) in Hnd. by apply NoDup_cons in Hnd as [? _].
    + by apply indexOf_None.
  - intros c n m cs q.
    assert (Hnd : NoDup (ObjectPool.active q)).
    { destruct (calls_wellFormed cs c n m) as [Hnd _].
      by apply NoDup_app in Hnd as (_ & _ & ?). }
    split; [done|by apply release_twice].
Qed.

(** A bullet taken from the bullet pool and released twice: the second
    release finds it untracked and changes nothing. *)
Lemma release_untracked_is_noop_witness :
  let p := ObjectPool.release 19 (ObjectPool.get ObjectPool.bulletPool).2 in
  (19 ∉ ObjectPool.active p) ∧ ObjectPool.release 19 p = p ∧
  length (ObjectPool.pool (ObjectPool.release 19 p)) = 20.
Proof.
  intros p.
  assert (Hn : 19 ∉ ObjectPool.active p) by (vm_compute; apply not_elem_of_nil).
  split; [exact Hn|].
  destruct (release_untracked_is_noop p 19) as [Hnoop _].
  destruct (Hnoop Hn) as (Heq & _ & Hpool).
  split; [exact Heq|]. rewrite Hpool. reflexivity.
Defined.

(** C9.  A pool constructed with [initialSize <= maxSize] has at most
    [maxSize] instances, free and active together; every call of [get],
    [release], [releaseAll] and [update] (and every mutation of an instance
    between them) keeps that bound, from any state that meets it.  [release],
    [releaseAll] and [update] only move instances between the two lists: the
    tracked instances are the same up to order and no instance is created. *)
Theorem pool_never_exceeds_maxSize {T : Type} `{Poolable T}
    (createFn : T) (initialSize maxSize : nat) :
  initialSize ≤ maxSize →
  let p0 := ObjectPool.new createFn initialSize maxSize in
  (length (ObjectPool.pool p0) + length (ObjectPool.active p0) ≤ ObjectPool.maxSize p0) ∧
  (∀ cs : list ObjectPool.Call,
     let p := ObjectPool.calls cs p0 in
     ObjectPool.maxSize p = maxSize ∧
     length (ObjectPool.pool p) + length (ObjectPool.active p) ≤ maxSize) ∧
  (∀ (p : ObjectPool.t T) (c : ObjectPool.Call),
     length (ObjectPool.pool p) + length (ObjectPool.active p) ≤ ObjectPool.maxSize p →
     length (ObjectPool.pool (ObjectPool.call c p)) +
       length (ObjectPool.active (ObjectPool.call c p)) ≤
       ObjectPool.maxSize (ObjectPool.call c p)) ∧
  (∀ (p : ObjectPool.t T) (c : ObjectPool.Call),
     c ≠ ObjectPool.CallGet →
     ObjectPool.pool (ObjectPool.call c p) ++ ObjectPool.active (ObjectPool.call c p)
       ≡ₚ ObjectPool.pool p ++ ObjectPool.active p ∧
     length (ObjectPool.store (ObjectPool.call c p)) = length (ObjectPool.store p)).
Proof.
  intros Hle p0.
  destruct (new_shape createFn initialSize maxSize) as (Hp & Ha & Hm & _ & _).
  fold p0 in Hp, Ha, Hm.
  assert (H0 : length (ObjectPool.pool p0) + length (ObjectPool.active p0)
               ≤ ObjectPool.maxSize p0).
  { rewrite Hp, Ha, Hm, length_seq. cbn. lia. }
  split; [exact H0|]. split; [|split].
  - intros cs. cbv zeta.
    induction cs as [|c cs IH] using rev_ind; [by rewrite <- Hm|].
    rewrite calls_snoc. destruct IH as [IHm IHw]. rewrite <- IHm in IHw.
    split; [by rewrite call_maxSize|].
    rewrite <- IHm, <- (call_maxSize c). by apply call_within.
  - intros p c. apply call_within.
  - intros p c Hc. destruct c; cbn [ObjectPool.call]; [done|..].
    + split; apply release_moves.
    + split; apply releaseAll_moves.
    + split; apply update_moves.
    + split; [done|]. cbn. by rewrite length_alter.
Qed.

(** The pool of the tests (five free instances, capacity ten) under a few
    calls. *)
Lemma pool_never_exceeds_maxSize_witness :
  5 ≤ 10 ∧
  let p := ObjectPool.calls
             [ObjectPool.CallGet; ObjectPool.CallGet; ObjectPool.CallRelease 4;
              ObjectPool.CallUpdate; ObjectPool.CallReleaseAll]
             (ObjectPool.new newPooledBullet 5 10) in
  length (ObjectPool.pool p) + length (ObjectPool.active p) ≤ 10.
Proof.
  assert (Hle : 5 ≤ 10) by lia.
  split; [exact Hle|]. intros p.
  destruct (pool_never_exceeds_maxSize newPooledBullet 5 10 Hle) as (_ & Hcalls & _).
  apply Hcalls.
Defined.

(** ** Game state manager *)

Section ManagerFacts.
Local Open Scope Z_scope.
Import GameStateManager.

Implicit Types (m : GameStateManager.t) (u : Partial.t) (event : GameEvent.t).

Lemma emitEvent_state event m : state (emitEvent event m) = state m.
Proof. unfold emitEvent. by destruct (eventHandlers m !! _). Qed.

Lemma emitEvent_handlers event m : eventHandlers (emitEvent event m) = eventHandlers m.
Proof. unfold emitEvent. by destruct (eventHandlers m !! _). Qed.

Lemma emitEvent_log event m :
  log (emitEvent event m) =
  log m ++ map (λ handler, Handler handler event) (handlersOf (GameEvent.type event) m).
Proof.
  unfold emitEvent, handlersOf. destruct (eventHandlers m !! _); cbn; [done|].
  by rewrite app_nil_r.
Qed.

Lemma notifyListeners_state m : state (notifyListeners m) = state m.
Proof. done. Qed.

Lemma updateState_state u m : state (updateState u m) = merge (state m) u.
Proof.
  unfold updateState. cbv zeta. rewrite notifyListeners_state.
  case_decide; [by rewrite emitEvent_state|done].
Qed.

Lemma updateState_handlers u m : eventHandlers (updateState u m) = eventHandlers m.
Proof.
  unfold updateState. cbv zeta. unfold notifyListeners, withLog. cbn [eventHandlers].
  case_decide; [by rewrite emitEvent_handlers|done].
Qed.

(** What one [updateState] adds to the log: the phase-change deliveries, if
    the phase differs, then the listener notifications. *)
Lemma updateState_log u m :
  let previous := GameState.phase (state m) in
  let current := GameState.phase (merge (state m) u) in
  log (updateState u m) =
  log m ++
  (if decide (previous ≠ current)
   then map (λ handler, Handler handler (GameEvent.mk (phaseName current)
                                                      (PhaseChange previous current)))
            (handlersOf (phaseName current) m)
   else []) ++
  map (λ listener, Listener listener (merge (state m) u)) (listeners m).
Proof.
  intros previous current. unfold updateState. cbv zeta.
  unfold notifyListeners, withLog. cbn [log state withState].
  fold previous current. case_decide.
  - rewrite emitEvent_log, emitEvent_state. cbn [listeners].
    assert (Hl : ∀ e m', listeners (emitEvent e m') = listeners m').
    { intros e m'. unfold emitEvent. by destruct (eventHandlers m' !! _). }
    rewrite Hl. cbn. by rewrite <- app_assoc.
  - done.
Qed.

(** The phase-change deliveries of a log. *)
Local Abbreviation phaseChanges l := (List.filter isPhaseChange l).

Lemma phaseChanges_updateState u m :
  let previous := GameState.phase (state m) in
  let current := GameState.phase (merge (state m) u) in
  phaseChanges (log (updateState u m)) =
  phaseChanges (log m) ++
  (if decide (previous ≠ current)
   then map (λ handler, Handler handler (GameEvent.mk (phaseName current)
                                                      (PhaseChange previous current)))
            (handlersOf (phaseName current) m)
   else []).
Proof.
  intros previous current. rewrite updateState_log. fold previous current.
  rewrite !List.filter_app.
  assert (Hl : ∀ (s : GameState.t) (l : list nat),
            phaseChanges (map (λ listener, Listener listener s) l) = []).
  { intros s l. by induction l. }
  assert (Hh : ∀ (e : GameEvent.t) (l : list nat),
            isPhaseChange (Handler 0%nat e) = true →
            phaseChanges (map (λ handler, Handler handler e) l) =
            map (λ handler, Handler handler e) l).
  { intros e l He. induction l as [|h l IH]; [done|]. cbn in *.
    rewrite He. by f_equal. }
  rewrite Hl, app_nil_r. f_equal. case_decide; [|done]. by apply Hh.
Qed.

Lemma phaseChanges_emitEvent event m :
  isPhaseChange (Handler 0%nat event) = false →
  phaseChanges (log (emitEvent event m)) = phaseChanges (log m).
Proof.
  intros He. rewrite emitEvent_log, List.filter_app.
  generalize (handlersOf (GameEvent.type event) m). intros l.
  assert (Hn : phaseChanges (map (λ handler, Handler handler event) l) = []).
  { induction l as [|h l IH]; [done|]. cbn in *. by rewrite He. }
  by rewrite Hn, app_nil_r.
Qed.

(** The state [loseLife] leaves behind. *)
Lemma loseLife_state m :
  let newLives := Z.max 0 (GameState.lives (state m) - 1) in
  let s := state m in
  state (loseLife m) =
  if newLives <=? 0 then
    GameState.mk GamePhase.gameOver (GameState.score s) newLives (GameState.level s)
                 (GameState.enemies s) (GameState.bullets s) (GameState.particles s)
                 (GameState.player s) (GameState.lastUpdateTime s) (GameState.fps s)
  else
    GameState.mk (GameState.phase s) (GameState.score s) newLives (GameState.level s)
                 GameLogic.createEnemyGrid [] []
                 (repositioned (GameState.player s))
                 (GameState.lastUpdateTime s) (GameState.fps s).
Proof.
  intros newLives s. unfold loseLife. fold newLives. cbv zeta.
  rewrite emitEvent_state. destruct (newLives <=? 0).
  - unfold gameOver. by rewrite emitEvent_state, !updateState_state.
  - by rewrite !updateState_state.
Qed.

Lemma loseLife_phaseChanges m :
  let newLives := Z.max 0 (GameState.lives (state m) - 1) in
  phaseChanges (log (loseLife m)) =
  phaseChanges (log m) ++
  (if (newLives <=? 0) && bool_decide (GameState.phase (state m) ≠ GamePhase.gameOver)
   then map (λ handler, Handler handler
                          (GameEvent.mk "gameOver"
                             (PhaseChange (GameState.phase (state m)) GamePhase.gameOver)))
            (handlersOf "gameOver" m)
   else []).
Proof.
  intros newLives. unfold loseLife. fold newLives. cbv zeta.
  rewrite phaseChanges_emitEvent by done.
  destruct (newLives <=? 0); cbn [andb].
  - unfold gameOver. rewrite phaseChanges_emitEvent by done.
    rewrite !phaseChanges_updateState, !updateState_state. cbn.
    rewrite decide_False by (by intros []). rewrite app_nil_r.
    unfold handlersOf. rewrite updateState_handlers.
    f_equal. case_bool_decide; case_decide; done.
  - rewrite !phaseChanges_updateState, !updateState_state. cbn.
    rewrite !decide_False by (by intros []). by rewrite !app_nil_r.
Qed.

Lemma nextLevel_state m :
  let s := state m in
  state (nextLevel m) =
  GameState.mk (GameState.phase s) (GameState.score s) (GameState.lives s)
               (GameState.level s + 1) GameLogic.createEnemyGrid [] []
               (repositioned (GameState.player s))
               (GameState.lastUpdateTime s) (GameState.fps s).
Proof. unfold nextLevel. cbv zeta. by rewrite emitEvent_state, updateState_state. Qed.

Lemma nextLevel_phaseChanges m :
  phaseChanges (log (nextLevel m)) = phaseChanges (log m).
Proof.
  unfold nextLevel. cbv zeta. rewrite phaseChanges_emitEvent by done.
  rewrite phaseChanges_updateState. cbn.
  rewrite decide_False by (by intros []). by rewrite app_nil_r.
Qed.

(** Once the phase is [gameOver], the four operations keep it and deliver no
    phase-change event. *)
Lemma gameOver_absorbing (o : Op) m :
  afterGameOver o = true →
  GameState.phase (state m) = GamePhase.gameOver →
  GameState.phase (state (apply o m)) = GamePhase.gameOver ∧
  phaseChanges (log (apply o m)) = phaseChanges (log m).
Proof.
  intros Ho Hph. destruct o; try done; cbn [apply].
  - unfold pauseGame. by rewrite decide_False by (by rewrite Hph).
  - unfold resumeGame. by rewrite decide_False by (by rewrite Hph).
  - by rewrite nextLevel_state, nextLevel_phaseChanges.
  - rewrite loseLife_state, loseLife_phaseChanges. cbv zeta. split.
    + by destruct (_ <=? 0).
    + rewrite bool_decide_false by (by intros []).
      by rewrite andb_false_r, app_nil_r.
Qed.

Lemma run_snoc (os : list Op) (o : Op) m : run (os ++ [o]) m = apply o (run os m).
Proof. unfold run. by rewrite foldl_app. Qed.

Lemma gameOver_terminal (os : list Op) m :
  forallb afterGameOver os = true →
  GameState.phase (state m) = GamePhase.gameOver →
  GameState.phase (state (run os m)) = GamePhase.gameOver ∧
  phaseChanges (log (run os m)) = phaseChanges (log m).
Proof.
  intros Hos Hph. induction os as [|o os IH] using rev_ind; [done|].
  rewrite forallb_app in Hos. apply andb_true_iff in Hos as [Hos Ho].
  cbn in Ho. rewrite andb_true_r in Ho. destruct (IH Hos) as [IHp IHl].
  rewrite run_snoc. destruct (gameOver_absorbing o (run os m) Ho IHp) as [? Hl].
  split; [done|]. by rewrite Hl.
Qed.

(** Every operation other than [startGame] and [reset] reaches the phase
    field through [updateState]: if it changes the phase, each handler
    registered under the new phase's name receives the event carrying
    (previous, current), and otherwise no phase-change event is delivered. *)
Lemma phase_change_delivered (o : Op) m :
  o ≠ OpStartGame → o ≠ OpReset →
  let previous := GameState.phase (state m) in
  let current := GameState.phase (state (apply o m)) in
  phaseChanges (log (apply o m)) =
  phaseChanges (log m) ++
  (if decide (previous ≠ current)
   then map (λ handler, Handler handler (GameEvent.mk (phaseName current)
                                                      (PhaseChange previous current)))
            (handlersOf (phaseName current) m)
   else []).
Proof.
  intros Hs Hr previous current. subst previous current.
  destruct o; try done; cbn [apply].
  - by rewrite phaseChanges_updateState, updateState_state.
  - unfold pauseGame. case_decide.
    + by rewrite phaseChanges_updateState, updateState_state.
    + by rewrite decide_False, app_nil_r by (by intros []).
  - unfold resumeGame. case_decide.
    + by rewrite phaseChanges_updateState, updateState_state.
    + by rewrite decide_False, app_nil_r by (by intros []).
  - unfold gameOver. rewrite phaseChanges_emitEvent, emitEvent_state by done.
    by rewrite phaseChanges_updateState, updateState_state.
  - rewrite nextLevel_phaseChanges, nextLevel_state. cbn.
    by rewrite decide_False, app_nil_r by (by intros []).
  - rewrite loseLife_phaseChanges, loseLife_state. cbv zeta. f_equal.
    destruct (_ <=? 0); cbn [andb GameState.phase].
    + case_bool_decide; case_decide; done.
    + by rewrite decide_False by (by intros []).
  - unfold addScore. rewrite phaseChanges_updateState, updateState_state. done.
  - unfold updateFPS. rewrite phaseChanges_updateState, updateState_state. done.
  - unfold updateLastUpdateTime. rewrite phaseChanges_updateState, updateState_state. done.
  - cbn. by rewrite decide_False, app_nil_r by (by intros []).
  - cbn. by rewrite decide_False, app_nil_r by (by intros []).
  - cbn. by rewrite decide_False, app_nil_r by (by intros []).
  - cbn. by rewrite decide_False, app_nil_r by (by intros []).
Qed.

End ManagerFacts.

(** C3 (the code departs from the claim at [startGame]).  A manager in its
    initial phase [start] with a handler registered for "playing": [startGame]
    changes the phase to [playing], yet the log of invocations stays empty, no
    event carrying (start, playing) reaches the handler.  On the paths through
    [updateState] the same handler is reached: resuming from a pause delivers
    (paused, playing) to it. *)
Theorem startGame_changes_phase_without_event :
  let m := GameStateManager.addEventListener "playing" 7 GameStateManager.new in
  GameState.phase (GameStateManager.state m) = GamePhase.start ∧
  GameStateManager.handlersOf "playing" m = [7] ∧
  GameState.phase (GameStateManager.state (GameStateManager.startGame m)) = GamePhase.playing ∧
  GameStateManager.log (GameStateManager.startGame m) = [] ∧
  GameStateManager.log
    (GameStateManager.resumeGame
       (GameStateManager.pauseGame (GameStateManager.startGame m))) =
    [GameStateManager.Handler 7
       (GameEvent.mk "playing" (PhaseChange GamePhase.paused GamePhase.playing))].
Proof. repeat split; reflexivity. Qed.

(** C4, as the claim states it, fails where the life count is already 0: in
    a playing state with [lives = 0] (set through [updateState]), [loseLife]
    leaves [lives] at 0, it does not decrement it by one. *)
Lemma loseLife_decrement_counterexample :
  let m := GameStateManager.updateState
             (Partial.mk None None (Some 0%Z) None None None None None None None)
             (GameStateManager.startGame GameStateManager.new) in
  GameState.phase (GameStateManager.state m) = GamePhase.playing ∧
  GameState.lives (GameStateManager.state m) = 0%Z ∧
  GameState.lives (GameStateManager.state (GameStateManager.loseLife m)) = 0%Z ∧
  GameState.lives (GameStateManager.state (GameStateManager.loseLife m)) ≠
    (GameState.lives (GameStateManager.state m) - 1)%Z.
Proof. repeat split; try reflexivity. by vm_compute. Qed.

(** C4, amended.  In a playing state [loseLife] lowers [lives] by one but
    not below 0 ([max 0 (lives - 1)]; a decrement by one whenever
    [lives >= 1]), and keeps score and level.  If the new count is 0, the
    phase becomes [gameOver], each handler registered for "gameOver" receives
    the phase-change event (playing, gameOver) exactly once, and every later
    sequence of [pauseGame], [resumeGame], [loseLife] and [nextLevel] leaves
    the phase at [gameOver] and delivers no further phase-change event.
    Otherwise the phase stays [playing], the player is back at the start
    position (375, 550), the enemies are the fresh full grid (50 enemies, all
    active), and bullets and particles are empty. *)
Theorem loseLife_floor_gameOver_respawn (m : GameStateManager.t) :
  GameState.phase (GameStateManager.state m) = GamePhase.playing →
  let s := GameStateManager.state m in
  let m' := GameStateManager.loseLife m in
  let s' := GameStateManager.state m' in
  let phaseChanges := List.filter GameStateManager.isPhaseChange in
  GameState.lives s' = Z.max 0 (GameState.lives s - 1) ∧
  ((1 <= GameState.lives s)%Z → GameState.lives s' = (GameState.lives s - 1)%Z) ∧
  GameState.score s' = GameState.score s ∧
  GameState.level s' = GameState.level s ∧
  (GameState.lives s' = 0%Z →
     GameState.phase s' = GamePhase.gameOver ∧
     phaseChanges (GameStateManager.log m') =
       phaseChanges (GameStateManager.log m) ++
       map (λ handler, GameStateManager.Handler handler
              (GameEvent.mk "gameOver" (PhaseChange GamePhase.playing GamePhase.gameOver)))
           (GameStateManager.handlersOf "gameOver" m) ∧
     ∀ os : list GameStateManager.Op,
       forallb GameStateManager.afterGameOver os = true →
       GameState.phase (GameStateManager.state (GameStateManager.run os m')) =
         GamePhase.gameOver ∧
       phaseChanges (GameStateManager.log (GameStateManager.run os m')) =
         phaseChanges (GameStateManager.log m')) ∧
  (GameState.lives s' ≠ 0%Z →
     GameState.phase s' = GamePhase.playing ∧
     GameState.player s' =
       Player.mk 375 550 (Player.width (GameState.player s))
                 (Player.height (GameState.player s)) (Player.speed (GameState.player s))
                 (Player.active (GameState.player s)) (Player.lives (GameState.player s)) ∧
     GameState.enemies s' = GameLogic.createEnemyGrid ∧
     length (GameState.enemies s') = 50 ∧
     forallb Enemy.active (GameState.enemies s') = true ∧
     GameState.bullets s' = [] ∧
     GameState.particles s' = []).
Proof.
  intros Hph s m' s' phaseChanges. subst s' phaseChanges.
  assert (Hterm : GameState.phase (GameStateManager.state m') = GamePhase.gameOver →
            ∀ os, forallb GameStateManager.afterGameOver os = true →
              GameState.phase (GameStateManager.state (GameStateManager.run os m')) =
                GamePhase.gameOver ∧
              List.filter GameStateManager.isPhaseChange
                          (GameStateManager.log (GameStateManager.run os m')) =
              List.filter GameStateManager.isPhaseChange (GameStateManager.log m')).
  { intros Hover os Hos. by apply gameOver_terminal. }
  revert Hterm. subst m' s. rewrite loseLife_state, loseLife_phaseChanges. cbv zeta.
  rewrite Hph.
  destruct (Z.leb_spec (Z.max 0 (GameState.lives (GameStateManager.state m) - 1)) 0)
    as [Hle|Hgt];
    cbn [GameState.lives GameState.score GameState.level GameState.phase
         GameState.player GameState.enemies GameState.bullets
         GameState.particles andb]; intros Hterm.
  - repeat split; try lia; try done.
    + by apply Hterm.
    + by apply Hterm.
  - repeat split; try lia; try done.
Qed.

(** The third life lost in a fresh game, with a handler on "gameOver". *)
Lemma loseLife_floor_gameOver_respawn_witness :
  let m := GameStateManager.loseLife
             (GameStateManager.loseLife
                (GameStateManager.startGame
                   (GameStateManager.addEventListener "gameOver" 3 GameStateManager.new))) in
  GameState.phase (GameStateManager.state m) = GamePhase.playing ∧
  GameState.lives (GameStateManager.state m) = 1%Z ∧
  GameState.lives (GameStateManager.state (GameStateManager.loseLife m)) = 0%Z ∧
  GameState.phase
    (GameStateManager.state
       (GameStateManager.run
          [GameStateManager.OpResumeGame; GameStateManager.OpNextLevel;
           GameStateManager.OpLoseLife; GameStateManager.OpPauseGame]
          (GameStateManager.loseLife m))) = GamePhase.gameOver.
Proof.
  intros m.
  assert (Hph : GameState.phase (GameStateManager.state m) = GamePhase.playing)
    by reflexivity.
  split; [exact Hph|]. split; [reflexivity|].
  destruct (loseLife_floor_gameOver_respawn m Hph) as (Hlives & _ & _ & _ & Hover & _).
  split; [exact Hlives|].
  destruct (Hover Hlives) as (_ & _ & Hterminal).
  apply (Hterminal
           [GameStateManager.OpResumeGame; GameStateManager.OpNextLevel;
            GameStateManager.OpLoseLife; GameStateManager.OpPauseGame] eq_refl).
Defined.

(** ** Score *)

Section ScoreFacts.
Local Open Scope Z_scope.
Import GameStateManager.

Lemma addScore_score (points : Z) (m : GameStateManager.t) :
  GameState.score (state (addScore points m)) = GameState.score (state m) + points.
Proof. unfold addScore. by rewrite updateState_state. Qed.

Lemma keepsScore_apply (o : Op) (m : GameStateManager.t) :
  keepsScore o = true →
  GameState.score (state m) <= GameState.score (state (apply o m)).
Proof.
  intros Ho. destruct o; try done; cbn [apply keepsScore] in *.
  - apply bool_decide_eq_true in Ho. rewrite updateState_state. cbn. by rewrite Ho.
  - unfold pauseGame. case_decide; [|done]. by rewrite updateState_state.
  - unfold resumeGame. case_decide; [|done]. by rewrite updateState_state.
  - unfold gameOver. by rewrite emitEvent_state, updateState_state.
  - by rewrite nextLevel_state.
  - rewrite loseLife_state. cbv zeta. by destruct (_ <=? 0).
  - apply bool_decide_eq_true in Ho. rewrite addScore_score. lia.
  - unfold updateFPS. by rewrite updateState_state.
  - unfold updateLastUpdateTime. by rewrite updateState_state.
Qed.

End ScoreFacts.

(** C6, as the claim states it, fails for negative points: [addScore(-10)]
    on a fresh game lowers the score from 0 to -10, so the score decreases and
    becomes negative under an operation that is neither [startGame] nor
    [reset]. *)
Lemma addScore_negative_counterexample :
  let m := GameStateManager.startGame GameStateManager.new in
  let m' := GameStateManager.run [GameStateManager.OpAddScore (-10)] m in
  GameState.score (GameStateManager.state m) = 0%Z ∧
  GameState.score (GameStateManager.state m') = (-10)%Z ∧
  (GameState.score (GameStateManager.state m') < GameState.score (GameStateManager.state m))%Z ∧
  (GameState.score (GameStateManager.state m') < 0)%Z.
Proof. repeat split; reflexivity. Qed.

(** C6, amended.  [addScore(points)] adds [points] to the score, for every
    argument.  Along every sequence of operations that contains no
    [startGame], no [reset], no [updateState] that sets the score field and no
    [addScore] with negative points, the score never decreases; so from a
    non-negative score it stays non-negative. *)
Theorem score_nondecreasing_without_negative_points
    (os : list GameStateManager.Op) (m : GameStateManager.t) :
  forallb GameStateManager.keepsScore os = true →
  (∀ points : Z,
     GameState.score (GameStateManager.state (GameStateManager.addScore points m)) =
       (GameState.score (GameStateManager.state m) + points)%Z) ∧
  (GameState.score (GameStateManager.state m) <=
     GameState.score (GameStateManager.state (GameStateManager.run os m)))%Z ∧
  ((0 <= GameState.score (GameStateManager.state m))%Z →
   (0 <= GameState.score (GameStateManager.state (GameStateManager.run os m)))%Z).
Proof.
  intros Hos. split; [intros points; apply addScore_score|].
  assert (Hmono : (GameState.score (GameStateManager.state m) <=
             GameState.score (GameStateManager.state (GameStateManager.run os m)))%Z).
  { induction os as [|o os IH] using rev_ind; [done|].
    rewrite forallb_app in Hos. apply andb_true_iff in Hos as [Hos Ho].
    cbn in Ho. rewrite andb_true_r in Ho. rewrite run_snoc.
    etrans; [by apply IH|by apply keepsScore_apply]. }
  split; [done|lia].
Qed.

(** Two hits, a lost life, a pause and a new level in a fresh game. *)
Lemma score_nondecreasing_without_negative_points_witness :
  let os := [GameStateManager.OpAddScore 10; GameStateManager.OpLoseLife;
             GameStateManager.OpAddScore 20; GameStateManager.OpPauseGame;
             GameStateManager.OpResumeGame; GameStateManager.OpNextLevel] in
  let m := GameStateManager.startGame GameStateManager.new in
  forallb GameStateManager.keepsScore os = true ∧
  (GameState.score (GameStateManager.state m) <=
     GameState.score (GameStateManager.state (GameStateManager.run os m)))%Z ∧
  GameState.score (GameStateManager.state (GameStateManager.run os m)) = 30%Z.
Proof.
  intros os m.
  assert (Hos : forallb GameStateManager.keepsScore os = true) by reflexivity.
  split; [exact Hos|]. split; [|reflexivity].
  destruct (score_nondecreasing_without_negative_points os m Hos) as (_ & Hmono & _).
  exact Hmono.
Defined.

(** ** Fixed-timestep scheduler *)

Section SchedulerFacts.
Local Open Scope Q_scope.
Import GameLoop.
Context {W : Type} (callbacks : GameLoopCallbacks W).

Lemma targetFrameTime_pos : 0 < targetFrameTime.
Proof. reflexivity. Qed.

Lemma ticks_succ (k : nat) :
  inject_Z (Z.of_nat (S k)) * targetFrameTime ==
  inject_Z (Z.of_nat k) * targetFrameTime + targetFrameTime.
Proof.
  rewrite Nat2Z.inj_succ. unfold Z.succ. rewrite inject_Z_plus. ring.
Qed.

(** The update loop fires [k <= remaining] updates.  It ends with the lag
    reset to 0 by a throwing update, or with [k] ticks consumed, and then
    either the cap is reached or less than one tick is left. *)
Lemma updateLoop_cases (remaining : nat) (currentTime lag : Q) (w : W) :
  ∃ k : nat,
    (updateLoop callbacks remaining currentTime lag w).2 =
      replicate k (Update targetFrameTime currentTime) ∧
    (k ≤ remaining)%nat ∧
    ((updateLoop callbacks remaining currentTime lag w).1.1 = 0 ∨
     ((updateLoop callbacks remaining currentTime lag w).1.1 ==
        lag - inject_Z (Z.of_nat k) * targetFrameTime ∧
      (k = remaining ∨
       (updateLoop callbacks remaining currentTime lag w).1.1 < targetFrameTime))).
Proof.
  revert lag w. induction remaining as [|r IH]; intros lag w.
  - exists 0%nat. cbn. repeat split; [done|]. right. split; [ring|by left].
  - cbn [updateLoop]. destruct (Qle_bool targetFrameTime lag) eqn:Hle.
    + destruct (onUpdate callbacks targetFrameTime currentTime w) as [w'|w'].
      * destruct (IH (lag - targetFrameTime) w') as (k & Htr & Hk & Hlag).
        destruct (updateLoop callbacks r currentTime (lag - targetFrameTime) w')
          as [[lag' w''] trace]. cbn in *.
        exists (S k). repeat split; [by rewrite Htr|lia|].
        destruct Hlag as [->|[Heq Hend]]; [by left|]. right. split.
        -- rewrite Heq, ticks_succ. ring.
        -- destruct Hend as [->|Hlt]; [by left|by right].
      * exists 1%nat. cbn. repeat split; [lia|by left].
    + exists 0%nat. cbn. repeat split; [lia|]. right. split; [ring|]. right.
      apply Qnot_le_lt. intros Hc. apply Qle_bool_iff in Hc. congruence.
Qed.

(** Without a throwing update the lag is never reset. *)
Lemma updateLoop_no_throw (remaining : nat) (currentTime lag : Q) (w : W) :
  (∀ dt t w0, ∃ w1, onUpdate callbacks dt t w0 = Returns w1) →
  ∃ k : nat,
    (updateLoop callbacks remaining currentTime lag w).2 =
      replicate k (Update targetFrameTime currentTime) ∧
    (updateLoop callbacks remaining currentTime lag w).1.1 ==
      lag - inject_Z (Z.of_nat k) * targetFrameTime ∧
    (k = remaining ∨
     (updateLoop callbacks remaining currentTime lag w).1.1 < targetFrameTime).
Proof.
  intros Hno. revert lag w. induction remaining as [|r IH]; intros lag w.
  - exists 0%nat. cbn. repeat split; [ring|by left].
  - cbn [updateLoop]. destruct (Qle_bool targetFrameTime lag) eqn:Hle.
    + destruct (Hno targetFrameTime currentTime w) as [w' ->].
      destruct (IH (lag - targetFrameTime) w') as (k & Htr & Heq & Hend).
      destruct (updateLoop callbacks r currentTime (lag - targetFrameTime) w')
        as [[lag' w''] trace]. cbn in *.
      exists (S k). repeat split; [by rewrite Htr| |].
      * rewrite Heq, ticks_succ. ring.
      * destruct Hend as [->|Hlt]; [by left|by right].
    + exists 0%nat. cbn. repeat split; [ring|]. right.
      apply Qnot_le_lt. intros Hc. apply Qle_bool_iff in Hc. congruence.
Qed.

End SchedulerFacts.

Section SchedulerClaims.
Local Open Scope Q_scope.

(** The burst of C2, evaluated.  One callback 166.7 ms after the previous
    one (ten ticks of 16.67 ms), with callbacks that never throw: five updates
    fire, then the one render, and the render receives the interpolation 5,
    which is not below 1.  The five remaining ticks stay in [lagRef]: a second
    callback at the same instant, with no time elapsed, fires five more
    updates. *)
Example gameLoop_ten_tick_burst :
  let refs := GameLoop.mkRefs (Some 0) 0 (GameLoop.mkFps 0 0 0) in
  let t := 10 * GameLoop.targetFrameTime in
  let first := GameLoop.gameLoop GameLoop.counting true t refs 0%nat in
  let second := GameLoop.gameLoop GameLoop.counting true t first.1.1 first.1.2 in
  GameLoop.accumulated t refs == 10 * GameLoop.targetFrameTime ∧
  first.2 = replicate 5 (GameLoop.Update GameLoop.targetFrameTime t) ++
            [GameLoop.Render (GameLoop.lagRef first.1.1 / GameLoop.targetFrameTime)] ∧
  GameLoop.lagRef first.1.1 / GameLoop.targetFrameTime == 5 ∧
  ¬ (GameLoop.lagRef first.1.1 / GameLoop.targetFrameTime < 1) ∧
  GameLoop.lagRef first.1.1 == 5 * GameLoop.targetFrameTime ∧
  GameLoop.updateCount second.2 = 5%nat ∧
  second.1.2 = 10%nat.
Proof.
  cbv zeta. split; [reflexivity|]. split; [reflexivity|].
  split; [reflexivity|]. split; [|repeat split; reflexivity].
  intros Hlt. vm_compute in Hlt. discriminate.
Qed.

(** The other way out of the update loop does drop the lag: when the first
    update throws, [lagRef] is reset, so there is one update and then the
    render with interpolation 0. *)
Example gameLoop_update_throws :
  let refs := GameLoop.mkRefs (Some 0) 0 (GameLoop.mkFps 0 0 0) in
  let t := 10 * GameLoop.targetFrameTime in
  (GameLoop.gameLoop GameLoop.failing true t refs 0%nat).2 =
    [GameLoop.Update GameLoop.targetFrameTime t; GameLoop.Render (0 / GameLoop.targetFrameTime)] ∧
  GameLoop.lagRef (GameLoop.gameLoop GameLoop.failing true t refs 0%nat).1.1 = 0.
Proof. split; reflexivity. Qed.

(** C2.  The code departs from the claim on the remaining lag.  In a
    callback whose accumulated lag equals ten ticks, at most five updates
    fire, all before the single render, and the render receives the remaining
    lag divided by the tick: so far as claimed.  The lag left is 0 only when
    the loop was left through a throwing update, the branch that resets
    [lagRef]; when the loop is left on the cap, which is what happens whenever
    no update throws, five ticks stay in [lagRef] and count in the next
    callback, and the value passed to the render as interpolation is 5, not a
    value of [0,1). *)
Theorem gameLoop_caps_updates_keeps_lag {W : Type}
    (callbacks : GameLoop.GameLoopCallbacks W)
    (currentTime : Q) (refs : GameLoop.Refs) (w : W) :
  GameLoop.accumulated currentTime refs == 10 * GameLoop.targetFrameTime →
  let result := GameLoop.gameLoop callbacks true currentTime refs w in
  let lag' := GameLoop.lagRef result.1.1 in
  ∃ n : nat,
    result.2 = replicate n (GameLoop.Update GameLoop.targetFrameTime currentTime) ++
               [GameLoop.Render (lag' / GameLoop.targetFrameTime)] ∧
    (n ≤ 5)%nat ∧
    (lag' = 0 ∨ (n = 5%nat ∧ lag' == 5 * GameLoop.targetFrameTime)) ∧
    (∀ t' : Q, GameLoop.accumulated t' result.1.1 = lag' + (t' - currentTime)) ∧
    ((∀ dt t w0, ∃ w1, GameLoop.onUpdate callbacks dt t w0 = GameLoop.Returns w1) →
       n = 5%nat ∧ lag' == 5 * GameLoop.targetFrameTime ∧
       lag' / GameLoop.targetFrameTime == 5 ∧
       ¬ (lag' / GameLoop.targetFrameTime < 1)).
Proof.
  intros Hacc result lag'. subst lag' result. unfold GameLoop.gameLoop.
  cbn [negb]. fold (GameLoop.accumulated currentTime refs).
  set (lag := GameLoop.accumulated currentTime refs) in *.
  pose proof targetFrameTime_pos as Hpos.
  destruct (updateLoop_cases callbacks GameLoop.maxUpdates currentTime lag w)
    as (n & Htr & Hn & Hlag).
  pose proof (updateLoop_no_throw callbacks GameLoop.maxUpdates currentTime lag w)
    as Hno.
  destruct (GameLoop.updateLoop callbacks GameLoop.maxUpdates currentTime lag w)
    as [[lag' w'] trace]. cbn in Htr, Hlag, Hno. cbn.
  assert (Hfive : lag' == lag - inject_Z (Z.of_nat n) * GameLoop.targetFrameTime →
            n = GameLoop.maxUpdates ∨ lag' < GameLoop.targetFrameTime →
            n = 5%nat ∧ lag' == 5 * GameLoop.targetFrameTime).
  { intros Heq [->|Hlt].
    { split; [done|]. rewrite Heq, Hacc.
      change (inject_Z (Z.of_nat GameLoop.maxUpdates)) with 5. ring. }
    exfalso. rewrite Heq, Hacc in Hlt.
    assert (Hn' : inject_Z (Z.of_nat n) <= 5).
    { change 5 with (inject_Z 5). rewrite <- Zle_Qle. unfold GameLoop.maxUpdates in Hn. lia. }
    nra. }
  exists n. subst trace.
  split; [done|]. split; [exact Hn|]. split; [|split].
  - destruct Hlag as [->|[Heq Hend]]; [by left|right; by apply Hfive].
  - intros t'. reflexivity.
  - intros Hnt. destruct (Hno Hnt) as (k & Hk & Heq & Hend).
    assert (k = n) as ->.
    { apply (f_equal length) in Hk. by rewrite !length_replicate in Hk. }
    destruct (Hfive Heq Hend) as [-> Hl].
    assert (Hq : lag' / GameLoop.targetFrameTime == 5)
      by (rewrite Hl; field; lra).
    split; [done|]. split; [done|]. split; [done|].
    intros Hlt. rewrite Hq in Hlt. lra.
Qed.

(** The same burst with callbacks that never throw. *)
Lemma gameLoop_caps_updates_keeps_lag_witness :
  let refs := GameLoop.mkRefs (Some 0) 0 (GameLoop.mkFps 0 0 0) in
  let t := 10 * GameLoop.targetFrameTime in
  GameLoop.accumulated t refs == 10 * GameLoop.targetFrameTime ∧
  ∃ n : nat,
    (GameLoop.gameLoop GameLoop.counting true t refs 0%nat).2 =
      replicate n (GameLoop.Update GameLoop.targetFrameTime t) ++
      [GameLoop.Render
         (GameLoop.lagRef (GameLoop.gameLoop GameLoop.counting true t refs 0%nat).1.1 /
          GameLoop.targetFrameTime)] ∧
    (n ≤ 5)%nat.
Proof.
  intros refs t.
  assert (Hacc : GameLoop.accumulated t refs == 10 * GameLoop.targetFrameTime)
    by reflexivity.
  split; [exact Hacc|].
  destruct (gameLoop_caps_updates_keeps_lag GameLoop.counting t refs 0%nat Hacc)
    as (n & Htrace & Hn & _).
  exists n. split; [exact Htrace|exact Hn].
Defined.

End SchedulerClaims.

(** * Further properties of the code *)

(** ** Geometry helpers *)

Section GeometryFacts.
Local Open Scope Z_scope.

(** X1.  [clampToCanvas] never returns a negative position; when the object
    fits in the canvas the result also leaves room for its width; a position
    already in range is returned unchanged, so clamping twice is clamping once;
    an object wider than the canvas is put at 0. *)
Theorem clampToCanvas_keeps_on_canvas (x width canvasWidth : Z) :
  0 <= GameLogic.clampToCanvas x width canvasWidth ∧
  (width <= canvasWidth →
     GameLogic.clampToCanvas x width canvasWidth + width <= canvasWidth) ∧
  (0 <= x <= canvasWidth - width → GameLogic.clampToCanvas x width canvasWidth = x) ∧
  (canvasWidth < width → GameLogic.clampToCanvas x width canvasWidth = 0) ∧
  GameLogic.clampToCanvas (GameLogic.clampToCanvas x width canvasWidth) width canvasWidth =
    GameLogic.clampToCanvas x width canvasWidth.
Proof. unfold GameLogic.clampToCanvas. repeat split; lia. Qed.

(** X2.  An object that [isOutOfBounds] reports outside does not overlap the
    canvas rectangle, whatever its size.  (The converse fails on the border,
    as the example after the theorem shows: an object whose left edge is
    exactly at [canvasWidth] is neither out of bounds nor overlapping.) *)
Theorem isOutOfBounds_excludes_overlap (obj : CollisionBox.t) (canvasWidth canvasHeight : Z) :
  GameLogic.isOutOfBounds obj canvasWidth canvasHeight = true →
  GameLogic.checkCollision obj (CollisionBox.mk 0 0 canvasWidth canvasHeight) = false.
Proof.
  intros Hout. apply not_true_is_false. intros Hc.
  apply (checkCollision_true obj (CollisionBox.mk 0 0 canvasWidth canvasHeight)) in Hc.
  unfold GameLogic.isOutOfBounds in Hout. cbv zeta in Hout.
  unfold collisionBox, box_box in *. cbn in Hc.
  rewrite !orb_true_iff, !Z.ltb_lt, !Z.gtb_gt in Hout. lia.
Qed.

Lemma isOutOfBounds_excludes_overlap_witness :
  GameLogic.isOutOfBounds (CollisionBox.mk 801 10 4 10) 800 600 = true ∧
  GameLogic.checkCollision (CollisionBox.mk 801 10 4 10) (CollisionBox.mk 0 0 800 600) = false ∧
  GameLogic.isOutOfBounds (CollisionBox.mk 800 10 4 10) 800 600 = false ∧
  GameLogic.checkCollision (CollisionBox.mk 800 10 4 10) (CollisionBox.mk 0 0 800 600) = false.
Proof.
  split; [reflexivity|]. split; [|split; reflexivity].
  apply (isOutOfBounds_excludes_overlap (CollisionBox.mk 801 10 4 10) 800 600). reflexivity.
Defined.

End GeometryFacts.

(** ** Enemies and the player *)

Section EnemyFacts.
Local Open Scope Z_scope.

(** X3.  [checkEnemyPlayerCollision] holds exactly when some active enemy
    overlaps the player: the extra test [enemy.y + enemy.height >= player.y]
    never changes the answer, since an overlap already needs the strict
    inequality.  Inactive enemies never count. *)
Theorem checkEnemyPlayerCollision_iff_active_overlap
    (enemies : list Enemy.t) (player : Player.t) :
  GameLogic.checkEnemyPlayerCollision enemies player = true ↔
  ∃ enemy, enemy ∈ enemies ∧ Enemy.active enemy = true ∧
           GameLogic.checkCollision enemy player = true.
Proof.
  unfold GameLogic.checkEnemyPlayerCollision. rewrite existsb_exists. split.
  - intros (e & Hin & Hc). rewrite !andb_true_iff in Hc. destruct Hc as [[Ha _] Hc].
    exists e. by rewrite list_elem_of_In.
  - intros (e & Hin & Ha & Hc). exists e. rewrite <- list_elem_of_In. split; [done|].
    rewrite Ha, Hc, andb_true_r. cbn.
    apply (checkCollision_true e player) in Hc. unfold collisionBox in Hc.
    cbn in Hc. apply Z.geb_le. lia.
Qed.

(** X4.  The level is complete exactly when [getActiveEnemies] is empty, which
    is when [calculateGameStats] counts no active enemy; an empty formation is
    complete.  The counts of [calculateGameStats] never exceed its total. *)
Theorem isLevelComplete_iff_no_active_enemy
    (enemies : list Enemy.t) (bullets : list Bullet.t) (particles : list Particle.t) :
  let stats := GameLogic.calculateGameStats enemies bullets particles in
  (GameLogic.isLevelComplete enemies = true ↔ GameLogic.getActiveEnemies enemies = []) ∧
  (GameLogic.isLevelComplete enemies = true ↔ GameLogic.activeEnemies stats = 0%nat) ∧
  GameLogic.isLevelComplete [] = true ∧
  (GameLogic.activeEnemies stats + GameLogic.activeBullets stats +
     GameLogic.activeParticles stats ≤ GameLogic.totalEntities stats)%nat.
Proof.
  intros stats. subst stats.
  assert (Hiff : GameLogic.isLevelComplete enemies = true ↔
                 GameLogic.getActiveEnemies enemies = []).
  { unfold GameLogic.isLevelComplete, GameLogic.getActiveEnemies.
    induction enemies as [|e es IH]; [done|]. cbn.
    destruct (Enemy.active e); cbn; [split; done|exact IH]. }
  split; [exact Hiff|]. split; [|split; [done|]].
  - rewrite Hiff. unfold GameLogic.calculateGameStats, GameLogic.getActiveEnemies. cbn.
    by rewrite length_zero_iff_nil.
  - unfold GameLogic.calculateGameStats. cbn.
    pose proof (List.filter_length_le Enemy.active enemies).
    pose proof (List.filter_length_le Bullet.active bullets).
    pose proof (List.filter_length_le (λ p, Particle.life p >? 0) particles). lia.
Qed.

End EnemyFacts.

(** ** The enemy grid *)

Section GridFacts.
Local Open Scope Z_scope.

(** X5.  [createEnemyGrid] lays out [rows * cols] enemies row by row: the
    enemy of row [row] and column [col] sits at index [row * cols + col], at
    [x = col * (width + horizontal spacing) + startX] and
    [y = row * (height + vertical spacing) + startY], active and heading
    right.  No two enemies of the grid overlap, and every enemy is strictly
    inside the horizontal bounds that trigger a drop. *)
Theorem createEnemyGrid_layout :
  length GameLogic.createEnemyGrid = (GAME_CONFIG.enemies.rows * GAME_CONFIG.enemies.cols)%nat ∧
  (∀ row col : nat,
     (row < GAME_CONFIG.enemies.rows)%nat → (col < GAME_CONFIG.enemies.cols)%nat →
     GameLogic.createEnemyGrid !! (row * GAME_CONFIG.enemies.cols + col)%nat =
       Some (Enemy.mk (Z.of_nat col * 60 + 50) (Z.of_nat row * 45 + 50) 40 30 1 true 1 0
                      (Z.of_nat row) (Z.of_nat col))) ∧
  (∀ (i j : nat) (e1 e2 : Enemy.t),
     i ≠ j → GameLogic.createEnemyGrid !! i = Some e1 →
     GameLogic.createEnemyGrid !! j = Some e2 →
     GameLogic.checkCollision e1 e2 = false) ∧
  (∀ e : Enemy.t, e ∈ GameLogic.createEnemyGrid →
     0 < Enemy.x e ∧ Enemy.x e + Enemy.speed e < GAME_CONFIG.canvas.width - Enemy.width e).
Proof.
  split; [reflexivity|]. split; [|split].
  - intros row col Hr Hc.
    assert (Hall : forallb (λ row, forallb (λ col,
              bool_decide (GameLogic.createEnemyGrid !! (row * GAME_CONFIG.enemies.cols + col)%nat =
                Some (Enemy.mk (Z.of_nat col * 60 + 50) (Z.of_nat row * 45 + 50) 40 30 1 true 1 0
                               (Z.of_nat row) (Z.of_nat col))))
              (seq 0 GAME_CONFIG.enemies.cols)) (seq 0 GAME_CONFIG.enemies.rows) = true)
      by (by vm_compute).
    rewrite forallb_forall in Hall. specialize (Hall row).
    rewrite forallb_forall in Hall.
    eapply bool_decide_eq_true_1. apply Hall; apply in_seq;
      unfold GAME_CONFIG.enemies.rows, GAME_CONFIG.enemies.cols in *; lia.
  - intros i j e1 e2 Hij Hi Hj.
    assert (Hall : forallb (λ '(i, e1), forallb (λ '(j, e2),
              bool_decide (i = j) || negb (GameLogic.checkCollision e1 e2))
              (imap (λ j e, (j, e)) GameLogic.createEnemyGrid))
              (imap (λ i e, (i, e)) GameLogic.createEnemyGrid) = true)
      by (by vm_compute).
    rewrite forallb_forall in Hall. specialize (Hall (i, e1)). cbn beta iota in Hall.
    rewrite forallb_forall in Hall. specialize (Hall ltac:(apply list_elem_of_In, elem_of_lookup_imap; by exists i, e1) (j, e2)).
    cbn beta iota in Hall.
    specialize (Hall ltac:(apply list_elem_of_In, elem_of_lookup_imap; by exists j, e2)).
    apply orb_true_iff in Hall as [Heq|Hn]; [by apply bool_decide_eq_true in Heq|].
    by apply negb_true_iff.
  - intros e He.
    assert (Hall : forallb (λ e, (0 <? Enemy.x e) &&
              (Enemy.x e + Enemy.speed e <? GAME_CONFIG.canvas.width - Enemy.width e))
              GameLogic.createEnemyGrid = true) by (by vm_compute).
    rewrite forallb_forall in Hall. apply list_elem_of_In, Hall in He.
    apply andb_true_iff in He as [?%Z.ltb_lt ?%Z.ltb_lt]. done.
Qed.

Lemma createEnemyGrid_layout_witness :
  GameLogic.createEnemyGrid !! 10%nat =
    Some (Enemy.mk 50 95 40 30 1 true 1 0 1 0).
Proof.
  destruct createEnemyGrid_layout as (_ & Hat & _).
  apply (Hat 1%nat 0%nat); unfold GAME_CONFIG.enemies.rows, GAME_CONFIG.enemies.cols; lia.
Defined.

End GridFacts.

(** ** Array-based bullets and particles *)

Section ProjectileFacts.
Local Open Scope Z_scope.

Lemma updateBullets_elem (bullets : list Bullet.t) (b' : Bullet.t) :
  b' ∈ GameLogic.updateBullets bullets ↔
  ∃ b, b ∈ bullets ∧
       b' = Bullet.mk (Bullet.x b) (Bullet.y b - Bullet.speed b) (Bullet.width b)
                      (Bullet.height b) (Bullet.speed b) (Bullet.active b) ∧
       - Bullet.height b < Bullet.y b - Bullet.speed b.
Proof.
  unfold GameLogic.updateBullets.
  rewrite list_elem_of_In, filter_In, in_map_iff. split.
  - intros [(b & <- & Hin) Hy]. exists b. rewrite list_elem_of_In.
    cbn in Hy. apply Z.gtb_gt in Hy. repeat split; [done|lia].
  - intros (b & Hin & -> & Hy). split.
    + exists b. by rewrite <- list_elem_of_In.
    + cbn. apply Z.gtb_gt. lia.
Qed.

(** X6.  One step of [updateBullets] returns, in the order of the input and
    each once, the bullets whose moved [y] is above [-height], moved up by
    their speed; nothing else of a bullet changes.  So a bullet is in the
    result exactly when it is such a moved bullet, no bullet is added, every
    returned bullet is above [-height], and when none is culled the result is
    the whole input list moved. *)
Theorem updateBullets_moves_and_culls (bullets : list Bullet.t) :
  let moved (b : Bullet.t) :=
    Bullet.mk (Bullet.x b) (Bullet.y b - Bullet.speed b) (Bullet.width b)
              (Bullet.height b) (Bullet.speed b) (Bullet.active b) in
  GameLogic.updateBullets bullets =
    moved <$> filter (λ b, - Bullet.height b < Bullet.y b - Bullet.speed b) bullets ∧
  (∀ b' : Bullet.t,
     b' ∈ GameLogic.updateBullets bullets ↔
     ∃ b, b ∈ bullets ∧ b' = moved b ∧
          - Bullet.height b < Bullet.y b - Bullet.speed b) ∧
  (length (GameLogic.updateBullets bullets) ≤ length bullets)%nat ∧
  Forall (λ b', - Bullet.height b' < Bullet.y b') (GameLogic.updateBullets bullets) ∧
  (Forall (λ b, - Bullet.height b < Bullet.y b - Bullet.speed b) bullets →
   GameLogic.updateBullets bullets = moved <$> bullets).
Proof.
  intros moved.
  assert (Hexact : GameLogic.updateBullets bullets =
            moved <$> filter (λ b, - Bullet.height b < Bullet.y b - Bullet.speed b) bullets).
  { unfold GameLogic.updateBullets. fold moved.
    induction bullets as [|b bs IH]; [done|]. cbn [map List.filter].
    rewrite filter_cons. cbn [Bullet.y Bullet.height moved] in *.
    destruct (Z.gtb_spec (Bullet.y b - Bullet.speed b) (- Bullet.height b));
      case_decide; try lia; rewrite IH; reflexivity. }
  split; [exact Hexact|]. split; [intros b'; apply updateBullets_elem|]. split; [|split].
  - unfold GameLogic.updateBullets.
    etrans; [apply List.filter_length_le|]. by rewrite length_map.
  - apply Forall_forall. intros b' (b & _ & -> & Hy)%updateBullets_elem. done.
  - intros Hall. rewrite Hexact. f_equal. clear Hexact.
    induction Hall as [|b bs Hb Hbs IH]; [done|].
    rewrite filter_cons. case_decide; [|lia]. rewrite IH. reflexivity.
Qed.

(** X7.  Bullets that move up (speed at least 1) all leave: when every
    bullet has [y + height <= n] for some [n >= 1], the list is empty after
    [n] steps of [updateBullets]. *)
Theorem updateBullets_eventually_empty (n : nat) (bullets : list Bullet.t) :
  (1 ≤ n)%nat →
  Forall (λ b, 1 <= Bullet.speed b ∧ Bullet.y b + Bullet.height b <= Z.of_nat n) bullets →
  Nat.iter n GameLogic.updateBullets bullets = [].
Proof.
  intros Hn. destruct n as [|n]; [lia|]. clear Hn.
  revert bullets. induction n as [|n IH]; intros bullets Hall.
  - cbn. destruct (GameLogic.updateBullets bullets) as [|b' l] eqn:Hu; [done|].
    assert (Hin : b' ∈ GameLogic.updateBullets bullets) by (rewrite Hu; left).
    apply updateBullets_elem in Hin as (b & Hb & _ & Hy).
    rewrite Forall_forall in Hall. apply Hall in Hb. lia.
  - rewrite Nat.iter_succ_r. apply IH. apply Forall_forall.
    intros b' (b & Hb & -> & Hy)%updateBullets_elem.
    rewrite Forall_forall in Hall. apply Hall in Hb. cbn. lia.
Qed.

Lemma updateBullets_eventually_empty_witness :
  (1 ≤ 3)%nat ∧
  Forall (λ b, 1 <= Bullet.speed b ∧ Bullet.y b + Bullet.height b <= Z.of_nat 3)
         [Bullet.mk 10 (-8) 4 10 7 true; Bullet.mk 20 (-9) 4 10 1 true] ∧
  Nat.iter 3 GameLogic.updateBullets
           [Bullet.mk 10 (-8) 4 10 7 true; Bullet.mk 20 (-9) 4 10 1 true] = [].
Proof.
  assert (Hn : (1 ≤ 3)%nat) by lia.
  assert (Hall : Forall (λ b, 1 <= Bullet.speed b ∧
                              Bullet.y b + Bullet.height b <= Z.of_nat 3)
                        [Bullet.mk 10 (-8) 4 10 7 true; Bullet.mk 20 (-9) 4 10 1 true]).
  { repeat constructor; cbn; lia. }
  split; [exact Hn|]. split; [exact Hall|].
  exact (updateBullets_eventually_empty 3 _ Hn Hall).
Defined.

Lemma updateParticles_elem (particles : list Particle.t) (p' : Particle.t) :
  p' ∈ GameLogic.updateParticles particles ↔
  ∃ p, p ∈ particles ∧
       p' = Particle.mk (Particle.x p + Particle.vx p) (Particle.y p + Particle.vy p)
                        (Particle.vx p) (Particle.vy p) (Particle.life p - 1)
                        (Particle.maxLife p) (Particle.color p) ∧
       1 < Particle.life p.
Proof.
  unfold GameLogic.updateParticles.
  rewrite list_elem_of_In, filter_In, in_map_iff. split.
  - intros [(p & <- & Hin) Hl]. exists p. rewrite list_elem_of_In.
    cbn in Hl. apply Z.gtb_gt in Hl. repeat split; [done|lia].
  - intros (p & Hin & -> & Hl). split.
    + exists p. by rewrite <- list_elem_of_In.
    + cbn. apply Z.gtb_gt. lia.
Qed.

(** X8.  One step of [updateParticles] returns, in the order of the input
    and each once, the particles that had more than one unit of life, advanced
    by their velocity and with one unit of life taken; so a particle is in the
    result exactly when it is such an aged particle, and every particle
    returned has positive life.  A particle list whose lives are at most
    [n >= 1] is empty after [n] steps. *)
Theorem updateParticles_ages_and_culls (n : nat) (particles : list Particle.t) :
  let aged (p : Particle.t) :=
    Particle.mk (Particle.x p + Particle.vx p) (Particle.y p + Particle.vy p)
                (Particle.vx p) (Particle.vy p) (Particle.life p - 1)
                (Particle.maxLife p) (Particle.color p) in
  GameLogic.updateParticles particles =
    aged <$> filter (λ p, 1 < Particle.life p) particles ∧
  (∀ p' : Particle.t,
     p' ∈ GameLogic.updateParticles particles ↔
     ∃ p, p ∈ particles ∧ p' = aged p ∧ 1 < Particle.life p) ∧
  Forall (λ p', 0 < Particle.life p') (GameLogic.updateParticles particles) ∧
  ((1 ≤ n)%nat → Forall (λ p, Particle.life p <= Z.of_nat n) particles →
   Nat.iter n GameLogic.updateParticles particles = []).
Proof.
  intros aged. split; [|split; [intros p'; apply updateParticles_elem|split]].
  - unfold GameLogic.updateParticles. fold aged.
    induction particles as [|p ps IH]; [done|]. cbn [map List.filter].
    rewrite filter_cons. cbn [Particle.life aged] in *.
    destruct (Z.gtb_spec (Particle.life p - 1) 0);
      case_decide; try lia; rewrite IH; reflexivity.
  - apply Forall_forall. intros p' (p & _ & -> & Hl)%updateParticles_elem. cbn. lia.
  - intros Hn. destruct n as [|n]; [lia|]. clear Hn.
    revert particles. induction n as [|n IH]; intros particles Hall.
    + cbn. destruct (GameLogic.updateParticles particles) as [|p' l] eqn:Hu; [done|].
      assert (Hin : p' ∈ GameLogic.updateParticles particles) by (rewrite Hu; left).
      apply updateParticles_elem in Hin as (p & Hp & _ & Hl).
      rewrite Forall_forall in Hall. apply Hall in Hp. lia.
    + rewrite Nat.iter_succ_r. apply IH. apply Forall_forall.
      intros p' (p & Hp & -> & Hl)%updateParticles_elem.
      rewrite Forall_forall in Hall. apply Hall in Hp. cbn. lia.
Qed.

Lemma updateParticles_ages_and_culls_witness :
  (1 ≤ 2)%nat ∧
  Forall (λ p, Particle.life p <= Z.of_nat 2)
         [Particle.mk 5 5 1 (-1) 2 30 "#ff0000"; Particle.mk 5 5 0 0 1 30 "#ff0000"] ∧
  Nat.iter 2 GameLogic.updateParticles
           [Particle.mk 5 5 1 (-1) 2 30 "#ff0000"; Particle.mk 5 5 0 0 1 30 "#ff0000"] = [].
Proof.
  assert (Hn : (1 ≤ 2)%nat) by lia.
  assert (Hall : Forall (λ p, Particle.life p <= Z.of_nat 2)
            [Particle.mk 5 5 1 (-1) 2 30 "#ff0000"; Particle.mk 5 5 0 0 1 30 "#ff0000"]).
  { repeat constructor; cbn; lia. }
  split; [exact Hn|]. split; [exact Hall|].
  destruct (updateParticles_ages_and_culls 2
              [Particle.mk 5 5 1 (-1) 2 30 "#ff0000"; Particle.mk 5 5 0 0 1 30 "#ff0000"])
    as (_ & _ & _ & Hempty).
  exact (Hempty Hn Hall).
Defined.

End ProjectileFacts.

(** ** The formation as a rigid group *)

Section RigidFormationFacts.
Local Open Scope Z_scope.

Lemma moveEnemy_keeps (flag : bool) (e : Enemy.t) :
  Enemy.active (GameLogic.moveEnemy flag e) = Enemy.active e ∧
  Enemy.width (GameLogic.moveEnemy flag e) = Enemy.width e ∧
  Enemy.height (GameLogic.moveEnemy flag e) = Enemy.height e ∧
  Enemy.speed (GameLogic.moveEnemy flag e) = Enemy.speed e ∧
  Enemy.y e <= Enemy.y (GameLogic.moveEnemy flag e) ∧
  (Enemy.direction (GameLogic.moveEnemy flag e) = Enemy.direction e ∨
   Enemy.direction (GameLogic.moveEnemy flag e) = - Enemy.direction e).
Proof.
  unfold GameLogic.moveEnemy, GAME_CONFIG.enemies.dropDistance.
  destruct (Enemy.active e) eqn:Ha, flag; cbn; repeat split; try done; lia.
Qed.

(** X9.  [updateEnemyPositions] never activates or deactivates an enemy,
    never resizes one, never changes a speed and never moves one up; a
    direction is kept or negated, so directions in {-1, +1} stay there; the
    level is complete afterwards exactly when it was before.  Active enemies
    with the same horizontal step ([speed * direction]) move as a rigid
    group: their offsets from each other, and so whether they overlap, are
    unchanged, on a step tick and on a drop tick alike. *)
Theorem updateEnemyPositions_rigid_group (enemies : list Enemy.t) :
  let updated := (GameLogic.updateEnemyPositions enemies).2 in
  Forall2 (λ e e',
             Enemy.active e' = Enemy.active e ∧ Enemy.width e' = Enemy.width e ∧
             Enemy.height e' = Enemy.height e ∧ Enemy.speed e' = Enemy.speed e ∧
             Enemy.y e <= Enemy.y e' ∧
             (Enemy.direction e' = Enemy.direction e ∨
              Enemy.direction e' = - Enemy.direction e))
          enemies updated ∧
  GameLogic.isLevelComplete updated = GameLogic.isLevelComplete enemies ∧
  (∀ (i j : nat) (e1 e2 e1' e2' : Enemy.t),
     enemies !! i = Some e1 → enemies !! j = Some e2 →
     updated !! i = Some e1' → updated !! j = Some e2' →
     Enemy.active e1 = true → Enemy.active e2 = true →
     Enemy.speed e1 * Enemy.direction e1 = Enemy.speed e2 * Enemy.direction e2 →
     Enemy.x e1' - Enemy.x e2' = Enemy.x e1 - Enemy.x e2 ∧
     Enemy.y e1' - Enemy.y e2' = Enemy.y e1 - Enemy.y e2 ∧
     GameLogic.checkCollision e1' e2' = GameLogic.checkCollision e1 e2).
Proof.
  intros updated.
  assert (Hup : updated = map (GameLogic.moveEnemy (GameLogic.updateEnemyPositions enemies).1)
                              enemies) by reflexivity.
  set (flag := (GameLogic.updateEnemyPositions enemies).1) in *. clearbody flag updated.
  subst updated. split; [|split].
  - apply Forall2_fmap_r, Forall_Forall2_diag, Forall_forall.
    intros e _. apply moveEnemy_keeps.
  - unfold GameLogic.isLevelComplete. induction enemies as [|e es IH]; [done|].
    cbn. rewrite IH. by destruct (moveEnemy_keeps flag e) as (-> & _).
  - intros i j e1 e2 e1' e2' Hi Hj Hi' Hj' Ha1 Ha2 Hstep.
    rewrite list_lookup_fmap, Hi in Hi'. rewrite list_lookup_fmap, Hj in Hj'.
    cbn in Hi', Hj'. injection Hi' as <-. injection Hj' as <-.
    assert (Hxy : Enemy.x (GameLogic.moveEnemy flag e1) - Enemy.x (GameLogic.moveEnemy flag e2) =
                    Enemy.x e1 - Enemy.x e2 ∧
                  Enemy.y (GameLogic.moveEnemy flag e1) - Enemy.y (GameLogic.moveEnemy flag e2) =
                    Enemy.y e1 - Enemy.y e2).
    { unfold GameLogic.moveEnemy. rewrite Ha1, Ha2. destruct flag; cbn; lia. }
    destruct Hxy as [Hx Hy]. split; [done|]. split; [done|].
    destruct (moveEnemy_keeps flag e1) as (_ & Hw1 & Hh1 & _).
    destruct (moveEnemy_keeps flag e2) as (_ & Hw2 & Hh2 & _).
    apply eq_true_iff_eq.
    rewrite (checkCollision_true (GameLogic.moveEnemy flag e1) (GameLogic.moveEnemy flag e2)).
    rewrite (checkCollision_true e1 e2).
    unfold collisionBox, enemy_box. cbn. lia.
Qed.

Lemma updateEnemyPositions_rigid_group_witness :
  let enemies := [Enemy.mk 760 50 40 30 1 true 1 0 0 0; Enemy.mk 700 50 40 30 1 true 1 0 0 1] in
  ∃ e1' e2',
    (GameLogic.updateEnemyPositions enemies).2 !! 0%nat = Some e1' ∧
    (GameLogic.updateEnemyPositions enemies).2 !! 1%nat = Some e2' ∧
    Enemy.x e1' - Enemy.x e2' = 60.
Proof.
  intros enemies.
  destruct (updateEnemyPositions_rigid_group enemies) as (_ & _ & Hrigid).
  eexists _, _. split; [reflexivity|]. split; [reflexivity|].
  destruct (Hrigid 0%nat 1%nat _ _ _ _ eq_refl eq_refl eq_refl eq_refl eq_refl eq_refl eq_refl)
    as (Hx & _).
  exact Hx.
Defined.

End RigidFormationFacts.

(** ** More on the object pool *)

Section PoolLifecycleFacts.
Context {T : Type} `{Poolable T}.
Import ObjectPool.

Implicit Types (p q : ObjectPool.t T) (obj o : ref).
Local Arguments Nat.ltb : simpl never.

Lemma indexOf_snoc_fresh o (l : list ref) :
  (o ∉ l) → indexOf o (l ++ [o]) = Some (length l).
Proof.
  induction l as [|a l IH]; intros Hn; cbn.
  - by rewrite decide_True.
  - apply not_elem_of_cons in Hn as [Hne Hn].
    rewrite decide_False by done. by rewrite IH.
Qed.

Lemma get_Some p o :
  wellFormed p → (get p).1 = Some o →
  active (get p).2 = active p ++ [o] ∧ (o ∉ active p) ∧
  ((pool p = removelast (pool p) ++ [o] ∧ pool (get p).2 = removelast (pool p) ∧
    store (get p).2 = store p) ∨
   (pool p = [] ∧ pool (get p).2 = [] ∧ o = length (store p) ∧
    store (get p).2 = store p ++ [createFn p])).
Proof.
  intros [Hnd Hb] Ho. destruct (last (pool p)) as [o'|] eqn:Hl.
  - rewrite (get_from_free p o' Hl) in *. cbn in *. injection Ho as ->.
    pose proof (last_Some_snoc _ _ Hl) as Hp. split; [done|]. split; [|by left].
    rewrite Hp in Hnd. apply NoDup_app in Hnd as (_ & Hdis & _).
    apply Hdis. apply elem_of_app. right. left.
  - apply last_None in Hl.
    destruct (Nat.lt_ge_cases (length (active p)) (maxSize p)) as [Hlt|Hge].
    + rewrite (get_fresh p Hl Hlt) in *. cbn in *. injection Ho as <-.
      split; [done|]. split; [|by right].
      intros Hin. specialize (Hb (length (store p))). rewrite Hl in Hb. cbn in Hb.
      apply Hb in Hin. lia.
    + by rewrite (get_exhausted p Hl Hge) in Ho.
Qed.

End PoolLifecycleFacts.

(** X10.  In a well-formed pool (no instance tracked twice, as in every pool
    reached from the constructor) [get] never hands out an instance that is
    already active: the instance returned was free, or is newly created when
    nothing was free, and it becomes the last active one. *)
Theorem get_returns_free_or_new_instance {T : Type} `{Poolable T}
    (p : ObjectPool.t T) (o : ObjectPool.ref) :
  ObjectPool.wellFormed p → (ObjectPool.get p).1 = Some o →
  (o ∉ ObjectPool.active p) ∧
  ObjectPool.active (ObjectPool.get p).2 = ObjectPool.active p ++ [o] ∧
  (last (ObjectPool.pool p) = Some o ∨
   (ObjectPool.pool p = [] ∧ o = length (ObjectPool.store p) ∧
    ObjectPool.store (ObjectPool.get p).2 !! o = Some (ObjectPool.createFn p))) ∧
  ObjectPool.wellFormed (ObjectPool.get p).2.
Proof.
  intros Hwf Ho. destruct (get_Some p o Hwf Ho) as (Ha & Hn & Hcase).
  split; [done|]. split; [done|]. split.
  - destruct Hcase as [(Hp & _ & _)|(Hp & _ & -> & Hs)].
    + left. rewrite Hp. apply last_snoc.
    + right. split; [done|]. split; [done|].
      rewrite Hs. by rewrite lookup_app_r, Nat.sub_diag.
  - apply (call_wellFormed ObjectPool.CallGet p Hwf).
Qed.

Lemma get_returns_free_or_new_instance_witness :
  ObjectPool.wellFormed ObjectPool.bulletPool ∧
  (ObjectPool.get ObjectPool.bulletPool).1 = Some 19%nat ∧
  ObjectPool.active (ObjectPool.get ObjectPool.bulletPool).2 = [19%nat].
Proof.
  assert (Hwf : ObjectPool.wellFormed ObjectPool.bulletPool) by apply new_wellFormed.
  assert (Hget : (ObjectPool.get ObjectPool.bulletPool).1 = Some 19%nat) by (by vm_compute).
  split; [exact Hwf|]. split; [exact Hget|].
  destruct (get_returns_free_or_new_instance ObjectPool.bulletPool 19%nat Hwf Hget)
    as (_ & Hactive & _).
  exact Hactive.
Defined.

(** X11.  Taking an instance and releasing it again restores the two lists:
    the active list is as before, and the free list is as before when the
    instance came from it, or holds just the new instance when it was
    created; the instance itself has been reset. *)
Theorem get_release_round_trip {T : Type} `{Poolable T}
    (p : ObjectPool.t T) (o : ObjectPool.ref) :
  ObjectPool.wellFormed p → (ObjectPool.get p).1 = Some o →
  let q := ObjectPool.release o (ObjectPool.get p).2 in
  ObjectPool.active q = ObjectPool.active p ∧
  (ObjectPool.pool p ≠ [] → ObjectPool.pool q = ObjectPool.pool p) ∧
  (ObjectPool.pool p = [] → ObjectPool.pool q = [o]) ∧
  ObjectPool.store q !! o = reset <$> ObjectPool.store (ObjectPool.get p).2 !! o.
Proof.
  intros Hwf Ho q. destruct (get_Some p o Hwf Ho) as (Ha & Hn & Hcase).
  subst q. unfold ObjectPool.release. rewrite Ha, (indexOf_snoc_fresh o _ Hn).
  unfold ObjectPool.reclaim, ObjectPool.pushPool, ObjectPool.mutate,
    ObjectPool.withActive, ObjectPool.withPool, ObjectPool.withStore. cbn.
  rewrite Ha. split; [|split; [|split]].
  - by rewrite (delete_middle (ObjectPool.active p) [] o), app_nil_r.
  - intros Hne. destruct Hcase as [(Hp & -> & _)|(Hp & _)]; [by rewrite <- Hp|done].
  - intros Hnil. destruct Hcase as [(Hp & _)|(_ & -> & _)]; [|done].
    rewrite Hnil in Hp. by destruct (removelast []).
  - apply list_lookup_alter_eq.
Qed.

Lemma get_release_round_trip_witness :
  ObjectPool.wellFormed ObjectPool.bulletPool ∧
  (ObjectPool.get ObjectPool.bulletPool).1 = Some 19%nat ∧
  ObjectPool.pool (ObjectPool.release 19 (ObjectPool.get ObjectPool.bulletPool).2) =
    ObjectPool.pool ObjectPool.bulletPool.
Proof.
  assert (Hwf : ObjectPool.wellFormed ObjectPool.bulletPool) by apply new_wellFormed.
  assert (Hget : (ObjectPool.get ObjectPool.bulletPool).1 = Some 19%nat) by (by vm_compute).
  split; [exact Hwf|]. split; [exact Hget|].
  destruct (get_release_round_trip ObjectPool.bulletPool 19%nat Hwf Hget) as (_ & Hpool & _).
  apply Hpool. by vm_compute.
Defined.

Section PoolReapFacts.
Context {T : Type} `{Poolable T}.
Import ObjectPool.

Implicit Types (p q : ObjectPool.t T) (obj o r : ref).

Lemma filter_ext_elem {X} (P Q : X → Prop) `{∀ x, Decision (P x), ∀ x, Decision (Q x)}
    (l : list X) :
  (∀ x, x ∈ l → (P x ↔ Q x)) → filter P l = filter Q l.
Proof.
  induction l as [|a l IH]; intros Hpq; [done|].
  rewrite !filter_cons.
  assert (Ha : P a ↔ Q a) by (apply Hpq; left).
  rewrite IH by (intros x Hx; apply Hpq; by right).
  destruct (decide (P a)), (decide (Q a)); tauto.
Qed.

Lemma reclaim_isActive_other p (i : nat) obj r :
  r ≠ obj → objIsActive (reclaim i obj p) r = objIsActive p r.
Proof.
  intros Hne. unfold objIsActive, reclaim, pushPool, mutate, withActive, withPool, withStore.
  cbn. by rewrite list_lookup_alter_ne.
Qed.

Lemma NoDup_lookup_take_ne (l : list ref) (i : nat) obj r :
  NoDup l → l !! i = Some obj → r ∈ take i l → r ≠ obj.
Proof.
  intros Hnd Hi Hr ->. apply list_elem_of_lookup in Hr as [j Hj].
  assert (j < i)%nat.
  { apply lookup_lt_Some in Hj. rewrite length_take in Hj. lia. }
  rewrite lookup_take_lt in Hj by done.
  assert (j = i) by (eapply NoDup_lookup; eauto). lia.
Qed.

(** The loop of [update], stopped above index [n]: the indices below [n] have
    been visited. *)
Lemma updateFrom_spec (n : nat) :
  ∀ p, NoDup (active p) → n ≤ length (active p) →
    active (updateFrom n p) =
      filter (λ o, objIsActive p o = true) (take n (active p)) ++ drop n (active p) ∧
    pool (updateFrom n p) =
      pool p ++ reverse (filter (λ o, objIsActive p o = false) (take n (active p))) ∧
    (∀ r, r ∉ filter (λ o, objIsActive p o = false) (take n (active p)) →
          store (updateFrom n p) !! r = store p !! r) ∧
    (∀ r, r ∈ filter (λ o, objIsActive p o = false) (take n (active p)) →
          store (updateFrom n p) !! r = reset <$> store p !! r).
Proof.
  induction n as [|i IH]; intros p Hnd Hn.
  - cbn. rewrite app_nil_r. split; [done|]. split; [done|]. split; [done|].
    intros r Hr. by apply not_elem_of_nil in Hr.
  - cbn [updateFrom].
    destruct (lookup_lt_is_Some_2 (active p) i) as [obj Hi]; [lia|].
    rewrite Hi, (take_S_r _ _ _ Hi), !filter_app, !filter_cons, !filter_nil.
    destruct (objIsActive p obj) eqn:Hact; cbn [negb].
    + rewrite decide_True by done. rewrite decide_False by done.
      destruct (IH p Hnd) as (Ha & Hp & Hs & Hr); [lia|].
      rewrite Ha, Hp, app_nil_r. rewrite (drop_S _ _ _ Hi), <- app_assoc.
      split; [done|]. split; [done|]. split; [exact Hs|exact Hr].
    + rewrite decide_False by done. rewrite decide_True by done.
      assert (Hnd' : NoDup (active (reclaim i obj p))).
      { cbn. by apply (sublist_NoDup _ (active p)); [|apply sublist_delete]. }
      assert (Htake : take i (active (reclaim i obj p)) = take i (active p)).
      { cbn. rewrite delete_take_drop, take_app_length' by (rewrite length_take; lia).
        done. }
      assert (Hdrop : drop i (active (reclaim i obj p)) = drop (S i) (active p)).
      { cbn. rewrite delete_take_drop.
        rewrite drop_app_length' by (rewrite length_take; lia). done. }
      assert (Hother : ∀ r, r ∈ take i (active p) → r ≠ obj)
        by (intros r; by apply NoDup_lookup_take_ne).
      assert (Hf1 : filter (λ o, objIsActive (reclaim i obj p) o = true) (take i (active p)) =
                    filter (λ o, objIsActive p o = true) (take i (active p))).
      { apply filter_ext_elem. intros r Hr.
        by rewrite reclaim_isActive_other by (by apply Hother). }
      assert (Hf2 : filter (λ o, objIsActive (reclaim i obj p) o = false) (take i (active p)) =
                    filter (λ o, objIsActive p o = false) (take i (active p))).
      { apply filter_ext_elem. intros r Hr.
        by rewrite reclaim_isActive_other by (by apply Hother). }
      destruct (IH (reclaim i obj p) Hnd') as (Ha & Hp & Hs & Hr).
      { cbn. rewrite length_delete by (by eexists). lia. }
      rewrite Htake, Hdrop, Hf1 in Ha. rewrite Htake, Hf2 in Hp, Hs, Hr.
      rewrite Ha, Hp, app_nil_r, reverse_snoc. cbn [pool reclaim pushPool withPool].
      rewrite <- app_assoc. split; [done|]. split; [done|]. split.
      * intros r Hnot. rewrite not_elem_of_app, list_elem_of_singleton in Hnot.
        destruct Hnot as [Hnot Hne]. rewrite (Hs r Hnot). cbn.
        by rewrite list_lookup_alter_ne.
      * intros r Hin. apply elem_of_app in Hin as [Hin| ->%list_elem_of_singleton].
        -- rewrite (Hr r Hin). cbn. rewrite list_lookup_alter_ne; [done|].
           apply not_eq_sym, Hother. by apply list_elem_of_filter in Hin as [_ ?].
        -- rewrite Hs; [cbn; apply list_lookup_alter_eq|].
           intros [_ Hin]%list_elem_of_filter. by apply Hother in Hin.
Qed.

End PoolReapFacts.

(** X12.  [update] reaps exactly the instances that report inactive: when no
    instance is active twice, the active list afterwards is what [getActive]
    returned before, in the same order; the reaped instances are appended to
    the free list, last visited first, and each has been reset; no other
    instance is touched, so afterwards [getActive] is the whole active list. *)
Theorem update_reaps_exactly_inactive {T : Type} `{Poolable T} (p : ObjectPool.t T) :
  NoDup (ObjectPool.active p) →
  let inactive := filter (λ o, ObjectPool.objIsActive p o = false) (ObjectPool.active p) in
  ObjectPool.active (ObjectPool.update p) = ObjectPool.getActive p ∧
  ObjectPool.pool (ObjectPool.update p) = ObjectPool.pool p ++ reverse inactive ∧
  (∀ r, r ∈ inactive →
        ObjectPool.store (ObjectPool.update p) !! r = reset <$> ObjectPool.store p !! r) ∧
  (∀ r, r ∉ inactive →
        ObjectPool.store (ObjectPool.update p) !! r = ObjectPool.store p !! r) ∧
  ObjectPool.getActive (ObjectPool.update p) = ObjectPool.active (ObjectPool.update p).
Proof.
  intros Hnd inactive.
  destruct (updateFrom_spec (length (ObjectPool.active p)) p Hnd) as (Ha & Hp & Hs & Hr);
    [done|].
  rewrite firstn_all, drop_all, app_nil_r in Ha. rewrite firstn_all in Hp, Hs, Hr.
  fold (ObjectPool.update p) in Ha, Hp, Hs, Hr. fold inactive in Hp, Hs, Hr.
  split; [exact Ha|]. split; [exact Hp|]. split; [exact Hr|]. split; [exact Hs|].
  unfold ObjectPool.getActive at 1. rewrite Ha. unfold ObjectPool.getActive.
  set (l := ObjectPool.active p). clearbody l.
  induction l as [|a l IH]; [done|]. rewrite filter_cons.
  case_decide as Hact; [|exact IH].
  rewrite filter_cons_True, IH; [done|].
  unfold ObjectPool.objIsActive in *. rewrite Hs; [done|].
  intros [Hin _]%list_elem_of_filter. unfold ObjectPool.objIsActive in Hin. congruence.
Qed.

(** Three bullets taken from a pool, the first and the third initialised and
    the middle one never: [update] keeps the two in order and frees the middle
    one. *)
Lemma update_reaps_exactly_inactive_witness :
  let p := ObjectPool.calls
             [ObjectPool.CallGet; ObjectPool.CallGet; ObjectPool.CallGet;
              ObjectPool.CallMutate 4 (PooledBullet.init 100 100);
              ObjectPool.CallMutate 2 (PooledBullet.init 120 100)]
             (ObjectPool.new newPooledBullet 5 10) in
  NoDup (ObjectPool.active p) ∧
  ObjectPool.active p = [4; 3; 2]%nat ∧
  ObjectPool.active (ObjectPool.update p) = [4; 2]%nat.
Proof.
  intros p.
  assert (Hnd : NoDup (ObjectPool.active p)).
  { destruct (calls_wellFormed
                [ObjectPool.CallGet; ObjectPool.CallGet; ObjectPool.CallGet;
                 ObjectPool.CallMutate 4 (PooledBullet.init 100 100);
                 ObjectPool.CallMutate 2 (PooledBullet.init 120 100)]
                newPooledBullet 5 10) as [Hnd _].
    by apply NoDup_app in Hnd as (_ & _ & ?). }
  split; [exact Hnd|]. split; [by vm_compute|].
  destruct (update_reaps_exactly_inactive p Hnd) as (Hactive & _).
  rewrite Hactive. by vm_compute.
Defined.

Section PoolReleaseAllFacts.
Context {T : Type} `{Poolable T}.
Import ObjectPool.

Lemma releaseAll_store (l : list ref) :
  ∀ q : ObjectPool.t T, NoDup l →
    let q' := foldl (λ p obj, pushPool obj (mutate obj reset p)) q l in
    (∀ r, r ∈ l → store q' !! r = reset <$> store q !! r) ∧
    (∀ r, r ∉ l → store q' !! r = store q !! r).
Proof.
  induction l as [|a l IH]; intros q Hnd; cbn.
  - split; [intros r Hr; by apply not_elem_of_nil in Hr|done].
  - apply NoDup_cons in Hnd as [Ha Hnd].
    destruct (IH (pushPool a (mutate a reset q)) Hnd) as [Hin Hout]. split.
    + intros r [->|Hr]%elem_of_cons.
      * rewrite (Hout a Ha). cbn. apply list_lookup_alter_eq.
      * rewrite (Hin r Hr). cbn. rewrite list_lookup_alter_ne; [done|].
        by intros ->.
    + intros r [Hne Hr]%not_elem_of_cons. rewrite (Hout r Hr). cbn.
      by rewrite list_lookup_alter_ne.
Qed.

End PoolReleaseAllFacts.

(** X13.  [releaseAll] leaves no instance active and appends the active
    instances, in order, to the free list; when no instance is active twice,
    each of them has been reset once and no other instance is touched.  The
    next [get] hands out the instance that was last in the active list. *)
Theorem releaseAll_frees_and_resets {T : Type} `{Poolable T} (p : ObjectPool.t T) :
  NoDup (ObjectPool.active p) →
  ObjectPool.active (ObjectPool.releaseAll p) = [] ∧
  ObjectPool.pool (ObjectPool.releaseAll p) = ObjectPool.pool p ++ ObjectPool.active p ∧
  ObjectPool.getActive (ObjectPool.releaseAll p) = [] ∧
  (∀ r, r ∈ ObjectPool.active p →
        ObjectPool.store (ObjectPool.releaseAll p) !! r = reset <$> ObjectPool.store p !! r) ∧
  (∀ r, r ∉ ObjectPool.active p →
        ObjectPool.store (ObjectPool.releaseAll p) !! r = ObjectPool.store p !! r) ∧
  (ObjectPool.active p ≠ [] →
   (ObjectPool.get (ObjectPool.releaseAll p)).1 = last (ObjectPool.active p)).
Proof.
  intros Hnd. destruct (releaseAll_shape p) as (Hp & Ha & _ & _).
  destruct (releaseAll_store (ObjectPool.active p) p Hnd) as [Hin Hout].
  split; [done|]. split; [done|]. split.
  { unfold ObjectPool.getActive. by rewrite Ha. }
  split; [exact Hin|]. split; [exact Hout|].
  intros Hne. destruct (last (ObjectPool.active p)) as [o|] eqn:Hl.
  - rewrite (get_from_free (ObjectPool.releaseAll p) o); [done|].
    rewrite Hp, (last_Some_snoc _ _ Hl), app_assoc. apply last_snoc.
  - by apply last_None in Hl.
Qed.

Lemma releaseAll_frees_and_resets_witness :
  let p := ObjectPool.calls [ObjectPool.CallGet; ObjectPool.CallGet; ObjectPool.CallGet]
                            (ObjectPool.new newPooledBullet 5 10) in
  NoDup (ObjectPool.active p) ∧
  length (ObjectPool.pool (ObjectPool.releaseAll p)) = 5%nat ∧
  ObjectPool.active (ObjectPool.releaseAll p) = [].
Proof.
  intros p.
  assert (Hnd : NoDup (ObjectPool.active p)).
  { destruct (calls_wellFormed
                [ObjectPool.CallGet; ObjectPool.CallGet; ObjectPool.CallGet]
                newPooledBullet 5 10) as [Hnd _].
    by apply NoDup_app in Hnd as (_ & _ & ?). }
  split; [exact Hnd|].
  destruct (releaseAll_frees_and_resets p Hnd) as (Hactive & Hpool & _).
  split; [rewrite Hpool; by vm_compute|exact Hactive].
Defined.

(** ** Pooled bullets and particles *)

Section PooledEntityFacts.
Local Open Scope Z_scope.

Lemma PooledBullet_update_active (b : Bullet.t) :
  Bullet.active (PooledBullet.update b) = true →
  Bullet.active b = true ∧
  Bullet.y (PooledBullet.update b) = Bullet.y b - Bullet.speed b ∧
  - Bullet.height b <= Bullet.y b - Bullet.speed b.
Proof.
  unfold PooledBullet.update. destruct (Bullet.active b) eqn:Ha; [|congruence].
  cbn. destruct (Z.ltb_spec (Bullet.y b - Bullet.speed b) (- Bullet.height b)); [done|].
  intros _. repeat split; lia.
Qed.

Lemma PooledBullet_update_keeps (n : nat) (b : Bullet.t) :
  Bullet.height (Nat.iter n PooledBullet.update b) = Bullet.height b ∧
  Bullet.speed (Nat.iter n PooledBullet.update b) = Bullet.speed b ∧
  Bullet.x (Nat.iter n PooledBullet.update b) = Bullet.x b ∧
  Bullet.width (Nat.iter n PooledBullet.update b) = Bullet.width b.
Proof.
  induction n as [|n IH]; [done|]. rewrite Nat.iter_succ.
  destruct IH as (Hh & Hs & Hx & Hw). unfold PooledBullet.update at 1 3 5 7.
  destruct (Bullet.active _); cbn; by rewrite ?Hh, ?Hs, ?Hx, ?Hw.
Qed.

(** X14.  A pooled bullet that is active and does not move down (speed at
    least 0) reports active after [n] calls of its [update] exactly when
    [y - n * speed] is still above [-height]; until then each call only
    lowers [y] by the speed.  A reset bullet reports inactive, an initialised
    one is flagged active at the given position. *)
Theorem PooledBullet_active_until_off_screen (n : nat) (b : Bullet.t) :
  Bullet.active b = true → 0 <= Bullet.speed b →
  (isActive (Nat.iter n PooledBullet.update b) = true ↔
     - Bullet.height b < Bullet.y b - Z.of_nat n * Bullet.speed b) ∧
  (- Bullet.height b < Bullet.y b - Z.of_nat n * Bullet.speed b →
     Nat.iter n PooledBullet.update b =
       Bullet.mk (Bullet.x b) (Bullet.y b - Z.of_nat n * Bullet.speed b) (Bullet.width b)
                 (Bullet.height b) (Bullet.speed b) true) ∧
  isActive (reset b) = false ∧
  (∀ x y, Bullet.active (PooledBullet.init x y b) = true ∧
          Bullet.x (PooledBullet.init x y b) = x ∧ Bullet.y (PooledBullet.init x y b) = y).
Proof.
  intros Ha Hs.
  assert (Hfwd : ∀ k, - Bullet.height b < Bullet.y b - Z.of_nat k * Bullet.speed b →
            Nat.iter k PooledBullet.update b =
              Bullet.mk (Bullet.x b) (Bullet.y b - Z.of_nat k * Bullet.speed b)
                        (Bullet.width b) (Bullet.height b) (Bullet.speed b) true).
  { induction k as [|k IH]; intros Hy.
    - destruct b. cbn in *. subst. f_equal. lia.
    - rewrite Nat.iter_succ, IH by nia. unfold PooledBullet.update. cbn.
      destruct (Z.ltb_spec (Bullet.y b - Z.of_nat k * Bullet.speed b - Bullet.speed b)
                           (- Bullet.height b)); [lia|].
      f_equal. lia. }
  assert (Hbwd : ∀ k, Bullet.active (Nat.iter k PooledBullet.update b) = true →
            Bullet.y (Nat.iter k PooledBullet.update b) =
              Bullet.y b - Z.of_nat k * Bullet.speed b).
  { induction k as [|k IH]; intros Hk; [cbn; lia|].
    rewrite Nat.iter_succ in *.
    apply PooledBullet_update_active in Hk as (Hk & -> & _).
    rewrite (IH Hk). destruct (PooledBullet_update_keeps k b) as (_ & -> & _). lia. }
  split; [|split; [exact (Hfwd n)|split; [done|done]]].
  split.
  - intros Hact. cbn in Hact. apply andb_true_iff in Hact as [Hact Hy].
    apply Z.gtb_gt in Hy. rewrite (Hbwd n Hact) in Hy.
    destruct (PooledBullet_update_keeps n b) as (Hh & _). rewrite Hh in Hy. lia.
  - intros Hy. rewrite (Hfwd n Hy). cbn. apply Z.gtb_gt. lia.
Qed.

Lemma PooledBullet_active_until_off_screen_witness :
  let b := PooledBullet.init 398 550 newPooledBullet in
  Bullet.active b = true ∧ 0 <= Bullet.speed b ∧
  isActive (Nat.iter 79 PooledBullet.update b) = true ∧
  isActive (Nat.iter 80 PooledBullet.update b) = false.
Proof.
  intros b.
  assert (Ha : Bullet.active b = true) by reflexivity.
  assert (Hs : 0 <= Bullet.speed b) by (by vm_compute).
  split; [exact Ha|]. split; [exact Hs|].
  destruct (PooledBullet_active_until_off_screen 79 b Ha Hs) as ((_ & Hon) & _).
  destruct (PooledBullet_active_until_off_screen 80 b Ha Hs) as ((Hoff & _) & _).
  split.
  - apply Hon. by vm_compute.
  - apply not_true_is_false. intros Hact. apply Hoff in Hact.
    vm_compute in Hact. discriminate.
Defined.

Lemma PooledParticle_update_life (n : nat) (p : Particle.t) :
  Particle.life (Nat.iter n PooledParticle.update p) =
    if Particle.life p <=? 0 then Particle.life p
    else Z.max 0 (Particle.life p - Z.of_nat n).
Proof.
  induction n as [|n IH].
  - cbn. destruct (Z.leb_spec (Particle.life p) 0); lia.
  - rewrite Nat.iter_succ. set (q := Nat.iter n PooledParticle.update p) in *.
    unfold PooledParticle.update.
    destruct (Z.gtb_spec (Particle.life q) 0) as [Hq|Hq]; cbn; rewrite IH in *;
      destruct (Z.leb_spec (Particle.life p) 0); lia.
Qed.

(** X15.  A pooled particle reports active after [n] calls of its [update]
    exactly when [n] is below its life: each call takes one unit of life until
    none is left and then changes nothing.  After [init] the life is
    [maxLife], so an initialised particle is active for exactly [maxLife]
    updates; a reset particle is inactive. *)
Theorem PooledParticle_lives_exactly_life_updates (n : nat) (p : Particle.t) :
  (isActive (Nat.iter n PooledParticle.update p) = true ↔ Z.of_nat n < Particle.life p) ∧
  (∀ x y color vx vy,
     isActive (Nat.iter n PooledParticle.update (PooledParticle.init x y color vx vy p)) = true ↔
     Z.of_nat n < Particle.maxLife p) ∧
  (Particle.life p <= Z.of_nat n →
     PooledParticle.update (Nat.iter n PooledParticle.update p) =
       Nat.iter n PooledParticle.update p) ∧
  isActive (reset p) = false.
Proof.
  assert (Hgen : ∀ q : Particle.t,
            isActive (Nat.iter n PooledParticle.update q) = true ↔
            Z.of_nat n < Particle.life q).
  { intros q. cbn. rewrite Z.gtb_gt, PooledParticle_update_life.
    destruct (Z.leb_spec (Particle.life q) 0); lia. }
  split; [apply Hgen|]. split; [intros; apply Hgen|]. split; [|done].
  intros Hle. pose proof (PooledParticle_update_life n p) as Hlife.
  set (q := Nat.iter n PooledParticle.update p) in *.
  unfold PooledParticle.update.
  destruct (Z.gtb_spec (Particle.life q) 0) as [Hq|Hq]; [|done].
  rewrite Hlife in Hq. destruct (Z.leb_spec (Particle.life p) 0); lia.
Qed.

Lemma PooledParticle_lives_exactly_life_updates_witness :
  let p := PooledParticle.init 10 10 "#ff0000" 3 (-2) newPooledParticle in
  isActive (Nat.iter 29 PooledParticle.update p) = true ∧
  isActive (Nat.iter 30 PooledParticle.update p) = false.
Proof.
  intros p.
  destruct (PooledParticle_lives_exactly_life_updates 29 p) as ((_ & Hon) & _).
  destruct (PooledParticle_lives_exactly_life_updates 30 p) as ((Hoff & _) & _).
  split.
  - apply Hon. by vm_compute.
  - apply not_true_is_false. intros Hact. apply Hoff in Hact.
    vm_compute in Hact. discriminate.
Defined.

End PooledEntityFacts.

(** ** More on the game state manager *)

Section ManagerLifecycleFacts.
Local Open Scope Z_scope.
Import GameStateManager.

Implicit Types (m : GameStateManager.t) (u : Partial.t) (o : Op).

Lemma apply_state_cases o m :
  state (apply o m) =
  match o with
  | OpUpdateState u => merge (state m) u
  | OpStartGame => state (startGame new)
  | OpPauseGame =>
      if decide (GameState.phase (state m) = GamePhase.playing)
      then merge (state m) (Partial.mk (Some GamePhase.paused) None None None None None None None None None)
      else state m
  | OpResumeGame =>
      if decide (GameState.phase (state m) = GamePhase.paused)
      then merge (state m) (Partial.mk (Some GamePhase.playing) None None None None None None None None None)
      else state m
  | OpGameOver =>
      merge (state m) (Partial.mk (Some GamePhase.gameOver) None None None None None None None None None)
  | OpNextLevel => state (nextLevel m)
  | OpLoseLife => state (loseLife m)
  | OpAddScore points =>
      merge (state m) (Partial.mk None (Some (GameState.score (state m) + points))
                                  None None None None None None None None)
  | OpUpdateFPS fps =>
      merge (state m) (Partial.mk None None None None None None None None None (Some fps))
  | OpUpdateLastUpdateTime time =>
      merge (state m) (Partial.mk None None None None None None None None (Some time) None)
  | OpReset => createInitialState
  | _ => state m
  end.
Proof.
  destruct o; cbn [apply]; try done.
  - apply updateState_state.
  - unfold pauseGame. case_decide; [apply updateState_state|done].
  - unfold resumeGame. case_decide; [apply updateState_state|done].
  - unfold gameOver. by rewrite emitEvent_state, updateState_state.
  - unfold addScore. apply updateState_state.
  - unfold updateFPS. apply updateState_state.
  - unfold updateLastUpdateTime. apply updateState_state.
Qed.

End ManagerLifecycleFacts.

(** X16.  Pausing and resuming a playing game is a round trip on the state:
    [pauseGame] only sets the phase to [paused], [resumeGame] sets it back,
    and every other field is as before.  Outside their source phase both are
    no-ops on the whole manager: nothing changes and nobody is called. *)
Theorem pause_resume_round_trip (m : GameStateManager.t) :
  (GameState.phase (GameStateManager.state m) = GamePhase.playing →
     GameState.phase (GameStateManager.state (GameStateManager.pauseGame m)) = GamePhase.paused ∧
     GameStateManager.state (GameStateManager.resumeGame (GameStateManager.pauseGame m)) =
       GameStateManager.state m) ∧
  (GameState.phase (GameStateManager.state m) ≠ GamePhase.playing →
     GameStateManager.pauseGame m = m) ∧
  (GameState.phase (GameStateManager.state m) ≠ GamePhase.paused →
     GameStateManager.resumeGame m = m) ∧
  GameStateManager.pauseGame (GameStateManager.pauseGame m) = GameStateManager.pauseGame m.
Proof.
  split; [|split; [|split]].
  - intros Hph.
    pose proof (apply_state_cases GameStateManager.OpPauseGame m) as Hp.
    cbn [GameStateManager.apply] in Hp. rewrite decide_True in Hp by done.
    split; [by rewrite Hp|].
    pose proof (apply_state_cases GameStateManager.OpResumeGame (GameStateManager.pauseGame m))
      as Hr.
    cbn [GameStateManager.apply] in Hr. rewrite Hr, Hp. cbn.
    destruct (GameStateManager.state m). cbn in *. by subst.
  - intros Hph. unfold GameStateManager.pauseGame. by rewrite decide_False.
  - intros Hph. unfold GameStateManager.resumeGame. by rewrite decide_False.
  - destruct (decide (GameState.phase (GameStateManager.state m) = GamePhase.playing))
      as [Hph|Hph].
    + unfold GameStateManager.pauseGame at 1. rewrite decide_False; [done|].
      pose proof (apply_state_cases GameStateManager.OpPauseGame m) as Hp.
      cbn [GameStateManager.apply] in Hp. rewrite decide_True in Hp by done.
      by rewrite Hp.
    + assert (Hnoop : GameStateManager.pauseGame m = m).
      { unfold GameStateManager.pauseGame. by rewrite decide_False. }
      by rewrite !Hnoop.
Qed.

Lemma pause_resume_round_trip_witness :
  let m := GameStateManager.addScore 30 (GameStateManager.startGame GameStateManager.new) in
  GameState.phase (GameStateManager.state m) = GamePhase.playing ∧
  GameStateManager.state (GameStateManager.resumeGame (GameStateManager.pauseGame m)) =
    GameStateManager.state m.
Proof.
  intros m.
  assert (Hph : GameState.phase (GameStateManager.state m) = GamePhase.playing)
    by reflexivity.
  split; [exact Hph|].
  destruct (pause_resume_round_trip m) as (Hround & _).
  destruct (Hround Hph) as (_ & Hstate). exact Hstate.
Defined.

(** X17.  Starting from a new manager, along every sequence of operations
    that does not write [lives] or [phase] through a raw [updateState], the
    life count stays between 0 and the initial lives, the phase is never
    [levelComplete], and as long as the phase is not [gameOver] at least one
    life is left. *)
Theorem lives_bounded_alive_until_gameOver
    (os : list GameStateManager.Op) (m : GameStateManager.t) :
  let alive (s : GameState.t) :=
    (0 <= GameState.lives s <= GAME_CONFIG.game.initialLives)%Z ∧
    (GameState.phase s = GamePhase.gameOver ∨ (1 <= GameState.lives s)%Z) ∧
    GameState.phase s ≠ GamePhase.levelComplete in
  forallb GameStateManager.keepsLives os = true →
  alive (GameStateManager.state m) →
  alive (GameStateManager.state GameStateManager.new) ∧
  alive (GameStateManager.state (GameStateManager.run os m)).
Proof.
  intros alive Hos Hm.
  assert (Hcase : ∀ P Q R S : Prop, P → Q → R → S → (P ∧ Q) ∧ R ∧ S) by tauto.
  split.
  { unfold alive. cbn. unfold GAME_CONFIG.game.initialLives.
    apply Hcase; [lia|lia|right; lia|done]. }
  induction os as [|o os IH] using rev_ind; [done|].
  rewrite forallb_app in Hos. apply andb_true_iff in Hos as [Hos Ho].
  cbn in Ho. rewrite andb_true_r in Ho. specialize (IH Hos).
  rewrite run_snoc. set (m' := GameStateManager.run os m) in *. clearbody m'.
  rewrite apply_state_cases. unfold alive in *.
  unfold GAME_CONFIG.game.initialLives in *.
  destruct IH as ((Hl0 & Hl3) & Hp & Hc).
  destruct o; cbn [GameStateManager.keepsLives] in Ho.
  - apply andb_true_iff in Ho as [Hu1%bool_decide_eq_true Hu2%bool_decide_eq_true].
    cbn. rewrite Hu1, Hu2. cbn. by apply Hcase.
  - cbn. unfold GAME_CONFIG.game.initialLives. apply Hcase; [lia|lia|right; lia|done].
  - case_decide as Hph; [|by apply Hcase]. cbn. apply Hcase; [done|done| |done].
    right. destruct Hp as [Hp|Hp]; [congruence|done].
  - case_decide as Hph; [|by apply Hcase]. cbn. apply Hcase; [done|done| |done].
    right. destruct Hp as [Hp|Hp]; [congruence|done].
  - cbn. apply Hcase; [done|done|by left|done].
  - rewrite nextLevel_state. cbn. by apply Hcase.
  - rewrite loseLife_state. cbv zeta.
    destruct (Z.leb_spec (Z.max 0 (GameState.lives (GameStateManager.state m') - 1)) 0);
      cbn; apply Hcase; try lia; try done; first [by left|right; lia].
  - cbn. by apply Hcase.
  - cbn. by apply Hcase.
  - cbn. by apply Hcase.
  - by apply Hcase.
  - by apply Hcase.
  - by apply Hcase.
  - by apply Hcase.
  - cbn. unfold GAME_CONFIG.game.initialLives. apply Hcase; [lia|lia|right; lia|done].
Qed.

Lemma lives_bounded_alive_until_gameOver_witness :
  let os := [GameStateManager.OpStartGame; GameStateManager.OpLoseLife;
             GameStateManager.OpPauseGame; GameStateManager.OpLoseLife;
             GameStateManager.OpLoseLife; GameStateManager.OpLoseLife] in
  forallb GameStateManager.keepsLives os = true ∧
  (0 <= GameState.lives (GameStateManager.state (GameStateManager.run os GameStateManager.new))
     <= GAME_CONFIG.game.initialLives)%Z ∧
  GameState.phase (GameStateManager.state (GameStateManager.run os GameStateManager.new)) =
    GamePhase.gameOver.
Proof.
  intros os.
  assert (Hos : forallb GameStateManager.keepsLives os = true) by reflexivity.
  split; [exact Hos|]. split; [|reflexivity].
  destruct (lives_bounded_alive_until_gameOver os GameStateManager.new Hos) as (Hnew & _).
  - cbn. unfold GAME_CONFIG.game.initialLives.
    split; [lia|]. split; [right; lia|done].
  - destruct (lives_bounded_alive_until_gameOver os GameStateManager.new Hos Hnew)
      as (_ & Hl & _).
    exact Hl.
Defined.

Section ManagerFieldFacts.
Local Open Scope Z_scope.
Import GameStateManager.

Implicit Types (m : GameStateManager.t) (o : Op).

Lemma keepsBullets_apply o m :
  keepsBullets o = true → GameState.bullets (state m) = [] →
  GameState.bullets (state (apply o m)) = [].
Proof.
  intros Ho Hb. rewrite apply_state_cases.
  destruct o; cbn [keepsBullets] in Ho; try done; try (by cbn).
  - apply bool_decide_eq_true in Ho. cbn. by rewrite Ho.
  - by case_decide.
  - by case_decide.
  - by rewrite nextLevel_state.
  - rewrite loseLife_state. cbv zeta. by destruct (_ <=? 0).
Qed.

Lemma keepsLevel_apply o m :
  keepsLevel o = true →
  GameState.level (state m) <= GameState.level (state (apply o m)) ∧
  GameState.level (state (apply o m)) =
    GameState.level (state m) + (if isNextLevel o then 1 else 0).
Proof.
  intros Ho. rewrite apply_state_cases.
  destruct o; cbn [keepsLevel isNextLevel] in *; try done; try (cbn; lia).
  - apply bool_decide_eq_true in Ho. cbn. rewrite Ho. cbn. lia.
  - case_decide; cbn; lia.
  - case_decide; cbn; lia.
  - rewrite nextLevel_state. cbn. lia.
  - rewrite loseLife_state. cbv zeta. destruct (_ <=? 0); cbn; lia.
Qed.

End ManagerFieldFacts.

(** X18.  The manager never puts a bullet in its own state: from a state
    without bullets, along every sequence of operations that does not write
    the [bullets] field through a raw [updateState], the field stays empty, so
    [canShoot] is just [isPlaying] and its ceiling of five bullets is never
    reached. *)
Theorem canShoot_is_isPlaying (os : list GameStateManager.Op) (m : GameStateManager.t) :
  forallb GameStateManager.keepsBullets os = true →
  GameState.bullets (GameStateManager.state m) = [] →
  GameState.bullets (GameStateManager.state (GameStateManager.run os m)) = [] ∧
  GameStateManager.canShoot (GameStateManager.run os m) =
    GameStateManager.isPlaying (GameStateManager.run os m).
Proof.
  intros Hos Hm.
  assert (Hb : GameState.bullets (GameStateManager.state (GameStateManager.run os m)) = []).
  { induction os as [|o os IH] using rev_ind; [done|].
    rewrite forallb_app in Hos. apply andb_true_iff in Hos as [Hos Ho].
    cbn in Ho. rewrite andb_true_r in Ho. rewrite run_snoc.
    by apply keepsBullets_apply; [|apply IH]. }
  split; [exact Hb|]. unfold GameStateManager.canShoot. rewrite Hb. cbn.
  rewrite bool_decide_true by lia. apply andb_true_r.
Qed.

Lemma canShoot_is_isPlaying_witness :
  let os := [GameStateManager.OpStartGame;
             GameStateManager.OpUpdateState
               (Partial.mk None None None None (Some []) None None None None None);
             GameStateManager.OpAddScore 10; GameStateManager.OpNextLevel] in
  forallb GameStateManager.keepsBullets os = true ∧
  GameState.bullets (GameStateManager.state GameStateManager.new) = [] ∧
  GameStateManager.canShoot (GameStateManager.run os GameStateManager.new) = true.
Proof.
  intros os.
  assert (Hos : forallb GameStateManager.keepsBullets os = true) by reflexivity.
  split; [exact Hos|]. split; [reflexivity|].
  destruct (canShoot_is_isPlaying os GameStateManager.new Hos eq_refl) as (_ & Hshoot).
  rewrite Hshoot. reflexivity.
Defined.

(** X19.  The level never goes down: along every sequence of operations
    without [startGame], [reset] and a raw [updateState] of the level, the
    level only grows, each [nextLevel] adds exactly one and no other operation
    changes it. *)
Theorem level_nondecreasing (os : list GameStateManager.Op) (m : GameStateManager.t) :
  forallb GameStateManager.keepsLevel os = true →
  GameState.level (GameStateManager.state (GameStateManager.run os m)) =
    (GameState.level (GameStateManager.state m) +
     Z.of_nat (length (List.filter GameStateManager.isNextLevel os)))%Z.
Proof.
  intros Hos. induction os as [|o os IH] using rev_ind; [cbn; lia|].
  rewrite forallb_app in Hos. apply andb_true_iff in Hos as [Hos Ho].
  cbn in Ho. rewrite andb_true_r in Ho. rewrite run_snoc, List.filter_app, length_app.
  destruct (keepsLevel_apply o (GameStateManager.run os m) Ho) as (_ & ->).
  rewrite (IH Hos). cbn. destruct (GameStateManager.isNextLevel o); cbn; lia.
Qed.

Lemma level_nondecreasing_witness :
  let os := [GameStateManager.OpNextLevel; GameStateManager.OpLoseLife;
             GameStateManager.OpNextLevel; GameStateManager.OpAddScore 10] in
  forallb GameStateManager.keepsLevel os = true ∧
  GameState.level
    (GameStateManager.state
       (GameStateManager.run os (GameStateManager.startGame GameStateManager.new))) = 3%Z.
Proof.
  intros os.
  assert (Hos : forallb GameStateManager.keepsLevel os = true) by reflexivity.
  split; [exact Hos|].
  rewrite (level_nondecreasing os (GameStateManager.startGame GameStateManager.new) Hos).
  reflexivity.
Defined.

Section SubscriptionFacts.
Import GameStateManager.

Lemma removeFirst_snoc_fresh (x : nat) (l : list nat) :
  (x ∉ l) → removeFirst x (l ++ [x]) = l.
Proof.
  intros Hn. unfold removeFirst.
  rewrite (indexOf_snoc_fresh x l Hn : indexOf x (l ++ [x]) = Some (length l)).
  by rewrite (delete_middle l [] x), app_nil_r.
Qed.

Lemma removeFirst_absent (x : nat) (l : list nat) : (x ∉ l) → removeFirst x l = l.
Proof.
  intros Hn. unfold removeFirst.
  by rewrite (proj2 (indexOf_None x l) Hn : indexOf x l = None).
Qed.

Lemma removeFirst_Permutation (x : nat) (l : list nat) :
  x ∈ l → l ≡ₚ x :: removeFirst x l.
Proof.
  intros Hin. unfold removeFirst. destruct (indexOf x l) as [i|] eqn:Hi.
  - by apply delete_Permutation, indexOf_Some.
  - by apply indexOf_None in Hi.
Qed.

Lemma removeFirst_cons (x o : nat) (l : list nat) :
  removeFirst x (o :: l) = if decide (o = x) then l else o :: removeFirst x l.
Proof.
  unfold removeFirst. cbn [indexOf]. case_decide; [done|].
  by destruct (indexOf x l).
Qed.

Lemma removeFirst_app_elem (x : nat) (l k : list nat) :
  x ∈ l → removeFirst x (l ++ k) = removeFirst x l ++ k.
Proof.
  induction l as [|o l IH]; intros Hin; [by apply elem_of_nil in Hin|].
  rewrite <- app_comm_cons, !removeFirst_cons. case_decide as Ho; [done|].
  apply elem_of_cons in Hin as [->|Hin]; [done|].
  by rewrite IH.
Qed.

Lemma removeFirst_snoc_Permutation (x : nat) (l : list nat) :
  removeFirst x (l ++ [x]) ≡ₚ l.
Proof.
  apply (Permutation_cons_inv (a := x)).
  rewrite <- removeFirst_Permutation by (apply elem_of_app; right; left).
  by rewrite Permutation_app_comm.
Qed.

End SubscriptionFacts.



Section NotificationFacts.
Import GameStateManager.

Implicit Types (m : GameStateManager.t) (reactions : nat → list Reaction).

Lemma removeFirst_middle (x : nat) (pre k : list nat) :
  (x ∉ pre) → removeFirst x (pre ++ x :: k) = pre ++ k.
Proof.
  induction pre as [|o pre IH]; intros Hn.
  - cbn [app]. rewrite removeFirst_cons. by rewrite decide_True.
  - apply not_elem_of_cons in Hn as [Hne Hn].
    rewrite <- !app_comm_cons, removeFirst_cons, decide_False by done.
    by rewrite IH.
Qed.

Lemma withLog_log m : withLog m (log m) = m.
Proof. by destruct m. Qed.

(** Over a stretch of listeners without reactions the walk is the plain
    dispatch: each is called once, in order, with the current state. *)
Lemma forEachListener_passive reactions (n k : nat) m :
  (∀ l, l ∈ take n (drop k (listeners m)) → reactions l = []) →
  forEachListener reactions n k m =
  withLog m (log m ++ map (λ l, Listener l (state m)) (take n (drop k (listeners m)))).
Proof.
  revert k m. induction n as [|n IH]; intros k m Hp; cbn [forEachListener].
  - cbn. by rewrite app_nil_r, withLog_log.
  - destruct (listeners m !! k) as [x|] eqn:Hk.
    + rewrite (drop_S _ _ _ Hk) in Hp |- *. cbn [take map] in *.
      rewrite (Hp x) by left. cbn [foldl].
      rewrite IH; cbn [listeners state log withLog].
      * by rewrite <- app_assoc.
      * intros l Hl. apply Hp. by right.
    + apply lookup_ge_None in Hk.
      rewrite IH.
      * rewrite !drop_ge by lia. by rewrite !take_nil.
      * intros l Hl. rewrite drop_ge in Hl by lia. rewrite take_nil in Hl.
        by apply elem_of_nil in Hl.
Qed.

Lemma forEachListener_S reactions (n k : nat) m :
  forEachListener reactions (S n) k m =
  forEachListener reactions n (S k)
    match listeners m !! k with
    | Some listener =>
        foldl (λ m r, react r m)
              (withLog m (log m ++ [Listener listener (state m)]))
              (reactions listener)
    | None => m
    end.
Proof. done. Qed.

Lemma forEachListener_add reactions (n1 n2 k : nat) m :
  forEachListener reactions (n1 + n2) k m =
  forEachListener reactions n2 (k + n1) (forEachListener reactions n1 k m).
Proof.
  revert k m. induction n1 as [|n1 IH]; intros k m.
  - cbn. by rewrite Nat.add_0_r.
  - cbn [Nat.add forEachListener]. rewrite IH. f_equal. lia.
Qed.

End NotificationFacts.



(** ** More on the scheduler *)

Section SchedulerTimeFacts.
Local Open Scope Q_scope.
Import GameLoop.
Context {W : Type} (callbacks : GameLoopCallbacks W).

Lemma updateLoop_nonneg (remaining : nat) (currentTime lag : Q) (w : W) :
  0 <= lag → 0 <= (updateLoop callbacks remaining currentTime lag w).1.1.
Proof.
  revert lag w. induction remaining as [|r IH]; intros lag w Hlag; [done|].
  cbn [updateLoop]. destruct (Qle_bool targetFrameTime lag) eqn:Hle; [|done].
  apply Qle_bool_iff in Hle.
  destruct (onUpdate callbacks targetFrameTime currentTime w) as [w'|w']; [|done].
  specialize (IH (lag - targetFrameTime) w').
  destruct (updateLoop callbacks r currentTime (lag - targetFrameTime) w')
    as [[lag' w''] trace]. cbn in *. apply IH. lra.
Qed.

(** One active callback whose updates do not throw. *)
Lemma gameLoop_no_throw (currentTime : Q) (refs : Refs) (w : W) :
  (∀ dt t w0, ∃ w1, onUpdate callbacks dt t w0 = Returns w1) →
  let result := gameLoop callbacks true currentTime refs w in
  let lag' := lagRef result.1.1 in
  ∃ n : nat,
    result.2 = replicate n (Update targetFrameTime currentTime) ++
               [Render (lag' / targetFrameTime)] ∧
    (n ≤ 5)%nat ∧
    previousTimeRef result.1.1 = Some currentTime ∧
    lag' == accumulated currentTime refs - inject_Z (Z.of_nat n) * targetFrameTime ∧
    (n = 5%nat ∨ lag' < targetFrameTime) ∧
    (0 <= accumulated currentTime refs → 0 <= lag').
Proof.
  intros Hno result lag'. subst lag' result. unfold gameLoop. cbn [negb].
  fold (accumulated currentTime refs).
  set (lag := accumulated currentTime refs) in *.
  destruct (updateLoop_no_throw callbacks maxUpdates currentTime lag w Hno)
    as (n & Htr & Heq & Hend).
  pose proof (updateLoop_cases callbacks maxUpdates currentTime lag w) as (k & Hk & Hle & _).
  pose proof (updateLoop_nonneg maxUpdates currentTime lag w) as Hnn.
  destruct (updateLoop callbacks maxUpdates currentTime lag w) as [[lag' w'] trace].
  cbn in *. exists n. subst trace.
  assert (k = n) as ->.
  { apply (f_equal length) in Hk. by rewrite !length_replicate in Hk. }
  split; [done|]. split; [exact Hle|]. split; [done|]. split; [exact Heq|].
  split; [exact Hend|exact Hnn].
Qed.

End SchedulerTimeFacts.

Section SchedulerExtras.
Local Open Scope Q_scope.

(** X22.  When no update throws and the accumulated lag is not negative, a
    callback consumes [n <= 5] whole ticks of it and keeps the rest: the lag
    left is the accumulated lag minus [n] ticks and is not negative.  The
    interpolation passed to the render is at least 0, and it is below 1
    exactly when less than six ticks had accumulated. *)
Theorem gameLoop_interpolation_range {W : Type}
    (callbacks : GameLoop.GameLoopCallbacks W)
    (currentTime : Q) (refs : GameLoop.Refs) (w : W) :
  (∀ dt t w0, ∃ w1, GameLoop.onUpdate callbacks dt t w0 = GameLoop.Returns w1) →
  0 <= GameLoop.accumulated currentTime refs →
  let result := GameLoop.gameLoop callbacks true currentTime refs w in
  let lag' := GameLoop.lagRef result.1.1 in
  ∃ n : nat,
    result.2 = replicate n (GameLoop.Update GameLoop.targetFrameTime currentTime) ++
               [GameLoop.Render (lag' / GameLoop.targetFrameTime)] ∧
    (n ≤ 5)%nat ∧
    lag' == GameLoop.accumulated currentTime refs -
            inject_Z (Z.of_nat n) * GameLoop.targetFrameTime ∧
    0 <= lag' ∧
    0 <= lag' / GameLoop.targetFrameTime ∧
    (lag' / GameLoop.targetFrameTime < 1 ↔
     GameLoop.accumulated currentTime refs < 6 * GameLoop.targetFrameTime).
Proof.
  intros Hno Hacc result lag'.
  destruct (gameLoop_no_throw callbacks currentTime refs w Hno)
    as (n & Htr & Hn & _ & Heq & Hend & Hnn).
  fold result in Htr, Heq, Hend, Hnn. fold lag' in Htr, Heq, Hend, Hnn.
  specialize (Hnn Hacc). exists n.
  split; [exact Htr|]. split; [exact Hn|]. split; [exact Heq|]. split; [exact Hnn|].
  clearbody lag'. clear Htr result.
  set (acc := GameLoop.accumulated currentTime refs) in *. clearbody acc.
  assert (Hk : 0 <= inject_Z (Z.of_nat n) <= 5).
  { split.
    - change 0 with (inject_Z 0). rewrite <- Zle_Qle. lia.
    - change 5 with (inject_Z 5). rewrite <- Zle_Qle. lia. }
  assert (Hk4 : (n < 5)%nat → inject_Z (Z.of_nat n) <= 4).
  { intros Hlt. change 4 with (inject_Z 4). rewrite <- Zle_Qle. lia. }
  assert (Hk5 : n = 5%nat → inject_Z (Z.of_nat n) == 5) by (by intros ->).
  set (k := inject_Z (Z.of_nat n)) in *. clearbody k.
  pose proof targetFrameTime_pos as Hpos.
  assert (Hi : lag' == lag' / GameLoop.targetFrameTime * GameLoop.targetFrameTime).
  { field. lra. }
  set (i := lag' / GameLoop.targetFrameTime) in *. clearbody i.
  unfold GameLoop.targetFrameTime, GAME_CONFIG.game.targetFrameTime in *.
  split; [nra|]. split.
  - intros Hlt. destruct Hend as [Hfive|Hlt']; [rewrite (Hk5 Hfive) in Heq; lra|].
    destruct (decide (n = 5%nat)) as [Hfive|Hne]; [rewrite (Hk5 Hfive) in Heq; lra|].
    assert (k <= 4) by (apply Hk4; lia). lra.
  - intros Hlt. destruct Hend as [Hfive|Hlt']; [rewrite (Hk5 Hfive) in Heq; lra|lra].
Qed.

Lemma gameLoop_interpolation_range_witness :
  let refs := GameLoop.mkRefs (Some 0) 0 (GameLoop.mkFps 0 0 0) in
  (∀ dt t w0, ∃ w1, GameLoop.onUpdate GameLoop.counting dt t w0 = GameLoop.Returns w1) ∧
  0 <= GameLoop.accumulated 40 refs ∧
  ∃ n : nat,
    (GameLoop.gameLoop GameLoop.counting true 40 refs 0%nat).2 =
      replicate n (GameLoop.Update GameLoop.targetFrameTime 40) ++
      [GameLoop.Render
         (GameLoop.lagRef (GameLoop.gameLoop GameLoop.counting true 40 refs 0%nat).1.1 /
          GameLoop.targetFrameTime)] ∧
    (n ≤ 5)%nat.
Proof.
  intros refs.
  assert (Hno : ∀ dt t w0, ∃ w1,
            GameLoop.onUpdate GameLoop.counting dt t w0 = GameLoop.Returns w1)
    by (intros dt t w0; by eexists).
  assert (Hacc : 0 <= GameLoop.accumulated 40 refs) by (by vm_compute).
  split; [exact Hno|]. split; [exact Hacc|].
  destruct (gameLoop_interpolation_range GameLoop.counting 40 refs 0%nat Hno Hacc)
    as (n & Htr & Hn & _).
  exists n. split; [exact Htr|exact Hn].
Defined.

End SchedulerExtras.

Section SchedulerRunFacts.
Local Open Scope Q_scope.
Import GameLoop.
Context {W : Type} (callbacks : GameLoopCallbacks W).

(** What an update and a render may be called with. *)
Let wellTimed (c : Call) : Prop :=
  match c with
  | Update deltaTime _ => deltaTime = targetFrameTime
  | Render interpolation => 0 <= interpolation
  end.

Lemma updateCount_app (l1 l2 : list Call) :
  updateCount (l1 ++ l2) = (updateCount l1 + updateCount l2)%nat.
Proof. unfold updateCount. by rewrite List.filter_app, length_app. Qed.

Lemma renderCount_app (l1 l2 : list Call) :
  renderCount (l1 ++ l2) = (renderCount l1 + renderCount l2)%nat.
Proof. unfold renderCount. by rewrite List.filter_app, length_app. Qed.

Lemma counts_replicate (n : nat) (dt t : Q) :
  updateCount (replicate n (Update dt t)) = n ∧ renderCount (replicate n (Update dt t)) = 0%nat.
Proof.
  unfold updateCount, renderCount. induction n as [|n [IHu IHr]]; [done|].
  cbn. by rewrite IHu, IHr.
Qed.

Lemma last_cons_default (t p : Q) (times : list Q) :
  List.last (t :: times) p = List.last times t.
Proof.
  destruct times as [|a times]; [done|].
  change (List.last (t :: a :: times) p) with (List.last (a :: times) p).
  revert a. induction times as [|b times IH]; intros a; [done|].
  change (List.last (a :: b :: times) p) with (List.last (b :: times) p).
  change (List.last (a :: b :: times) t) with (List.last (b :: times) t).
  apply IH.
Qed.

(** One active callback, whether its updates return or throw. *)
Lemma gameLoop_active (currentTime : Q) (refs : Refs) (w : W) :
  0 <= accumulated currentTime refs →
  let r := gameLoop callbacks true currentTime refs w in
  previousTimeRef r.1.1 = Some currentTime ∧ 0 <= lagRef r.1.1 ∧
  (updateCount r.2 ≤ 5)%nat ∧ renderCount r.2 = 1%nat ∧ Forall wellTimed r.2.
Proof.
  intros Hacc r. subst r. unfold gameLoop. cbn [negb].
  fold (accumulated currentTime refs).
  set (lag := accumulated currentTime refs) in *.
  pose proof (updateLoop_cases callbacks maxUpdates currentTime lag w) as (k & Hk & Hle & _).
  pose proof (updateLoop_nonneg callbacks maxUpdates currentTime lag w Hacc) as Hnn.
  destruct (updateLoop callbacks maxUpdates currentTime lag w) as [[lag' w'] trace].
  cbn [fst snd previousTimeRef lagRef] in *. subst trace.
  destruct (counts_replicate k targetFrameTime currentTime) as [Hu Hr].
  pose proof targetFrameTime_pos as Hpos.
  split; [done|]. split; [done|].
  rewrite updateCount_app, renderCount_app, Hu, Hr. cbn.
  split; [unfold maxUpdates in Hle; lia|]. split; [done|].
  apply Forall_app. split.
  - apply Forall_forall. intros c Hc%elem_of_replicate. destruct Hc as [-> _]. done.
  - apply Forall_singleton. cbn. apply Qle_shift_div_l; [done|]. lra.
Qed.

(** The callbacks at non-decreasing times after a callback at time [p]. *)
Lemma runFrames_from (times : list Q) (p : Q) (refs : Refs) (w : W) (trace : list Call) :
  previousTimeRef refs = Some p → Sorted Qle (p :: times) → 0 <= lagRef refs →
  Forall wellTimed trace →
  let r := foldl (λ acc currentTime,
                    let r := gameLoop callbacks true currentTime acc.1.1 acc.1.2 in
                    (r.1.1, r.1.2, acc.2 ++ r.2))
                 (refs, w, trace) times in
  previousTimeRef r.1.1 = Some (List.last times p) ∧ 0 <= lagRef r.1.1 ∧
  (updateCount r.2 ≤ updateCount trace + 5 * length times)%nat ∧
  renderCount r.2 = (renderCount trace + length times)%nat ∧
  Forall wellTimed r.2.
Proof.
  revert p refs w trace. induction times as [|t times IH]; intros p refs w trace Hp Hs Hlag Htr.
  - cbn [foldl fst snd length List.last].
    split; [done|]. split; [done|]. split; [lia|]. split; [lia|done].
  - apply Sorted_inv in Hs as [Hs Hhd]. apply HdRel_inv in Hhd.
    assert (Hacc : 0 <= accumulated t refs).
    { unfold accumulated. rewrite Hp. cbn. lra. }
    pose proof (gameLoop_active t refs w Hacc) as Hone. cbv zeta in Hone.
    cbn [foldl fst snd]. cbv zeta.
    set (r := gameLoop callbacks true t refs w) in *.
    destruct Hone as (Hprev & Hnn & Hu & Hr & Hwt).
    specialize (IH t r.1.1 r.1.2 (trace ++ r.2) Hprev Hs Hnn). cbv zeta in IH.
    destruct IH as (Hp' & Hl' & Hu' & Hr' & Hw'); [apply Forall_app; by split|].
    split.
    { by rewrite Hp', last_cons_default. }
    split; [exact Hl'|]. rewrite updateCount_app in Hu'. rewrite renderCount_app in Hr'.
    cbn [length]. split; [lia|]. split; [lia|exact Hw'].
Qed.

End SchedulerRunFacts.

Section SchedulerRunExtras.
Local Open Scope Q_scope.



(** X24.  A callback made while the loop is inactive calls nothing and leaves
    every ref as it was, [previousTimeRef] included; so the first active
    callback afterwards counts the whole inactive interval as lag.  The very
    first active callback (no previous time) with less than a tick of lag
    only renders. *)
Theorem gameLoop_inactive_keeps_refs {W : Type}
    (callbacks : GameLoop.GameLoopCallbacks W)
    (tIdle tNext : Q) (refs : GameLoop.Refs) (w : W) :
  let idle := GameLoop.gameLoop callbacks false tIdle refs w in
  idle = (refs, w, []) ∧
  GameLoop.accumulated tNext idle.1.1 = GameLoop.accumulated tNext refs ∧
  (GameLoop.previousTimeRef refs = None →
   GameLoop.lagRef refs < GameLoop.targetFrameTime →
   (GameLoop.gameLoop callbacks true tNext refs w).2 =
     [GameLoop.Render ((GameLoop.lagRef refs + (tNext - tNext)) / GameLoop.targetFrameTime)] ∧
   GameLoop.previousTimeRef (GameLoop.gameLoop callbacks true tNext refs w).1.1 = Some tNext).
Proof.
  intros idle. split; [done|]. split; [done|].
  intros Hprev Hlag. unfold GameLoop.gameLoop. cbn [negb]. rewrite Hprev. cbn [default].
  assert (Hle : Qle_bool GameLoop.targetFrameTime (GameLoop.lagRef refs + (tNext - tNext)) = false).
  { apply not_true_is_false. intros Hle%Qle_bool_iff. lra. }
  unfold GameLoop.maxUpdates. cbn [GameLoop.updateLoop]. rewrite Hle. done.
Qed.

Lemma gameLoop_inactive_keeps_refs_witness :
  GameLoop.previousTimeRef GameLoop.initialRefs = None ∧
  GameLoop.lagRef GameLoop.initialRefs < GameLoop.targetFrameTime ∧
  GameLoop.updateCount
    (GameLoop.gameLoop GameLoop.counting true 5000 GameLoop.initialRefs 0%nat).2 = 0%nat.
Proof.
  assert (Hprev : GameLoop.previousTimeRef GameLoop.initialRefs = None) by reflexivity.
  assert (Hlag : GameLoop.lagRef GameLoop.initialRefs < GameLoop.targetFrameTime)
    by reflexivity.
  split; [exact Hprev|]. split; [exact Hlag|].
  destruct (gameLoop_inactive_keeps_refs GameLoop.counting 0 5000 GameLoop.initialRefs 0%nat)
    as (_ & _ & Hfirst).
  destruct (Hfirst Hprev Hlag) as (Htrace & _). rewrite Htrace. reflexivity.
Defined.

End SchedulerRunExtras.

(** ** Performance monitor *)

Section PerformanceFacts.
Local Open Scope Q_scope.
Import PerformanceMonitor.

Lemma update_frameTimes (currentTime : Q) (p : PerformanceMonitor.t) :
  frameTimes (update currentTime p).1 =
  if negb (Qle_bool (lastTime p) 0) then
    let pushed := frameTimes p ++ [currentTime - lastTime p] in
    if (maxFrameTimeHistory <? length pushed)%nat then tail pushed else pushed
  else frameTimes p.
Proof.
  unfold update. cbv zeta. cbn [lastTime].
  destruct (negb (Qle_bool (lastTime p) 0)); cbn [withFrameTimes lastTime frameTimes];
    by destruct (Qle_bool 1000 _).
Qed.

(** An [update] either counts one more frame, or reports the frames counted
    (this one included) as the new [fps] and starts counting again. *)
Lemma update_counts (currentTime : Q) (p : PerformanceMonitor.t) :
  (frameCount (update currentTime p).1 = S (frameCount p) ∧
   fps (update currentTime p).1 = fps p) ∨
  (frameCount (update currentTime p).1 = 0%nat ∧
   fps (update currentTime p).1 = S (frameCount p)).
Proof.
  unfold update. cbv zeta. cbn [lastTime].
  destruct (negb (Qle_bool (lastTime p) 0));
    cbn [withFrameTimes lastTime frameTimes frameCount fps];
    destruct (Qle_bool 1000 _); cbn; (by left) || (by right).
Qed.

Lemma call_counts (c : Call) (p : PerformanceMonitor.t) (n : nat) :
  (frameCount p ≤ n)%nat → (fps p ≤ n)%nat →
  (frameCount (call c p) ≤ n + length (List.filter isUpdateCall [c]))%nat ∧
  (fps (call c p) ≤ n + length (List.filter isUpdateCall [c]))%nat.
Proof.
  intros Hf Hp. destruct c; cbn [call isUpdateCall List.filter length].
  - destruct (update_counts currentTime p) as [[-> ->]|[-> ->]]; lia.
  - cbn. lia.
  - cbn. lia.
Qed.

End PerformanceFacts.

Section PerformanceExtras.
Local Open Scope Q_scope.

(** X25.  The frame-time history never grows beyond [maxFrameTimeHistory]
    (60) entries: from a history within the bound, as the new monitor's empty
    one, every sequence of [update], [updateEntityCounts] and [reset] calls
    keeps it within the bound.  An [update] appends the time since the last
    call, unless no call was recorded yet ([lastTime] not positive), and drops
    the oldest entry when the history is full. *)
Theorem frameTimes_history_bounded
    (cs : list PerformanceMonitor.Call) (p : PerformanceMonitor.t) :
  (length (PerformanceMonitor.frameTimes p) ≤ PerformanceMonitor.maxFrameTimeHistory)%nat →
  (length (PerformanceMonitor.frameTimes (PerformanceMonitor.calls cs p))
     ≤ PerformanceMonitor.maxFrameTimeHistory)%nat ∧
  (∀ currentTime : Q,
     0 < PerformanceMonitor.lastTime p →
     PerformanceMonitor.frameTimes (PerformanceMonitor.update currentTime p).1 =
       if decide (length (PerformanceMonitor.frameTimes p) =
                  PerformanceMonitor.maxFrameTimeHistory)
       then tail (PerformanceMonitor.frameTimes p) ++ [currentTime - PerformanceMonitor.lastTime p]
       else PerformanceMonitor.frameTimes p ++ [currentTime - PerformanceMonitor.lastTime p]) ∧
  (∀ currentTime : Q,
     PerformanceMonitor.lastTime p <= 0 →
     PerformanceMonitor.frameTimes (PerformanceMonitor.update currentTime p).1 =
       PerformanceMonitor.frameTimes p).
Proof.
  intros Hp.
  assert (Hstep : ∀ c q,
            (length (PerformanceMonitor.frameTimes q) ≤ PerformanceMonitor.maxFrameTimeHistory)%nat →
            (length (PerformanceMonitor.frameTimes (PerformanceMonitor.call c q))
               ≤ PerformanceMonitor.maxFrameTimeHistory)%nat).
  { intros c q Hq. destruct c; cbn [PerformanceMonitor.call]; [|done|cbn; lia].
    rewrite update_frameTimes. destruct (negb _); [|done]. cbv zeta.
    destruct (Nat.ltb_spec PerformanceMonitor.maxFrameTimeHistory
                (length (PerformanceMonitor.frameTimes q ++ [currentTime - PerformanceMonitor.lastTime q]))) as [Hlt|Hge]; [|done].
    destruct (PerformanceMonitor.frameTimes q) as [|y l]; [cbn; lia|].
    cbn in *. rewrite length_app in *. cbn in *. lia. }
  split; [|split].
  - induction cs as [|c cs IH] using rev_ind; [done|].
    unfold PerformanceMonitor.calls in *. rewrite foldl_app. cbn. by apply Hstep.
  - intros currentTime Hpos. rewrite update_frameTimes.
    assert (Hle : Qle_bool (PerformanceMonitor.lastTime p) 0 = false).
    { apply not_true_is_false. intros Hle%Qle_bool_iff. lra. }
    rewrite Hle. cbn [negb]. cbv zeta. rewrite length_app. cbn [length].
    destruct (Nat.ltb_spec PerformanceMonitor.maxFrameTimeHistory
                (length (PerformanceMonitor.frameTimes p) + 1)) as [Hlt|Hge].
    + rewrite decide_True by lia.
      destruct (PerformanceMonitor.frameTimes p) as [|x l] eqn:Hf; [|done].
      cbn in Hlt. unfold PerformanceMonitor.maxFrameTimeHistory in Hlt. lia.
    + by rewrite decide_False by lia.
  - intros currentTime Hneg. rewrite update_frameTimes.
    by rewrite (proj2 (Qle_bool_iff _ _) Hneg).
Qed.

Lemma frameTimes_history_bounded_witness :
  let cs := [PerformanceMonitor.CallUpdate 1000; PerformanceMonitor.CallUpdate (1017 # 1);
             PerformanceMonitor.CallUpdateEntityCounts 10 5;
             PerformanceMonitor.CallUpdate (1034 # 1)] in
  (length (PerformanceMonitor.frameTimes PerformanceMonitor.new)
     ≤ PerformanceMonitor.maxFrameTimeHistory)%nat ∧
  (length (PerformanceMonitor.frameTimes
             (PerformanceMonitor.calls cs PerformanceMonitor.new))
     ≤ PerformanceMonitor.maxFrameTimeHistory)%nat ∧
  PerformanceMonitor.frameTimes (PerformanceMonitor.calls cs PerformanceMonitor.new) =
    [(1017 # 1) - 1000; (1034 # 1) - (1017 # 1)].
Proof.
  intros cs.
  assert (Hnew : (length (PerformanceMonitor.frameTimes PerformanceMonitor.new)
                    ≤ PerformanceMonitor.maxFrameTimeHistory)%nat)
    by (cbn; unfold PerformanceMonitor.maxFrameTimeHistory; lia).
  split; [exact Hnew|].
  destruct (frameTimes_history_bounded cs PerformanceMonitor.new Hnew) as (Hbound & _).
  split; [exact Hbound|reflexivity].
Defined.

(** X26.  Good performance is never reported early: after any calls on a
    new monitor, neither the frame count nor [fps] exceeds the number of
    [update] calls made, so [isPerformanceGood] can only hold once at least 30
    updates were made.  A new monitor and a monitor just reset report an
    average frame time of 0 and do not report good performance. *)
Theorem isPerformanceGood_needs_thirty_updates
    (cs : list PerformanceMonitor.Call) (q : PerformanceMonitor.t) :
  let p := PerformanceMonitor.calls cs PerformanceMonitor.new in
  let n := length (List.filter PerformanceMonitor.isUpdateCall cs) in
  (PerformanceMonitor.frameCount p ≤ n)%nat ∧
  (PerformanceMonitor.fps p ≤ n)%nat ∧
  (PerformanceMonitor.isPerformanceGood p = true → (30 ≤ n)%nat) ∧
  PerformanceMonitor.getAverageFrameTime (PerformanceMonitor.reset q) = 0 ∧
  PerformanceMonitor.isPerformanceGood (PerformanceMonitor.reset q) = false ∧
  PerformanceMonitor.getAverageFrameTime PerformanceMonitor.new = 0 ∧
  PerformanceMonitor.isPerformanceGood PerformanceMonitor.new = false.
Proof.
  intros p n. subst p n.
  assert (Hinv : (PerformanceMonitor.frameCount
                    (PerformanceMonitor.calls cs PerformanceMonitor.new)
                  ≤ length (List.filter PerformanceMonitor.isUpdateCall cs))%nat ∧
                 (PerformanceMonitor.fps
                    (PerformanceMonitor.calls cs PerformanceMonitor.new)
                  ≤ length (List.filter PerformanceMonitor.isUpdateCall cs))%nat).
  { induction cs as [|c cs [IHf IHp]] using rev_ind; [by cbn|].
    unfold PerformanceMonitor.calls in *. rewrite foldl_app, List.filter_app, length_app.
    cbn [foldl]. by apply call_counts. }
  destruct Hinv as [Hf Hp].
  split; [exact Hf|]. split; [exact Hp|]. split; [|done].
  unfold PerformanceMonitor.isPerformanceGood. intros Hgood.
  apply andb_true_iff in Hgood as [Hfps%Nat.leb_le _]. lia.
Qed.

End PerformanceExtras.

(** ** Keyboard hook *)

(** Membership goals on key sets: unfold to propositional form. *)
Ltac set_tac := set_unfold; intuition congruence.

Section KeyboardFacts.
Import useKeyboard.

Lemma normalize_valid (eKey : string) :
  validated eKey = true →
  GameLogic.validateInput (normalize eKey) = true ∧ GameLogic.validateInput eKey = true.
Proof.
  unfold validated, normalize. case_decide as He; [by subst|].
  intros Hv. apply orb_true_iff in Hv. by destruct Hv.
Qed.

Lemma handleKeyDown_keys (eKey : string) (s : useKeyboard.t) :
  keys (handleKeyDown eKey s) =
  if validated eKey then keys s ∪ {[normalize eKey]} ∪ {[eKey]} else keys s.
Proof.
  unfold handleKeyDown, validated. cbv zeta. rewrite <- negb_orb.
  destruct (_ || _); cbn [negb keys]; [|done].
  case_decide as Hne; [done|].
  rewrite Hne. apply set_eq. intros k. rewrite !elem_of_union. tauto.
Qed.

Lemma handleKeyUp_keys (eKey : string) (s : useKeyboard.t) :
  keys (handleKeyUp eKey s) =
  if validated eKey then keys s ∖ {[normalize eKey]} ∖ {[eKey]} else keys s.
Proof.
  unfold handleKeyUp, validated. cbv zeta. rewrite <- negb_orb.
  by destruct (_ || _).
Qed.

Lemma handleKey_others (eKey : string) (s : useKeyboard.t) :
  justPressed (handleKeyDown eKey s) = justPressed s ∧
  justReleased (handleKeyDown eKey s) = justReleased s ∧
  previousKeys (handleKeyDown eKey s) = previousKeys s ∧
  justPressed (handleKeyUp eKey s) = justPressed s ∧
  justReleased (handleKeyUp eKey s) = justReleased s ∧
  previousKeys (handleKeyUp eKey s) = previousKeys s.
Proof.
  unfold handleKeyDown, handleKeyUp. cbv zeta.
  by destruct (negb _ && negb _).
Qed.

Lemma step_onlyAllowed (e : Event) (s : useKeyboard.t) :
  onlyAllowed s → onlyAllowed (step e s).
Proof.
  unfold onlyAllowed. intros Hs. destruct e; cbn [step].
  - intros key. destruct (handleKey_others eKey s) as (-> & -> & -> & _).
    rewrite handleKeyDown_keys. destruct (validated eKey) eqn:Hv; [|apply Hs].
    destruct (normalize_valid eKey Hv) as [Hn He].
    rewrite !elem_of_union, !elem_of_singleton.
    intros [[[[[Hk| ->]| ->]|Hk]|Hk]|Hk]; try done; apply Hs; set_tac.
  - intros key. destruct (handleKey_others eKey s) as (_ & _ & _ & -> & -> & ->).
    rewrite handleKeyUp_keys. destruct (validated eKey) eqn:Hv; [|apply Hs].
    intros Hk. apply Hs. set_tac.
  - intros key Hk. set_tac.
  - destruct hidden; [|done]. intros key Hk. set_tac.
  - intros key Hk. apply Hs. cbn in Hk.
    rewrite !elem_of_union, !elem_of_filter in Hk. set_tac.
  - intros key Hk. set_tac.
Qed.

End KeyboardFacts.

(** X27.  Only keys of the allow-list are ever recorded: starting from the
    empty hook state, after any sequence of key, blur, visibility and frame
    events, every key in the held, just-pressed, just-released and previous
    sets passes [validateInput]; a key-down or key-up of a key outside the list
    changes nothing. *)
Theorem keyboard_records_only_allowed_keys (es : list useKeyboard.Event) (eKey : string) :
  useKeyboard.onlyAllowed (useKeyboard.run es useKeyboard.new) ∧
  (GameLogic.validateInput eKey = false →
   ∀ s, useKeyboard.handleKeyDown eKey s = s ∧ useKeyboard.handleKeyUp eKey s = s).
Proof.
  split.
  - induction es as [|e es IH] using rev_ind.
    + intros key Hk. cbn in Hk. set_tac.
    + unfold useKeyboard.run in *. rewrite foldl_app. cbn. by apply step_onlyAllowed.
  - intros Hinv s.
    assert (Hn : useKeyboard.normalize eKey = eKey).
    { unfold useKeyboard.normalize. case_decide as He; [|done]. by subst. }
    unfold useKeyboard.handleKeyDown, useKeyboard.handleKeyUp. cbv zeta.
    by rewrite Hn, Hinv.
Qed.

Lemma keyboard_records_only_allowed_keys_witness :
  GameLogic.validateInput "F5" = false ∧
  useKeyboard.handleKeyDown "F5"
    (useKeyboard.run [useKeyboard.KeyDown " "; useKeyboard.Frame] useKeyboard.new) =
  useKeyboard.run [useKeyboard.KeyDown " "; useKeyboard.Frame] useKeyboard.new ∧
  GameLogic.validateInput " " = true.
Proof.
  assert (Hinv : GameLogic.validateInput "F5" = false) by reflexivity.
  split; [exact Hinv|].
  destruct (keyboard_records_only_allowed_keys [] "F5") as (_ & Hnoop).
  destruct (Hnoop Hinv
              (useKeyboard.run [useKeyboard.KeyDown " "; useKeyboard.Frame] useKeyboard.new))
    as (Hdown & _).
  split; [exact Hdown|reflexivity].
Defined.

(** X28.  [updateKeyStates] reports edges, not levels: after it, the
    just-pressed keys are the held keys that were not held at the previous
    frame, the just-released keys are the previously held keys no longer
    held, and the held keys become the previous ones.  A second frame with no
    event in between reports nothing, so a held key is reported pressed once;
    and a key pressed and released between two frames is never reported
    pressed, whatever the key. *)
Theorem updateKeyStates_reports_edges (s : useKeyboard.t) (eKey : string) :
  let s' := useKeyboard.updateKeyStates s in
  useKeyboard.justPressed s' = useKeyboard.keys s ∖ useKeyboard.previousKeys s ∧
  useKeyboard.justReleased s' = useKeyboard.previousKeys s ∖ useKeyboard.keys s ∧
  useKeyboard.previousKeys s' = useKeyboard.keys s ∧
  useKeyboard.keys s' = useKeyboard.keys s ∧
  useKeyboard.justPressed (useKeyboard.updateKeyStates s') = ∅ ∧
  useKeyboard.justReleased (useKeyboard.updateKeyStates s') = ∅ ∧
  eKey ∉ useKeyboard.justPressed
           (useKeyboard.updateKeyStates
              (useKeyboard.handleKeyUp eKey (useKeyboard.handleKeyDown eKey s'))).
Proof.
  intros s'. subst s'. unfold useKeyboard.updateKeyStates. cbn.
  split; [apply set_eq; intros k; rewrite elem_of_filter; set_tac|].
  split; [apply set_eq; intros k; rewrite elem_of_filter; set_tac|].
  split; [done|]. split; [done|].
  split; [apply set_eq; intros k; rewrite elem_of_filter; set_tac|].
  split; [apply set_eq; intros k; rewrite elem_of_filter; set_tac|].
  set (s1 := useKeyboard.mk _ _ _ _).
  destruct (handleKey_others eKey s1) as (_ & _ & Hp1 & _).
  destruct (handleKey_others eKey (useKeyboard.handleKeyDown eKey s1))
    as (_ & _ & _ & _ & _ & Hp2).
  rewrite elem_of_filter, Hp2, Hp1, handleKeyUp_keys, handleKeyDown_keys.
  subst s1. destruct (useKeyboard.validated eKey); cbn; set_tac.
Qed.

(** X29.  The space bar is held under both of its names: after a key-down of
    " " both [isPressed "Space"] and [isPressed " "] hold, and after the
    matching key-up neither holds.  Losing focus releases everything: after a
    blur, or a visibility change to hidden, no key is pressed, just pressed or
    just released, and the next [updateKeyStates] finds nothing either: it
    leaves the four sets empty, so no press and no release is reported for
    the keys that were held.  A visibility change to visible changes
    nothing. *)
Theorem space_aliases_and_blur_releases (s : useKeyboard.t) (key : string) :
  useKeyboard.isPressed "Space" (useKeyboard.handleKeyDown " " s) = true ∧
  useKeyboard.isPressed " " (useKeyboard.handleKeyDown " " s) = true ∧
  useKeyboard.isPressed "Space"
    (useKeyboard.handleKeyUp " " (useKeyboard.handleKeyDown " " s)) = false ∧
  useKeyboard.isPressed " "
    (useKeyboard.handleKeyUp " " (useKeyboard.handleKeyDown " " s)) = false ∧
  useKeyboard.isPressed key (useKeyboard.handleBlur s) = false ∧
  useKeyboard.wasJustPressed key (useKeyboard.handleVisibilityChange true s) = false ∧
  useKeyboard.wasJustReleased key (useKeyboard.handleVisibilityChange true s) = false ∧
  useKeyboard.isPressed key (useKeyboard.updateKeyStates (useKeyboard.handleBlur s)) = false ∧
  useKeyboard.wasJustPressed key (useKeyboard.handleBlur s) = false ∧
  useKeyboard.wasJustReleased key (useKeyboard.handleBlur s) = false ∧
  useKeyboard.isPressed key (useKeyboard.handleVisibilityChange true s) = false ∧
  useKeyboard.wasJustPressed key
    (useKeyboard.updateKeyStates (useKeyboard.handleBlur s)) = false ∧
  useKeyboard.wasJustReleased key
    (useKeyboard.updateKeyStates (useKeyboard.handleBlur s)) = false ∧
  useKeyboard.updateKeyStates (useKeyboard.handleBlur s) = useKeyboard.new ∧
  useKeyboard.updateKeyStates (useKeyboard.handleVisibilityChange true s) =
    useKeyboard.new ∧
  useKeyboard.handleVisibilityChange false s = s.
Proof.
  assert (Hv : useKeyboard.validated " " = true) by reflexivity.
  assert (Hn : useKeyboard.normalize " " = "Space"%string) by reflexivity.
  assert (Ha : useKeyboard.alias "Space" = " "%string) by reflexivity.
  assert (Hb : useKeyboard.alias " " = " "%string) by reflexivity.
  assert (Hnext : useKeyboard.updateKeyStates (useKeyboard.handleBlur s) = useKeyboard.new).
  { unfold useKeyboard.updateKeyStates, useKeyboard.handleBlur, useKeyboard.new.
    cbn [useKeyboard.keys useKeyboard.previousKeys].
    f_equal; apply set_eq; intros k; rewrite elem_of_filter; set_tac. }
  cbn [useKeyboard.handleVisibilityChange]. rewrite !Hnext.
  unfold useKeyboard.isPressed, useKeyboard.wasJustPressed, useKeyboard.wasJustReleased.
  rewrite handleKeyUp_keys, !handleKeyDown_keys, Hv, Hn, Ha, Hb. cbn.
  repeat split;
    first [ apply orb_true_iff; left; apply bool_decide_eq_true; set_tac
          | apply orb_false_iff; split; apply bool_decide_eq_false; set_tac ].
Qed.

(** X30.  The validation guard never decides whether the browser's default is
    prevented: [handleKeyDown] calls [preventDefault] exactly for the eight
    game keys, all of which are on the allow-list; the allowed keys ArrowUp,
    ArrowDown and Pause are recorded without preventing the default. *)
Theorem preventsDefault_exactly_game_keys (eKey : string) :
  useKeyboard.preventsDefault eKey = bool_decide (eKey ∈ useKeyboard.gameKeys) ∧
  (eKey ∈ useKeyboard.gameKeys → GameLogic.validateInput eKey = true) ∧
  (useKeyboard.validated eKey = true ∧ useKeyboard.preventsDefault eKey = false ↔
   eKey ∈ ["ArrowUp"; "ArrowDown"; "Pause"]%string).
Proof.
  assert (Hg : eKey ∈ useKeyboard.gameKeys → GameLogic.validateInput eKey = true).
  { intros Hin. apply bool_decide_eq_true.
    unfold useKeyboard.gameKeys, GameLogic.allowedKeys in *.
    set_unfold. intuition auto. }
  assert (Hp : useKeyboard.preventsDefault eKey = bool_decide (eKey ∈ useKeyboard.gameKeys)).
  { unfold useKeyboard.preventsDefault, useKeyboard.validated, useKeyboard.normalize.
    case_decide as He; [by subst|].
    rewrite orb_diag. destruct (bool_decide (eKey ∈ useKeyboard.gameKeys)) eqn:Hd.
    - apply bool_decide_eq_true in Hd. by rewrite (Hg Hd).
    - apply andb_false_r. }
  split; [exact Hp|]. split; [exact Hg|].
  rewrite Hp, bool_decide_eq_false. clear Hp Hg.
  unfold useKeyboard.validated, useKeyboard.normalize.
  destruct (decide (eKey = " "%string)) as [->|He].
  - split.
    + intros [_ Hn]. exfalso. apply Hn. unfold useKeyboard.gameKeys. set_unfold. intuition auto.
    + intros Hin. set_unfold. intuition discriminate.
  - rewrite orb_diag. unfold GameLogic.validateInput.
    rewrite bool_decide_eq_true.
    unfold useKeyboard.gameKeys, GameLogic.allowedKeys. set_unfold.
    split.
    + intros [Ha Hn]. intuition auto.
    + intros [->|[->|[->|[]]]]; (split; [intuition auto|intuition discriminate]).
Qed.
